(** * anime-picker: the session controller, the metadata cache and the
    prefetch loop of [App.tsx], as a timed transition system.

    [App] is a React function component.  Its state hooks and the object
    held by [cacheRef] are the fields of the record [App] below; every
    suspended piece of asynchronous code (an [await] inside
    [loadAnimeData] or [prefetchNext], a [setTimeout] callback, the promise
    of the XML load) is a [Task] in the list of pending tasks of a
    [World].

    JavaScript runs one callback at a time.  A step of the system is one
    callback run to its next suspension point, together with the re-render
    it causes and with the body of the second [useEffect] when [animeList]
    or [currentIndex] changed: the state updates of one callback are
    applied together, and every handler sees the state of the latest
    render.  Time is a clock in milliseconds that only moves forward; a
    timer callback runs no earlier than its delay, an answer of the
    network arrives at any time and carries any outcome.

    The file follows the version of the component with the upload dialog;
    the version without it has the same [loadAnimeData], [prefetchNext]
    and [handleChoice]. *)

From Stdlib Require Import ZArith Lia Ascii String.
From stdpp Require Import gmap strings list fin_maps.

Set Default Proof Using "Type".
Local Open Scope nat_scope.

(** ** The two record types of the file *)

Module AnimeXml.
Record t := mk { id : string; title : string; status : string }.
End AnimeXml.

(** The nested object [images.jpg] is flattened into its two fields.
    [score] is a JavaScript number that is only ever rendered; it is kept
    as the integer number of hundredths. *)
Module JikanAnime.
Record t := mk {
  mal_id : Z;
  title : string;
  title_english : option string;
  image_url : string;
  large_image_url : option string;
  synopsis : option string;
  episodes : option Z;
  type : option string;
  status : option string;
  score : option Z
}.
End JikanAnime.

Inductive Choice := liked | disliked.

(** ** [parseInt(s, 10)]

    Leading white space is dropped, one sign is read, then the longest run
    of decimal digits; [None] is [NaN] (no digit was read).  Identifiers
    are ASCII strings here, so white space is the ASCII part of the
    ECMAScript white space set. *)

Definition is_white_space (a : ascii) : bool :=
  let n := nat_of_ascii a in
  (n =? 9) || (n =? 10) || (n =? 11) || (n =? 12) || (n =? 13) || (n =? 32).

Fixpoint trim_start (s : string) : string :=
  match s with
  | String a s' => if is_white_space a then trim_start s' else s
  | EmptyString => s
  end.

Definition digit_of (a : ascii) : option Z :=
  let n := Z.of_nat (nat_of_ascii a) in
  if ((48 <=? n) && (n <=? 57))%Z then Some (n - 48)%Z else None.

Fixpoint read_digits (s : string) (acc : option Z) : option Z :=
  match s with
  | String a s' =>
      match digit_of a with
      | Some d => read_digits s' (Some (10 * default 0 acc + d))%Z
      | None => acc
      end
  | EmptyString => acc
  end.

Definition parseInt (s : string) : option Z :=
  match trim_start s with
  | String "-" s' => Z.opp <$> read_digits s' None
  | String "+" s' => read_digits s' None
  | s' => read_digits s' None
  end.

(** ** [shuffleArray]

    [Math.random()] is a source of numbers in the interval [0, 1).  A draw
    is the fraction [num / (num + 1 + gap)], which ranges over exactly the
    rationals of that interval; [random_index r n] is
    [Math.floor(r * n)]. *)

Record Draw := mkDraw { num : nat; gap : nat }.

Definition random_index (r : Draw) (n : nat) : nat :=
  (num r * n) / (num r + S (gap r)).

(** [[arr[i], arr[j]] = [arr[j], arr[i]]].  Both reads hit an element at
    every call made by the loop ([shuffle_loop_in_bounds] below); outside
    the bounds JavaScript would store [undefined] and grow the array, which
    the loop never does, and the array is left as it is here. *)
Definition swap {T} (i j : nat) (arr : list T) : list T :=
  match arr !! i, arr !! j with
  | Some x, Some y => <[j := x]> (<[i := y]> arr)
  | _, _ => arr
  end.

(** The loop [for (let i = arr.length - 1; i > 0; i--)]; [k] counts the
    calls to [Math.random] made so far. *)
Fixpoint shuffle_loop {T} (rnd : nat → Draw) (k i : nat) (arr : list T) : list T :=
  match i with
  | 0 => arr
  | S i' => shuffle_loop rnd (S k) i' (swap i (random_index (rnd k) (S i)) arr)
  end.

Definition shuffle {T} (rnd : nat → Draw) (array : list T) : list T :=
  shuffle_loop rnd 0 (length array - 1) array.

(** The same function on a store of array objects, so that the argument
    and the result are two objects: [const arr = [...array]] allocates a
    fresh array and every later write goes to it. *)
Fixpoint shuffle_loop_at {T} (rnd : nat → Draw) (k i : nat) (arr : nat)
    (h : gmap nat (list T)) : gmap nat (list T) :=
  match i with
  | 0 => h
  | S i' =>
      shuffle_loop_at rnd (S k) i' arr
        (alter (swap i (random_index (rnd k) (S i))) arr h)
  end.

Definition shuffleArray {T} (rnd : nat → Draw) (array : nat)
    (h : gmap nat (list T)) : nat * gmap nat (list T) :=
  let src := default [] (h !! array) in
  let arr := fresh (dom h) in
  (arr, shuffle_loop_at rnd 0 (length src - 1) arr (<[arr := src]> h)).

(** ** The component state

    The six [useState] cells that the code paths below read or write, the
    [showUpload] flag and the object held by [cacheRef].  The cache and the
    choices are JavaScript objects used as maps from identifier strings;
    look-ups are of their own properties (the names inherited from
    [Object.prototype] are not identifiers of an export). *)

Record App := mkApp {
  animeList : list AnimeXml.t;
  currentIndex : nat;
  jikanData : option JikanAnime.t;
  choices : gmap string Choice;
  likedShows : list JikanAnime.t;
  isCooldown : bool;
  showUpload : bool;
  cacheRef : gmap string JikanAnime.t
}.

(** The locals of one suspended run of [prefetchNext]: the [animeList] and
    [currentIndex] its closure captured, the loop index [pos], and the
    [next] and [idNum] of the iteration.  [pass] numbers the runs; it is
    instrumentation and nothing reads it. *)
Record Frame := mkFrame {
  pass : nat;
  lst : list AnimeXml.t;
  cur : nat;
  pos : nat;
  next : AnimeXml.t;
  idNum : Z
}.

Inductive Task :=
| LoadXml
| FgFetch (id : string)
| PfSleep (f : Frame) (deadline : nat)
| PfFetch (f : Frame)
| Cooldown (deadline : nat).

(** What an instrumented metadata service records of each outbound call:
    the time it started, the identifier it was made for and the path that
    made it. *)
Inductive Origin := Foreground | Prefetch (pass pos : nat).

Record Call := mkCall {
  call_time : nat;
  call_id : string;
  call_num : Z;
  call_origin : Origin
}.

Record World := mkWorld {
  app : App;
  now : nat;
  pending : list Task;
  calls : list Call;
  passes : nat
}.

(** The outcome of [await fetch(...)] followed by [await res.json()], taken
    as one suspension: the code does nothing between the two. *)
Inductive FetchResult :=
| Ok200 (data : JikanAnime.t)
| NotOk (code : nat)
| Rejected.

(** *** Writing one cell *)

Definition with_app (f : App → App) (w : World) : World :=
  mkWorld (f (app w)) (now w) (pending w) (calls w) (passes w).

Definition spawn (t : Task) (w : World) : World :=
  mkWorld (app w) (now w) (pending w ++ [t]) (calls w) (passes w).

Definition retire (k : nat) (w : World) : World :=
  mkWorld (app w) (now w) (delete k (pending w)) (calls w) (passes w).

Definition record_call (c : Call) (w : World) : World :=
  mkWorld (app w) (now w) (pending w) (calls w ++ [c]) (passes w).

Definition setAnimeList (v : list AnimeXml.t) (a : App) : App :=
  mkApp v (currentIndex a) (jikanData a) (choices a) (likedShows a)
        (isCooldown a) (showUpload a) (cacheRef a).

Definition setCurrentIndex (v : nat) (a : App) : App :=
  mkApp (animeList a) v (jikanData a) (choices a) (likedShows a)
        (isCooldown a) (showUpload a) (cacheRef a).

Definition setJikanData (v : option JikanAnime.t) (a : App) : App :=
  mkApp (animeList a) (currentIndex a) v (choices a) (likedShows a)
        (isCooldown a) (showUpload a) (cacheRef a).

Definition setChoices (v : gmap string Choice) (a : App) : App :=
  mkApp (animeList a) (currentIndex a) (jikanData a) v (likedShows a)
        (isCooldown a) (showUpload a) (cacheRef a).

Definition setLikedShows (v : list JikanAnime.t) (a : App) : App :=
  mkApp (animeList a) (currentIndex a) (jikanData a) (choices a) v
        (isCooldown a) (showUpload a) (cacheRef a).

Definition setIsCooldown (v : bool) (a : App) : App :=
  mkApp (animeList a) (currentIndex a) (jikanData a) (choices a)
        (likedShows a) v (showUpload a) (cacheRef a).

Definition setShowUpload (v : bool) (a : App) : App :=
  mkApp (animeList a) (currentIndex a) (jikanData a) (choices a)
        (likedShows a) (isCooldown a) v (cacheRef a).

Definition setCache (v : gmap string JikanAnime.t) (a : App) : App :=
  mkApp (animeList a) (currentIndex a) (jikanData a) (choices a)
        (likedShows a) (isCooldown a) (showUpload a) v.

(** [cacheRef.current[id] = data] *)
Definition cache_put (id : string) (data : JikanAnime.t) (a : App) : App :=
  setCache (<[id := data]> (cacheRef a)) a.

(** ** The effect on [animeList] and [currentIndex] *)

(** [loadAnimeData(id)] up to its first [await]. *)
Definition loadAnimeData (id : string) (w : World) : World :=
  match cacheRef (app w) !! id with
  | Some data => with_app (setJikanData (Some data)) w
  | None =>
      match parseInt id with
      | None => w
      | Some n =>
          spawn (FgFetch id) (record_call (mkCall (now w) id n Foreground) w)
      end
  end.

(** [loadAnimeData] from the [await] on: the body of [try] after a
    successful answer, the [catch] block otherwise. *)
Definition loadAnimeData_resume (id : string) (r : FetchResult) (w : World) : World :=
  match r with
  | Ok200 data => with_app (setJikanData (Some data)) (with_app (cache_put id data) w)
  | NotOk _ | Rejected => with_app (setJikanData None) w
  end.

(** The loop of [prefetchNext] from index [i] to its next [await]: it
    passes with [continue] over the indices that hold no entry, a cached
    entry or an identifier that is not a number, and stops at the first
    other one.  [fuel] is the number of indices left before
    [currentIndex + 4]. *)
Fixpoint prefetch_scan (l : list AnimeXml.t) (cache : gmap string JikanAnime.t)
    (i fuel : nat) : option (nat * AnimeXml.t * Z) :=
  match fuel with
  | 0 => None
  | S fuel' =>
      match l !! i with
      | None => prefetch_scan l cache (S i) fuel'
      | Some nxt =>
          match cache !! AnimeXml.id nxt with
          | Some _ => prefetch_scan l cache (S i) fuel'
          | None =>
              match parseInt (AnimeXml.id nxt) with
              | None => prefetch_scan l cache (S i) fuel'
              | Some n => Some (i, nxt, n)
              end
          end
      end
  end.

(** Run the loop of pass [p] from index [i]; at an entry to fetch the run
    suspends on [setTimeout(resolve, 900)]. *)
Definition prefetch_from (p : nat) (l : list AnimeXml.t) (c i : nat) (w : World) : World :=
  match prefetch_scan l (cacheRef (app w)) i (c + 4 - i) with
  | Some (j, nxt, n) => spawn (PfSleep (mkFrame p l c j nxt n) (now w + 900)) w
  | None => w
  end.

Definition prefetchNext (w : World) : World :=
  prefetch_from (passes w) (animeList (app w)) (currentIndex (app w))
    (currentIndex (app w) + 1)
    (mkWorld (app w) (now w) (pending w) (calls w) (S (passes w))).

(** The timer of a suspended pass has fired: the call goes out. *)
Definition prefetch_wake (f : Frame) (w : World) : World :=
  spawn (PfFetch f)
    (record_call
       (mkCall (now w) (AnimeXml.id (next f)) (idNum f) (Prefetch (pass f) (pos f))) w).

(** The answer has come: the cache is written on success, and on every
    outcome the loop goes on with the next index. *)
Definition prefetch_resume (f : Frame) (r : FetchResult) (w : World) : World :=
  let w' :=
    match r with
    | Ok200 data => with_app (cache_put (AnimeXml.id (next f)) data) w
    | NotOk _ | Rejected => w
    end in
  prefetch_from (pass f) (lst f) (cur f) (S (pos f)) w'.

(** The body of the second [useEffect]. *)
Definition effect (w : World) : World :=
  match animeList (app w) !! currentIndex (app w) with
  | None => with_app (setJikanData None) w
  | Some anime => prefetchNext (loadAnimeData (AnimeXml.id anime) w)
  end.

(** ** The handlers *)

Definition handleChoice (choice : Choice) (w : World) : World :=
  if isCooldown (app w) then w
  else
    let w1 := spawn (Cooldown (now w + 1000)) (with_app (setIsCooldown true) w) in
    match animeList (app w) !! currentIndex (app w), jikanData (app w) with
    | Some anime, Some data =>
        let a1 := setChoices (<[AnimeXml.id anime := choice]> (choices (app w1))) (app w1) in
        let a2 :=
          match choice with
          | liked => setLikedShows (likedShows a1 ++ [data]) a1
          | disliked => a1
          end in
        effect (with_app (fun _ => setCurrentIndex (currentIndex a2 + 1) a2) w1)
    | _, _ => w1
    end.

(** [reader.onload] of [handleFileUpload]: [parsed] is the list read from
    the file, [stored] tells whether [localStorage.setItem] returned (it
    throws when the quota is exceeded, and the [catch] block only alerts). *)
Definition handleFileUpload (parsed : list AnimeXml.t) (stored : bool)
    (rnd : nat → Draw) (w : World) : World :=
  match parsed with
  | [] => w
  | _ :: _ =>
      if stored then
        effect
          (with_app
             (fun a =>
                setShowUpload false
                  (setCache ∅
                     (setLikedShows []
                        (setChoices ∅
                           (setJikanData None
                              (setCurrentIndex 0
                                 (setAnimeList (shuffle rnd parsed) a)))))))
             w)
      else w
  end.

(** The first [useEffect], once the XML text has arrived: [saved] tells
    whether it came from [localStorage]. *)
Definition xml_loaded (parsed : list AnimeXml.t) (saved : bool)
    (rnd : nat → Draw) (w : World) : World :=
  let w1 := with_app (setAnimeList (shuffle rnd parsed)) w in
  effect (if saved then w1 else with_app (setShowUpload true) w1).

(** ** Steps *)

Inductive Event :=
| Tick (dt : nat)
| Click (choice : Choice)
| Upload (parsed : list AnimeXml.t) (stored : bool) (rnd : nat → Draw)
| XmlLoaded (k : nat) (parsed : list AnimeXml.t) (saved : bool) (rnd : nat → Draw)
| XmlFailed (k : nat)
| TimerFired (k : nat)
| Response (k : nat) (r : FetchResult).

(** One callback.  A timer callback runs no earlier than its delay; an
    event that names a task of the wrong kind, or a timer that is not due,
    is not a step. *)
Definition step (e : Event) (w : World) : option World :=
  match e with
  | Tick dt => Some (mkWorld (app w) (now w + dt) (pending w) (calls w) (passes w))
  | Click choice => Some (handleChoice choice w)
  | Upload parsed stored rnd => Some (handleFileUpload parsed stored rnd w)
  | XmlLoaded k parsed saved rnd =>
      match pending w !! k with
      | Some LoadXml => Some (xml_loaded parsed saved rnd (retire k w))
      | _ => None
      end
  | XmlFailed k =>
      match pending w !! k with
      | Some LoadXml => Some (with_app (setShowUpload true) (retire k w))
      | _ => None
      end
  | TimerFired k =>
      match pending w !! k with
      | Some (PfSleep f d) =>
          if d <=? now w then Some (prefetch_wake f (retire k w)) else None
      | Some (Cooldown d) =>
          if d <=? now w then Some (with_app (setIsCooldown false) (retire k w))
          else None
      | _ => None
      end
  | Response k r =>
      match pending w !! k with
      | Some (FgFetch id) => Some (loadAnimeData_resume id r (retire k w))
      | Some (PfFetch f) => Some (prefetch_resume f r (retire k w))
      | _ => None
      end
  end.

Fixpoint run (es : list Event) (w : World) : option World :=
  match es with
  | [] => Some w
  | e :: es' =>
      match step e w with
      | Some w' => run es' w'
      | None => None
      end
  end.

(** The component as mounted: the XML load is pending, and the second
    effect has run on the empty list. *)
Definition init : World :=
  mkWorld (mkApp [] 0 None ∅ [] false false ∅) 0 [LoadXml] [] 0.

Definition reachable (w : World) : Prop := ∃ es, run es init = Some w.

(** ** Notions the properties are stated with *)

(** The identifier a pending task has an outbound call in flight for. *)
Definition fetching (t : Task) : option string :=
  match t with
  | FgFetch id => Some id
  | PfFetch f => Some (AnimeXml.id (next f))
  | _ => None
  end.

(** The number of outbound calls in flight for [id]. *)
Definition in_flight (id : string) (w : World) : nat :=
  length (filter (λ t, fetching t = Some id) (pending w)).

(** The deadlines of the pending cooldown timers. *)
Definition cooldown_of (t : Task) : option nat :=
  match t with
  | Cooldown d => Some d
  | _ => None
  end.

Definition cooldown_timers (w : World) : list nat := omap cooldown_of (pending w).

(** The pass a pending task belongs to, and the pass that made a call. *)
Definition pass_of_task (t : Task) : option nat :=
  match t with
  | PfSleep f _ | PfFetch f => Some (pass f)
  | _ => None
  end.

Definition pass_of_call (c : Call) : option nat :=
  match call_origin c with
  | Prefetch p _ => Some p
  | Foreground => None
  end.

(** Any two calls of one pass in the log start at least 900 ms apart. *)
Definition spaced (cs : list Call) : Prop :=
  ∀ i j c1 c2 p,
    i < j → cs !! i = Some c1 → cs !! j = Some c2 →
    pass_of_call c1 = Some p → pass_of_call c2 = Some p →
    call_time c1 + 900 ≤ call_time c2.

(** The event replaces the list of a session, and the accepted upload
    empties the cache as well. *)
Definition loads_list (e : Event) : bool :=
  match e with
  | Upload _ _ _ | XmlLoaded _ _ _ _ => true
  | _ => false
  end.

Definition resets (e : Event) : bool :=
  match e with
  | Upload (_ :: _) true _ => true
  | _ => false
  end.

(** ** One pass of [prefetchNext] run on its own

    The loop as it is written, from index [i] with [fuel] indices to go,
    when no other code writes the cache while the pass is suspended:
    [answer j] is the outcome of the call made for index [j].  The result
    is the list of the indices a call was made for and the cache at the
    end. *)
Fixpoint warm (l : list AnimeXml.t) (answer : nat → FetchResult)
    (cache : gmap string JikanAnime.t) (i fuel : nat)
    : list nat * gmap string JikanAnime.t :=
  match fuel with
  | 0 => ([], cache)
  | S fuel' =>
      match l !! i with
      | None => warm l answer cache (S i) fuel'
      | Some nxt =>
          match cache !! AnimeXml.id nxt with
          | Some _ => warm l answer cache (S i) fuel'
          | None =>
              match parseInt (AnimeXml.id nxt) with
              | None => warm l answer cache (S i) fuel'
              | Some _ =>
                  let cache' :=
                    match answer i with
                    | Ok200 data => <[AnimeXml.id nxt := data]> cache
                    | NotOk _ | Rejected => cache
                    end in
                  let rest := warm l answer cache' (S i) fuel' in
                  (i :: rest.1, rest.2)
              end
          end
      end
  end.

(** The events of such a run when the task of the pass is the [k]-th
    pending one: for each index, the 900 ms pass, the timer fires and the
    answer arrives. *)
Definition pass_events (k : nat) (answer : nat → FetchResult) (js : list nat) : list Event :=
  js ≫= λ j, [Tick 900; TimerFired k; Response k (answer j)].

(** The calls that the service sees from such a run, which starts at
    time [t]: one every 900 ms at the earliest. *)
Fixpoint pass_calls (p : nat) (l : list AnimeXml.t) (t : nat) (js : list nat) : list Call :=
  match js with
  | [] => []
  | j :: js' =>
      match l !! j with
      | Some e =>
          mkCall (t + 900) (AnimeXml.id e) (default 0%Z (parseInt (AnimeXml.id e)))
            (Prefetch p j) :: pass_calls p l (t + 900) js'
      | None => []
      end
  end.

(** ** What each piece of code adds to the world *)

(** The task and the call that [loadAnimeData] adds. *)
Definition load_tasks (id : string) (cache : gmap string JikanAnime.t) : list Task :=
  match cache !! id, parseInt id with
  | None, Some _ => [FgFetch id]
  | _, _ => []
  end.

Definition load_calls (id : string) (cache : gmap string JikanAnime.t) (t : nat) : list Call :=
  match cache !! id, parseInt id with
  | None, Some n => [mkCall t id n Foreground]
  | _, _ => []
  end.

(** The timer that the loop of a pass sets when it suspends. *)
Definition scan_tasks (p : nat) (l : list AnimeXml.t) (c i : nat)
    (cache : gmap string JikanAnime.t) (t : nat) : list Task :=
  match prefetch_scan l cache i (c + 4 - i) with
  | Some (j, nxt, n) => [PfSleep (mkFrame p l c j nxt n) (t + 900)]
  | None => []
  end.

(** The tasks and the calls that one run of the effect adds, and the
    resolved metadata it leaves. *)
Definition effect_tasks (w : World) : list Task :=
  match animeList (app w) !! currentIndex (app w) with
  | None => []
  | Some anime =>
      load_tasks (AnimeXml.id anime) (cacheRef (app w)) ++
      scan_tasks (passes w) (animeList (app w)) (currentIndex (app w))
        (currentIndex (app w) + 1) (cacheRef (app w)) (now w)
  end.

Definition effect_calls (w : World) : list Call :=
  match animeList (app w) !! currentIndex (app w) with
  | None => []
  | Some anime => load_calls (AnimeXml.id anime) (cacheRef (app w)) (now w)
  end.

Definition effect_jikanData (a : App) : option JikanAnime.t :=
  match animeList a !! currentIndex a with
  | None => None
  | Some anime =>
      match cacheRef a !! AnimeXml.id anime with
      | Some data => Some data
      | None => jikanData a
      end
  end.

(** ** Invariants *)

(** The flag is up exactly while one cooldown timer is pending. *)
Definition cooldown_consistent (w : World) : Prop :=
  length (cooldown_timers w) = if isCooldown (app w) then 1 else 0.

(** From the time [T] on, or else with the flag up and every pending
    cooldown timer due no earlier than [T]. *)
Definition cooling (T : nat) (w : World) : Prop :=
  (isCooldown (app w) = true ∧ Forall (λ d, T ≤ d) (cooldown_timers w)) ∨ T ≤ now w.

Definition numeric_task (t : Task) : Prop :=
  match t with
  | FgFetch id => is_Some (parseInt id)
  | PfSleep f _ | PfFetch f => parseInt (AnimeXml.id (next f)) = Some (idNum f)
  | LoadXml | Cooldown _ => True
  end.

Definition numeric_call (c : Call) : Prop := parseInt (call_id c) = Some (call_num c).

(** Every call made, every call or delay pending and every key of the
    cache is for an identifier that is a number. *)
Definition numeric_world (w : World) : Prop :=
  Forall numeric_task (pending w)
  ∧ Forall numeric_call (calls w)
  ∧ ∀ id, is_Some (cacheRef (app w) !! id) → is_Some (parseInt id).

(** Every identifier that has a choice is the identifier of an entry
    before the cursor. *)
Definition decided (w : World) : Prop :=
  ∀ id, is_Some (choices (app w) !! id) →
    ∃ i e, i < currentIndex (app w) ∧ animeList (app w) !! i = Some e
           ∧ AnimeXml.id e = id.

(** What holds of the clock, the pending tasks, the call log and the pass
    counter of every world: calls lie in the past, pass numbers in use are
    below the counter, each pass has at most one pending task, a pass that
    sleeps wakes no earlier than 900 ms after each of its calls, and the
    log is spaced. *)
Definition gap_inv (t : nat) (ps : list Task) (cs : list Call) (n : nat) : Prop :=
  Forall (λ c, call_time c ≤ t) cs
  ∧ Forall (λ c, ∀ p, pass_of_call c = Some p → p < n) cs
  ∧ Forall (λ x, ∀ p, pass_of_task x = Some p → p < n) ps
  ∧ NoDup (omap pass_of_task ps)
  ∧ Forall (λ x, ∀ f d, x = PfSleep f d →
               Forall (λ c, pass_of_call c = Some (pass f) → call_time c + 900 ≤ d) cs) ps
  ∧ spaced cs.

Definition gap_world (w : World) : Prop :=
  gap_inv (now w) (pending w) (calls w) (passes w).

(** ** Sample data *)

Definition bebop : AnimeXml.t := AnimeXml.mk "1" "Cowboy Bebop" "Completed".
Definition trigun : AnimeXml.t := AnimeXml.mk "6" "Trigun" "Completed".
Definition evangelion : AnimeXml.t :=
  AnimeXml.mk "30" "Neon Genesis Evangelion" "Completed".
Definition untitled : AnimeXml.t := AnimeXml.mk "n/a" "Untitled" "Plan to Watch".

(** A second entry for the first title. *)
Definition bebop_again : AnimeXml.t := AnimeXml.mk "1" "Cowboy Bebop" "Watching".

Definition bebop_data : JikanAnime.t :=
  JikanAnime.mk 1 "Cowboy Bebop" None "https://cdn.myanimelist.net/images/anime/4/19644.jpg"
    None None (Some 26%Z) (Some "TV") (Some "Finished Airing") (Some 875%Z).

Definition trigun_data : JikanAnime.t :=
  JikanAnime.mk 6 "Trigun" None "https://cdn.myanimelist.net/images/anime/7/20310.jpg"
    None None (Some 26%Z) (Some "TV") (Some "Finished Airing") (Some 822%Z).

(** The same title after the service has revised its score. *)
Definition trigun_rescored : JikanAnime.t :=
  JikanAnime.mk 6 "Trigun" None "https://cdn.myanimelist.net/images/anime/7/20310.jpg"
    None None (Some 26%Z) (Some "TV") (Some "Finished Airing") (Some 823%Z).

(** Draws so close to 1 that every element of a short list stays in place,
    and draws that are all 0. *)
Definition high_draws : nat → Draw := λ _, mkDraw 999 0.
Definition zero_draws : nat → Draw := λ _, mkDraw 0 0.

(** ** Scenarios *)

(** The export holds two titles; the first is resolved. *)
Definition two_titles : list AnimeXml.t := [bebop; trigun].

Definition first_resolved : list Event :=
  [XmlLoaded 0 two_titles false high_draws; Response 0 (Ok200 bebop_data)].

Definition resolved_world : World := default init (run first_resolved init).

(** The pass started at cursor 0 has its call for the second title in
    flight when the user likes the first title: the foreground path asks
    for the second title too. *)
Definition overlap : list Event :=
  first_resolved ++ [Tick 900; TimerFired 0; Tick 50; Click liked].

Definition overlap_world : World := default init (run overlap init).

(** The answer to the call of the pass arrives, then the answer to the
    foreground call, carrying a revised score. *)
Definition first_answer : list Event := overlap ++ [Response 0 (Ok200 trigun_data)].

Definition first_answer_world : World := default init (run first_answer init).

Definition second_answer_world : World :=
  default init (step (Response 1 (Ok200 trigun_rescored)) first_answer_world).

(** The cooldown is over and the second title is still being resolved;
    the user dislikes it, or likes it. *)
Definition unresolved : list Event := overlap ++ [Tick 1000; TimerFired 1].

Definition unresolved_world : World := default init (run unresolved init).

Definition second_decision_world : World := handleChoice disliked unresolved_world.

Definition liked_twice_world : World := handleChoice liked unresolved_world.

(** An export that lists one title twice; the user likes it at the first
    position and, once the cooldown is over, dislikes it at the second. *)
Definition liked_once : list Event :=
  [XmlLoaded 0 [bebop; bebop_again] false high_draws;
   Response 0 (Ok200 bebop_data); Click liked; Tick 1000; TimerFired 1].

Definition liked_once_world : World := default init (run liked_once init).

Definition disliked_world : World := handleChoice disliked liked_once_world.

(** Three titles; the pass started at cursor 0 fetches the second and then
    the third while the foreground call is still unanswered. *)
Definition one_pass : list Event :=
  [XmlLoaded 0 [bebop; trigun; evangelion] false high_draws;
   Tick 900; TimerFired 1; Response 1 (Ok200 trigun_data);
   Tick 900; TimerFired 1].

Definition one_pass_world : World := default init (run one_pass init).

(** Two passes overlap.  The first title is resolved and the pass started
    at cursor 0 has fetched the second title and has its call for the
    third in flight when the user likes the first title; the pass started
    at cursor 1 finds the third title missing from the cache and waits to
    ask for it. *)
Definition two_passes : list Event :=
  [XmlLoaded 0 [bebop; trigun; evangelion] false high_draws;
   Response 0 (Ok200 bebop_data);
   Tick 900; TimerFired 0; Response 0 (Ok200 trigun_data);
   Tick 900; TimerFired 0;
   Click liked; Tick 900].

Definition two_passes_world : World := default init (run two_passes init).

Definition asked_twice_world : World :=
  default init (step (TimerFired 2) two_passes_world).

(** The user uploads a list of their own while the first title of the
    default list is still being resolved; the answer arrives afterwards. *)
Definition upload_while_resolving : list Event :=
  [XmlLoaded 0 two_titles false high_draws; Upload [evangelion] true high_draws].

Definition uploaded_world : World := default init (run upload_while_resolving init).

Definition late_answer_world : World :=
  default init (step (Response 0 (Ok200 bebop_data)) uploaded_world).

#[global] Arguments parseInt : simpl never.
#[global] Arguments shuffle : simpl never.
#[global] Arguments prefetch_scan : simpl never.
#[global] Arguments warm : simpl never.

(** One step, by cases on the event and on the task it resumes. *)
Ltac step_inv H :=
  match type of H with
  | step ?e ?w = Some _ =>
      let k := fresh "k" in
      let Hk := fresh "Hk" in
      destruct e as [?|?|?|k ? ? ?|k|k|k ?]; simpl in H;
      [ | | | destruct (pending w !! k) as [[]|] eqn:Hk
            | destruct (pending w !! k) as [[]|] eqn:Hk
            | destruct (pending w !! k) as [[]|] eqn:Hk
            | destruct (pending w !! k) as [[]|] eqn:Hk ];
      try discriminate H;
      repeat match type of H with
             | (if ?d <=? ?t then _ else _) = _ =>
                 destruct (Nat.leb_spec d t); [|discriminate H]
             end;
      injection H as <-
  end.

(** ** Further notions *)

(** The number of outbound calls made so far for [id]. *)
Definition calls_for (id : string) (w : World) : nat :=
  length (filter (λ c, call_id c = id) (calls w)).

(** The number of calls that a pending task of a prefetch pass can still
    lead to: a pass walks three indices and makes one call per index at
    most. *)
Definition calls_left (t : Task) : nat :=
  match t with
  | PfSleep f _ => cur f + 4 - pos f
  | PfFetch f => cur f + 3 - pos f
  | LoadXml | FgFetch _ | Cooldown _ => 0
  end.

(** The calls made and the calls the pending passes can still make. *)
Definition budget (w : World) : nat :=
  length (calls w) + sum_list_with calls_left (pending w).

(** The loop index of a pending pass lies in its window. *)
Definition in_window (t : Task) : Prop :=
  match t with
  | PfSleep f _ | PfFetch f => cur f < pos f < cur f + 4
  | LoadXml | FgFetch _ | Cooldown _ => True
  end.

(** For every identifier, the calls in flight are among the calls made,
    and the cache holds an entry only if a call was made. *)
Definition accounted (w : World) : Prop :=
  ∀ id, in_flight id w ≤ calls_for id w
        ∧ (is_Some (cacheRef (app w) !! id) → 0 < calls_for id w).

(** The pending passes are in their windows and the budget is four calls
    per run of the effect. *)
Definition within_budget (w : World) : Prop :=
  Forall in_window (pending w) ∧ budget w ≤ 4 * passes w.

(** The events after which the second effect can run. *)
Definition runs_effect (e : Event) : bool :=
  match e with
  | Click _ | Upload _ _ _ | XmlLoaded _ _ _ _ => true
  | _ => false
  end.

Definition is_click (e : Event) : bool :=
  match e with
  | Click _ => true
  | _ => false
  end.

(** No resolved metadata is held and no foreground call is in flight. *)
Definition stalled (w : World) : Prop :=
  jikanData (app w) = None
  ∧ Forall (λ t, ∀ id, t ≠ FgFetch id) (pending w).

(** The answer is not a successful one. *)
Definition failed (r : FetchResult) : bool :=
  match r with
  | Ok200 _ => false
  | NotOk _ | Rejected => true
  end.

(** The first title cannot be resolved: the service answers 429.  The
    prefetch pass goes on and the user keeps clicking. *)
Definition first_fails : list Event :=
  [XmlLoaded 0 two_titles false high_draws].

Definition asking_world : World := default init (run first_fails init).

Definition refused_world : World :=
  default init (step (Response 0 (NotOk 429)) asking_world).

Definition keeps_clicking : list Event :=
  [Click liked; Tick 900; TimerFired 0; Response 1 (Ok200 trigun_data);
   Tick 100; TimerFired 0; Click disliked].

Definition still_refused_world : World :=
  default init (run keeps_clicking refused_world).

(** The session after the first title is resolved: the pass asks for the
    second title, the user likes the first one, the second one arrives and
    is disliked once the cooldown is over. *)
Definition two_decisions : list Event :=
  [Tick 900; TimerFired 0; Tick 50; Click liked; Response 0 (Ok200 trigun_data);
   Response 1 (Ok200 trigun_data); Tick 1000; TimerFired 0; Click disliked].

Definition exhausted_world : World := default init (run two_decisions resolved_world).

(** The names that every JavaScript object inherits from
    [Object.prototype].  The cache is a plain object, so a look-up of one
    of these names finds the inherited member whatever the cache holds;
    for every other string the look-up is that of the entries written. *)
Definition inherited (id : string) : bool :=
  bool_decide
    (id ∈ ["constructor"; "hasOwnProperty"; "isPrototypeOf"; "propertyIsEnumerable";
           "toLocaleString"; "toString"; "valueOf"; "__proto__";
           "__defineGetter__"; "__defineSetter__"; "__lookupGetter__";
           "__lookupSetter__"]).

(** ** A prefetch pass among everything else *)

(** What makes the loop of [prefetchNext] pass over the index [j] of [l]:
    no entry, an identifier that is in the cache, or an identifier that is
    not a number. *)
Definition passed_over (l : list AnimeXml.t) (cache : gmap string JikanAnime.t)
    (j : nat) : Prop :=
  match l !! j with
  | None => True
  | Some e => is_Some (cache !! AnimeXml.id e) ∨ parseInt (AnimeXml.id e) = None
  end.

(** The index of a suspended pass lies in the window of the pass, and the
    entry it holds is the entry of its list at that index, with an
    identifier that is a number. *)
Definition in_its_window (f : Frame) : Prop :=
  cur f < pos f < cur f + 4
  ∧ lst f !! pos f = Some (next f)
  ∧ parseInt (AnimeXml.id (next f)) = Some (idNum f).

(** In the run [es] from the mounting, the pass [p] was started by a run
    of the effect on the list [l] with the cursor at [c]. *)
Definition pass_started (es : list Event) (p : nat) (l : list AnimeXml.t) (c : nat) : Prop :=
  ∃ es0 e es2 w0 w1,
    es = es0 ++ e :: es2 ∧ run es0 init = Some w0 ∧ step e w0 = Some w1
    ∧ passes w0 = p ∧ passes w1 = S p
    ∧ animeList (app w1) = l ∧ currentIndex (app w1) = c.

(** In the run [es] from the mounting, the loop of the pass reached the
    index of [f] at a time that is at least 900 ms before [t]: it set its
    timer there, and the identifier was not in the cache then. *)
Definition loop_reached (es : list Event) (f : Frame) (t : nat) : Prop :=
  ∃ es1 es2 w1,
    es = es1 ++ es2 ∧ run es1 init = Some w1
    ∧ PfSleep f (now w1 + 900) ∈ pending w1
    ∧ cacheRef (app w1) !! AnimeXml.id (next f) = None
    ∧ now w1 + 900 ≤ t.

Definition pass_task (es : list Event) (t : Task) : Prop :=
  match t with
  | PfSleep f d =>
      in_its_window f ∧ pass_started es (pass f) (lst f) (cur f) ∧ loop_reached es f d
  | PfFetch f => in_its_window f ∧ pass_started es (pass f) (lst f) (cur f)
  | LoadXml | FgFetch _ | Cooldown _ => True
  end.

(** A call of a pass, in the log of the run [es]: it was made for the
    entry at an index of the window of the pass, by the loop that reached
    the index at least 900 ms before the call. *)
Definition pass_call (es : list Event) (c : Call) : Prop :=
  match call_origin c with
  | Foreground => True
  | Prefetch p j =>
      ∃ f, pass f = p ∧ pos f = j
           ∧ call_id c = AnimeXml.id (next f) ∧ call_num c = idNum f
           ∧ in_its_window f
           ∧ pass_started es p (lst f) (cur f)
           ∧ loop_reached es f (call_time c)
  end.

(** ** What the component renders

    The parts of the returned JSX that depend on the cursor: the main
    picker and the progress line.  A text that the code builds from a
    number keeps the number. *)

(** A value interpolated in the JSX: a number of the metadata, or the text
    that stands in for [null]. *)
Inductive Shown := Num (z : Z) | Txt (s : string).

(** [x || fallback] on strings: the empty string is falsy. *)
Definition or_else (x fallback : string) : string :=
  match x with
  | EmptyString => fallback
  | String _ _ => x
  end.

(** The card of the main picker: the image, its [alt] text, the English
    title when there is a non-empty one, the title, the line of type,
    episodes and score, and the status of the entry of the export. *)
Record Card := mkCard {
  card_src : option string;
  card_alt : string;
  card_heading : option string;
  card_title : string;
  card_type : string;
  card_episodes : Shown;
  card_score : Shown;
  card_status : string
}.

Inductive MainPicker :=
| ShowCard (c : Card)
| LoadingAnimeData
| NoMoreAnime.

Definition main_picker (a : App) : MainPicker :=
  match animeList a !! currentIndex a, jikanData a with
  | Some currentAnime, Some data =>
      ShowCard
        (mkCard (JikanAnime.large_image_url data) (JikanAnime.title data)
           (match JikanAnime.title_english data with
            | Some (String c s) => Some (String c s)
            | Some EmptyString | None => None
            end)
           (JikanAnime.title data)
           (default "Unknown" (JikanAnime.type data))
           (from_option Num (Txt "?") (JikanAnime.episodes data))
           (from_option Num (Txt "N/A") (JikanAnime.score data))
           (or_else (AnimeXml.status currentAnime) "N/A"))
  | Some _, None => LoadingAnimeData
  | None, _ => NoMoreAnime
  end.

(** The progress line: the counter [currentIndex + 1] of [length], and the
    identifier of the current entry. *)
Inductive Progress := Counter (position total : nat) | LoadingList.

Definition progress_info (a : App) : Progress * string :=
  (if 0 <? length (animeList a)
   then Counter (currentIndex a + 1) (length (animeList a))
   else LoadingList,
   match animeList a !! currentIndex a with
   | Some currentAnime => "ID: " +:+ AnimeXml.id currentAnime
   | None => ""
   end).

(** The calls of a run made after the first [n]. *)
Definition calls_after (n : nat) (w : World) : list Call := drop n (calls w).

Definition is_foreground (c : Call) : bool :=
  match call_origin c with
  | Foreground => true
  | Prefetch _ _ => false
  end.

(** The answer to the foreground call for the second title is a failure,
    while the card of the first title is still up. *)
Definition failed_world : World :=
  default init (step (Response 2 Rejected) overlap_world).

(** Both titles are decided before the timer of the first pass fires; the
    pass then makes its call, the user clicks once more and the call
    fails. *)
Definition decides_both : list Event :=
  [Click liked; Response 2 (Ok200 trigun_data); Tick 1000; TimerFired 1;
   Click disliked].

Definition finished_world : World := default init (run decides_both resolved_world).

Definition after_the_end : list Event :=
  [TimerFired 0; Click liked; Response 1 (NotOk 500)].

Definition idle_world : World := default init (run after_the_end finished_world).

(** ** The look-ahead *)

(** [id] is the identifier of an entry of [l] at most three positions
    ahead of the cursor [c]. *)
Definition within_reach (l : list AnimeXml.t) (c : nat) (id : string) : Prop :=
  ∃ i e, i < c + 4 ∧ l !! i = Some e ∧ AnimeXml.id e = id.

(** The pass of a pending task walks the list [l] from a cursor that is
    not past [c], and its entry is the one at its index. *)
Definition frame_on (l : list AnimeXml.t) (c : nat) (t : Task) : Prop :=
  match t with
  | PfSleep f _ | PfFetch f =>
      lst f = l ∧ cur f ≤ c ∧ pos f < cur f + 4 ∧ lst f !! pos f = Some (next f)
  | LoadXml | FgFetch _ | Cooldown _ => True
  end.

Definition look_ahead (w : World) : Prop :=
  Forall (frame_on (animeList (app w)) (currentIndex (app w))) (pending w)
  ∧ Forall (λ c, within_reach (animeList (app w)) (currentIndex (app w)) (call_id c))
      (calls w).

(** ** The list that the page starts with *)

(** The pending loads of the XML text by the first effect. *)
Definition load_of (t : Task) : option unit :=
  match t with
  | LoadXml => Some ()
  | FgFetch _ | PfSleep _ _ | PfFetch _ | Cooldown _ => None
  end.

Definition loading (w : World) : list unit := omap load_of (pending w).

(** The load of the first effect is over, or it is the only one pending
    and no list has arrived yet. *)
Definition first_list (w : World) : Prop :=
  loading w = [] ∨ (loading w = [()] ∧ animeList (app w) = []).

(** A click is made and time passes before the list arrives. *)
Definition early_click : list Event :=
  [Tick 5; Click liked; XmlLoaded 0 [bebop; trigun; evangelion] false high_draws;
   Response 1 (Ok200 bebop_data); Tick 1000; TimerFired 0; Click liked].

Definition early_click_world : World := default init (run early_click init).

(** ** The XML document of an export

    [DOMParser.parseFromString] returns a document; the code reads it with
    [getElementsByTagName] and [textContent] only.  A document is a tree of
    elements and texts, and the document node is the parent of the root
    element. *)

#[warnings="-register-all"] Inductive Node :=
| Element (tagName : string) (childNodes : list Node)
| Text (data : string).

(** The nodes below [n], in tree order. *)
Fixpoint descendants (n : Node) : list Node :=
  match n with
  | Element _ cs => flat_map (λ c, c :: descendants c) cs
  | Text _ => []
  end.

Definition has_tag (tag : string) (n : Node) : bool :=
  match n with
  | Element t _ => String.eqb t tag
  | Text _ => false
  end.

(** [n.getElementsByTagName(tag)]: the elements below [n] with that tag,
    in tree order. *)
Definition getElementsByTagName (tag : string) (n : Node) : list Node :=
  List.filter (has_tag tag) (descendants n).

(** [n.textContent]: the texts below [n] put together. *)
Fixpoint textContent (n : Node) : string :=
  match n with
  | Element _ cs => fold_right (λ c s, textContent c +:+ s) "" cs
  | Text d => d
  end.

(** [el.getElementsByTagName(tag)[0]?.textContent || ""] *)
Definition text_of (tag : string) (el : Node) : string :=
  match getElementsByTagName tag el with
  | n :: _ => textContent n
  | [] => ""
  end.

(** The callback of [entries.map], and the list [parsed] of a document. *)
Definition entry_of (el : Node) : AnimeXml.t :=
  AnimeXml.mk (text_of "series_animedb_id" el) (text_of "series_title" el)
    (text_of "my_status" el).

Definition entries_of (xml : Node) : list AnimeXml.t :=
  entry_of <$> getElementsByTagName "anime" xml.

(** The shape of an export of MyAnimeList: under the root element, an
    [anime] element per title and other elements and white space; in an
    [anime] element, one element per field, holding a text, and white
    space. *)
Inductive Item := Field (tag value : string) | Space (s : string).

Definition item_node (i : Item) : Node :=
  match i with
  | Field t v => Element t [Text v]
  | Space s => Text s
  end.

Definition element_of (row : list Item + Item) : Node :=
  match row with
  | inl items => Element "anime" (item_node <$> items)
  | inr i => item_node i
  end.

Definition document_of (rows : list (list Item + Item)) : Node :=
  Element "#document" [Element "myanimelist" (element_of <$> rows)].

(** The value of the first field called [tag], or the empty string. *)
Fixpoint field_value (tag : string) (items : list Item) : string :=
  match items with
  | [] => ""
  | Field t v :: items' => if String.eqb t tag then v else field_value tag items'
  | Space _ :: items' => field_value tag items'
  end.

Definition row_entry (items : list Item) : AnimeXml.t :=
  AnimeXml.mk (field_value "series_animedb_id" items) (field_value "series_title" items)
    (field_value "my_status" items).

Definition titles_of (rows : list (list Item + Item)) : list AnimeXml.t :=
  omap (λ row, match row with inl items => Some (row_entry items) | inr _ => None end)
    rows.

Definition is_anime_field (i : Item) : bool :=
  match i with
  | Field t _ => String.eqb t "anime"
  | Space _ => false
  end.

(** No field and no element under the root is itself called [anime]. *)
Definition plain (rows : list (list Item + Item)) : bool :=
  forallb
    (λ row, match row with
            | inl items => forallb (λ i, negb (is_anime_field i)) items
            | inr i => negb (is_anime_field i)
            end) rows.

(** The export that lists [l], indented. *)
Definition items_of (a : AnimeXml.t) : list Item :=
  [Space " "; Field "series_animedb_id" (AnimeXml.id a); Space " ";
   Field "series_title" (AnimeXml.title a); Space " ";
   Field "my_status" (AnimeXml.status a); Space " "].

Definition export_of (l : list AnimeXml.t) : Node :=
  document_of (inr (Field "myinfo" "") :: ((λ a, inl (items_of a)) <$> l)).

(** ** The page: the component, the upload dialog and [localStorage] *)

Module File.
Record t := mk { name : string; text : string }.
End File.

(** [s.endsWith(suffix)] *)
Fixpoint endsWith (s suffix : string) : bool :=
  String.eqb s suffix
  || match s with
     | String _ s' => endsWith s' suffix
     | EmptyString => false
     end.

(** A string, or [null], used as a condition: [null] and the empty string
    are falsy. *)
Definition truthy (s : option string) : bool :=
  match s with
  | Some (String _ _) => true
  | Some EmptyString | None => false
  end.

Inductive Alert := NoEntriesFound | FailedToParse | NotAnXmlFile.

(** The state of the page: the component of the sections above with its
    two remaining [useState] cells, the item [userAnimeXml] of
    [localStorage], the value [savedXml] that the first effect read when
    the component was mounted, the files that a [FileReader] is reading,
    and the alerts shown so far. *)
Record Page := mkPage {
  world : World;
  isDragging : bool;
  showClearConfirm : bool;
  userAnimeXml : option string;
  savedXml : option string;
  reading : list File.t;
  alerts : list Alert
}.

Definition with_world (f : World → World) (p : Page) : Page :=
  mkPage (f (world p)) (isDragging p) (showClearConfirm p) (userAnimeXml p)
    (savedXml p) (reading p) (alerts p).

Definition setIsDragging (v : bool) (p : Page) : Page :=
  mkPage (world p) v (showClearConfirm p) (userAnimeXml p) (savedXml p)
    (reading p) (alerts p).

Definition setShowClearConfirm (v : bool) (p : Page) : Page :=
  mkPage (world p) (isDragging p) v (userAnimeXml p) (savedXml p)
    (reading p) (alerts p).

Definition alert (a : Alert) (p : Page) : Page :=
  mkPage (world p) (isDragging p) (showClearConfirm p) (userAnimeXml p)
    (savedXml p) (reading p) (alerts p ++ [a]).

(** The page as loaded: the component is mounted and its first effect has
    read the item of [localStorage]. *)
Definition mount (item : option string) : Page :=
  mkPage init false false item item [] [].

(** [handleFileUpload(file)] up to [reader.readAsText(file)]. *)
Definition readAsText (file : File.t) (p : Page) : Page :=
  mkPage (world p) (isDragging p) (showClearConfirm p) (userAnimeXml p)
    (savedXml p) (reading p ++ [file]) (alerts p).

Definition handleDragOver (p : Page) : Page := setIsDragging true p.

Definition handleDragLeave (p : Page) : Page := setIsDragging false p.

(** [file] is [e.dataTransfer.files[0]]. *)
Definition handleDrop (file : option File.t) (p : Page) : Page :=
  let p1 := setIsDragging false p in
  match file with
  | Some f => if endsWith (File.name f) ".xml" then readAsText f p1
              else alert NotAnXmlFile p1
  | None => alert NotAnXmlFile p1
  end.

(** The [onChange] of the file input; [file] is [e.target.files?.[0]]. *)
Definition onChange (file : option File.t) (p : Page) : Page :=
  match file with
  | Some f => readAsText f p
  | None => p
  end.

Definition handleClearData (p : Page) : Page := setShowClearConfirm true p.

Definition cancelClear (p : Page) : Page := setShowClearConfirm false p.

(** [localStorage.removeItem] and [window.location.reload()]. *)
Definition confirmClear (p : Page) : Page := mount None.

Section Browser.

(** [new DOMParser().parseFromString(str, "application/xml")] *)
Variable parseFromString : string → Node.

(** [reader.onload] for the file [f]: the body of the handler on the
    component is [handleFileUpload] above; the item is stored just before
    the state is reset. *)
Definition onload (f : File.t) (stored : bool) (rnd : nat → Draw) (p : Page) : Page :=
  let xmlContent := File.text f in
  let parsed := entries_of (parseFromString xmlContent) in
  match parsed with
  | [] => alert NoEntriesFound p
  | _ :: _ =>
      if stored then
        mkPage (handleFileUpload parsed true rnd (world p)) (isDragging p)
          (showClearConfirm p) (Some xmlContent) (savedXml p) (reading p) (alerts p)
      else alert FailedToParse (with_world (handleFileUpload parsed false rnd) p)
  end.

(** What happens on the page: an event of the component ([Tick], [Click],
    a timer or an answer of the metadata service), the end of the XML load
    of the first effect, a click on a button that is rendered, a drag, a
    drop or a choice of file in the upload dialog, the end of a file read,
    and a reload of the page. *)
Inductive PageEvent :=
| Run (e : Event)
| LoadResolved (k : nat) (rnd : nat → Draw)
| LoadFetched (k : nat) (str : string) (rnd : nat → Draw)
| LoadFailed (k : nat)
| ToggleUpload
| CloseUpload
| DragOver
| DragLeave
| Drop (file : option File.t)
| Browse (file : option File.t)
| FileRead (k : nat) (stored : bool) (rnd : nat → Draw)
| ClearData
| CancelClear
| ConfirmClear
| Reload.

Definition component_event (e : Event) : bool :=
  match e with
  | Tick _ | Click _ | TimerFired _ | Response _ _ => true
  | Upload _ _ _ | XmlLoaded _ _ _ _ | XmlFailed _ => false
  end.

Definition in_world (r : option World) (p : Page) : option Page :=
  w ← r; Some (with_world (λ _, w) p).

Definition page_step (e : PageEvent) (p : Page) : option Page :=
  let dialog := showUpload (app (world p)) in
  match e with
  | Run e => if component_event e then in_world (step e (world p)) p else None
  | LoadResolved k rnd =>
      match savedXml p with
      | Some (String c s) =>
          in_world
            (step (XmlLoaded k (entries_of (parseFromString (String c s))) true rnd)
               (world p)) p
      | Some EmptyString | None => None
      end
  | LoadFetched k str rnd =>
      if truthy (savedXml p) then None
      else in_world
             (step (XmlLoaded k (entries_of (parseFromString str)) false rnd) (world p)) p
  | LoadFailed k =>
      if truthy (savedXml p) then None else in_world (step (XmlFailed k) (world p)) p
  | ToggleUpload => Some (with_world (with_app (setShowUpload (negb dialog))) p)
  | CloseUpload =>
      if dialog then Some (with_world (with_app (setShowUpload false)) p) else None
  | DragOver => if dialog then Some (handleDragOver p) else None
  | DragLeave => if dialog then Some (handleDragLeave p) else None
  | Drop file => if dialog then Some (handleDrop file p) else None
  | Browse file => if dialog then Some (onChange file p) else None
  | FileRead k stored rnd =>
      f ← reading p !! k;
      Some (onload f stored rnd
              (mkPage (world p) (isDragging p) (showClearConfirm p) (userAnimeXml p)
                 (savedXml p) (delete k (reading p)) (alerts p)))
  | ClearData =>
      if dialog && truthy (userAnimeXml p) then Some (handleClearData p) else None
  | CancelClear => if showClearConfirm p then Some (cancelClear p) else None
  | ConfirmClear => if showClearConfirm p then Some (confirmClear p) else None
  | Reload => Some (mount (userAnimeXml p))
  end.

Fixpoint page_run (es : list PageEvent) (p : Page) : option Page :=
  match es with
  | [] => Some p
  | e :: es' => p' ← page_step e p; page_run es' p'
  end.

End Browser.

(** A parser for the examples: it knows one document, the export of the
    two titles, and takes every other text for a document without
    entries. *)
Definition two_titles_xml : string := "<myanimelist>two titles</myanimelist>".

Definition sample_parser (str : string) : Node :=
  if String.eqb str two_titles_xml then export_of two_titles
  else Element "#document" [Element "parsererror" [Text str]].

(** The stored text, if there is one, is a document with entries. *)
Definition has_entries (parseFromString : string → Node) (item : option string) : Prop :=
  ∀ x, item = Some x → entries_of (parseFromString x) ≠ [].

(** A first visit: the default list cannot be fetched, the user picks the
    export of the two titles with the file input, opens the dialog again
    once it is read and asks to clear the data. *)
Definition two_titles_file : File.t := File.mk "animelist_export" two_titles_xml.

Definition first_visit : list PageEvent :=
  [LoadFailed 0; Browse (Some two_titles_file); FileRead 0 true high_draws].

Definition uploaded_page : Page :=
  default (mount None) (page_run sample_parser first_visit (mount None)).

Definition asks_to_clear : list PageEvent := [ToggleUpload; ClearData].

Definition clearing_page : Page :=
  default (mount None) (page_run sample_parser asks_to_clear uploaded_page).

(** The page is loaded again after the upload, and the stored export
    arrives. *)
Definition reloaded_page : Page :=
  default (mount None) (page_run sample_parser (first_visit ++ [Reload]) (mount None)).

Definition restored_page : Page :=
  default (mount None) (page_step sample_parser (LoadResolved 0 zero_draws) reloaded_page).

(** The file is chosen and not read yet. *)
Definition chosen_page : Page :=
  default (mount None)
    (page_run sample_parser [LoadFailed 0; Browse (Some two_titles_file)] (mount None)).

(** The world with the upload prompt closed: what is left of a world when
    the flag [showUpload] is put aside. *)
Definition session (w : World) : World := with_app (setShowUpload false) w.

(** The event of the component that an event of the page comes down to,
    if it is one. *)
Definition component_part (parseFromString : string → Node) (e : PageEvent) (p : Page)
    : option Event :=
  match e with
  | Run e => Some e
  | LoadResolved k rnd =>
      s ← savedXml p; Some (XmlLoaded k (entries_of (parseFromString s)) true rnd)
  | LoadFetched k str rnd =>
      Some (XmlLoaded k (entries_of (parseFromString str)) false rnd)
  | LoadFailed k => Some (XmlFailed k)
  | FileRead k stored rnd =>
      f ← reading p !! k;
      Some (Upload (entries_of (parseFromString (File.text f))) stored rnd)
  | _ => None
  end.



(** * Properties *)

(** ** [shuffleArray] *)

Section shuffle.
Context {T : Type}.
Implicit Types (arr l : list T) (rnd : nat → Draw).

Lemma random_index_bound (r : Draw) (i : nat) : random_index r (S i) ≤ i.
Proof.
  unfold random_index. apply Nat.lt_succ_r, Nat.Div0.div_lt_upper_bound. nia.
Qed.

Lemma insert_cons_perm l j x y :
  l !! j = Some y → y :: <[j := x]> l ≡ₚ x :: l.
Proof.
  revert j. induction l as [|z l IH]; intros [|j] Hj; simplify_eq/=.
  - apply perm_swap.
  - rewrite perm_swap, (IH _ Hj). apply perm_swap.
Qed.

Lemma swap_perm i j arr : swap i j arr ≡ₚ arr.
Proof.
  unfold swap. destruct (arr !! i) as [x|] eqn:Hi; [|done].
  destruct (arr !! j) as [y|] eqn:Hj; [|done].
  revert i j Hi Hj. induction arr as [|z arr IH]; intros [|i] [|j] Hi Hj; simplify_eq/=.
  - done.
  - by apply insert_cons_perm.
  - by apply insert_cons_perm.
  - by rewrite IH.
Qed.

(** Within the bounds a swap writes both cells, as the destructuring
    assignment does. *)
Lemma swap_in_bounds i j arr :
  i < length arr → j < length arr →
  ∃ x y, arr !! i = Some x ∧ arr !! j = Some y ∧
         swap i j arr = <[j := x]> (<[i := y]> arr).
Proof.
  intros [x Hx]%lookup_lt_is_Some_2 [y Hy]%lookup_lt_is_Some_2.
  exists x, y. unfold swap. by rewrite Hx, Hy.
Qed.

Lemma shuffle_loop_perm rnd k i arr : shuffle_loop rnd k i arr ≡ₚ arr.
Proof.
  revert k arr. induction i as [|i IH]; intros k arr; simpl; [done|].
  by rewrite IH, swap_perm.
Qed.

Lemma shuffle_loop_length rnd k i arr :
  length (shuffle_loop rnd k i arr) = length arr.
Proof. by rewrite shuffle_loop_perm. Qed.

(** Every iteration of the loop finds both of its indices inside the
    array and writes both cells. *)
Lemma shuffle_loop_in_bounds rnd k i arr :
  S i < length arr →
  ∃ x y, arr !! S i = Some x ∧ arr !! random_index (rnd k) (S (S i)) = Some y ∧
    shuffle_loop rnd k (S i) arr =
      shuffle_loop rnd (S k) i
        (<[random_index (rnd k) (S (S i)) := x]> (<[S i := y]> arr))
    ∧ i < length (<[random_index (rnd k) (S (S i)) := x]> (<[S i := y]> arr)).
Proof.
  intros Hi. pose proof (random_index_bound (rnd k) (S i)) as Hj.
  destruct (swap_in_bounds (S i) (random_index (rnd k) (S (S i))) arr)
    as (x & y & Hx & Hy & Hswap); [lia..|].
  exists x, y. split_and!; [done|done| |].
  - simpl. by rewrite Hswap.
  - rewrite !length_insert. lia.
Qed.

Lemma shuffle_perm rnd arr : shuffle rnd arr ≡ₚ arr.
Proof. apply shuffle_loop_perm. Qed.

Lemma shuffle_length rnd arr : length (shuffle rnd arr) = length arr.
Proof. apply shuffle_loop_length. Qed.

Lemma shuffle_loop_at_insert rnd k i (a : nat) arr (h : gmap nat (list T)) :
  shuffle_loop_at rnd k i a (<[a := arr]> h) = <[a := shuffle_loop rnd k i arr]> h.
Proof.
  revert k arr. induction i as [|i IH]; intros k arr; simpl; [done|].
  by rewrite alter_insert_eq, IH.
Qed.

Lemma shuffleArray_spec rnd (array : nat) (h : gmap nat (list T)) src :
  h !! array = Some src →
  shuffleArray rnd array h =
    (fresh (dom h), <[fresh (dom h) := shuffle rnd src]> h).
Proof.
  intros Hsrc. unfold shuffleArray. rewrite Hsrc. simpl.
  by rewrite shuffle_loop_at_insert.
Qed.

End shuffle.

Lemma effect_animeList w : animeList (app (effect w)) = animeList (app w).
Proof.
  unfold effect, prefetchNext, prefetch_from, loadAnimeData.
  repeat case_match; done.
Qed.

(** C9. [shuffleArray] returns a new array that is a permutation of its
    argument, of the same length, and leaves the argument array (and every
    other array of the store) as it was; the list the session walks is
    therefore a permutation of the entries parsed from the export, both
    after the initial load and after an upload, in an order fixed by the
    random draws, which need not be the order of the export. *)
Theorem shuffleArray_is_a_fresh_permutation
    {T : Type} (rnd : nat → Draw) (array : nat) (h : gmap nat (list T)) (src : list T) :
  h !! array = Some src →
  (∃ out, (shuffleArray rnd array h).2 !! (shuffleArray rnd array h).1 = Some out
          ∧ out = shuffle rnd src ∧ length out = length src ∧ out ≡ₚ src)
  ∧ (shuffleArray rnd array h).1 ≠ array
  ∧ (shuffleArray rnd array h).2 !! array = Some src
  ∧ (∀ a, a ≠ (shuffleArray rnd array h).1 → (shuffleArray rnd array h).2 !! a = h !! a)
  ∧ (∀ parsed saved w, animeList (app (xml_loaded parsed saved rnd w)) ≡ₚ parsed)
  ∧ (∀ e parsed w,
       animeList (app (handleFileUpload (e :: parsed) true rnd w)) ≡ₚ e :: parsed)
  ∧ (∀ x y : T, shuffle zero_draws [x; y] = [y; x]).
Proof.
  intros Hsrc. rewrite (shuffleArray_spec _ _ _ _ Hsrc). simpl.
  assert (fresh (dom h) ≠ array) as Hne.
  { intros Heq. apply (is_fresh (dom h)). rewrite Heq. apply elem_of_dom. eauto. }
  split_and!.
  - exists (shuffle rnd src). rewrite lookup_insert_eq.
    split_and!; [done|done|apply shuffle_length|apply shuffle_perm].
  - done.
  - by rewrite lookup_insert_ne.
  - intros a Ha. by rewrite lookup_insert_ne.
  - intros parsed saved w. unfold xml_loaded. rewrite effect_animeList.
    destruct saved; simpl; apply shuffle_perm.
  - intros e parsed w. unfold handleFileUpload. rewrite effect_animeList.
    simpl. apply shuffle_perm.
  - done.
Qed.

Lemma shuffleArray_is_a_fresh_permutation_witness :
  (∃ out, (shuffleArray zero_draws 0 {[0 := [bebop; trigun; untitled]]}).2
            !! (shuffleArray zero_draws 0 {[0 := [bebop; trigun; untitled]]}).1 = Some out
          ∧ out ≡ₚ [bebop; trigun; untitled])
  ∧ (shuffleArray zero_draws 0 {[0 := [bebop; trigun; untitled]]}).2 !! 0
    = Some [bebop; trigun; untitled].
Proof.
  destruct (shuffleArray_is_a_fresh_permutation zero_draws 0
              {[0 := [bebop; trigun; untitled]]} [bebop; trigun; untitled])
    as ((out & Hout & _ & _ & Hperm) & _ & Hsame & _).
  - reflexivity.
  - split; [exists out; split; assumption | assumption].
Defined.

(** ** Runs and invariants *)

Lemma run_app es1 es2 w :
  run (es1 ++ es2) w = w' ← run es1 w; run es2 w'.
Proof.
  revert w. induction es1 as [|e es1 IH]; intros w; simpl; [done|].
  destruct (step e w); simpl; [apply IH|done].
Qed.

Lemma run_invariant (P : World → Prop) :
  (∀ e w w', P w → step e w = Some w' → P w') →
  ∀ es w w', P w → run es w = Some w' → P w'.
Proof.
  intros Hstep es. induction es as [|e es IH]; intros w w' Hw Hrun; simpl in Hrun.
  - by simplify_eq.
  - destruct (step e w) as [w1|] eqn:He; [|done]. eauto.
Qed.

Lemma reachable_invariant (P : World → Prop) :
  P init →
  (∀ e w w', P w → step e w = Some w' → P w') →
  ∀ w, reachable w → P w.
Proof. intros Hinit Hstep w [es Hes]. by eapply run_invariant. Qed.

(** Removing one task from a list, seen through a partial projection. *)
Lemma omap_delete_None {A B} (g : A → option B) (l : list A) k t :
  l !! k = Some t → g t = None → omap g (delete k l) = omap g l.
Proof.
  revert k. induction l as [|a l IH]; intros [|k] Hk Hg; simplify_eq/=.
  - by rewrite Hg.
  - by rewrite (IH _ Hk Hg).
Qed.

Lemma omap_delete_Some {A B} (g : A → option B) (l : list A) k t b :
  l !! k = Some t → g t = Some b →
  ∃ i, omap g l !! i = Some b ∧ omap g (delete k l) = delete i (omap g l).
Proof.
  revert k. induction l as [|a l IH]; intros [|k] Hk Hg; simplify_eq/=.
  - exists 0. by rewrite Hg.
  - destruct (IH _ Hk Hg) as (i & Hi & Hdel).
    destruct (g a); [exists (S i)|exists i]; simpl; by rewrite ?Hdel.
Qed.

Lemma filter_none {A} (P : A → Prop) `{!∀ x, Decision (P x)} (l : list A) :
  Forall (λ x, ¬ P x) l → filter P l = [].
Proof.
  induction 1 as [|x l Hx _ IH]; [done|]. by rewrite filter_cons_False.
Qed.

(** *** What each piece of code adds to the world *)

Lemma loadAnimeData_eq id w :
  loadAnimeData id w =
    mkWorld
      (match cacheRef (app w) !! id with
       | Some data => setJikanData (Some data) (app w)
       | None => app w
       end)
      (now w) (pending w ++ load_tasks id (cacheRef (app w)))
      (calls w ++ load_calls id (cacheRef (app w)) (now w)) (passes w).
Proof.
  unfold loadAnimeData, load_tasks, load_calls. destruct w as [a t ps cs n]; simpl.
  destruct (cacheRef a !! id); [|destruct (parseInt id)];
    unfold with_app, spawn, record_call; simpl; by rewrite ?app_nil_r.
Qed.

Lemma prefetch_from_eq p l c i w :
  prefetch_from p l c i w =
    mkWorld (app w) (now w)
      (pending w ++ scan_tasks p l c i (cacheRef (app w)) (now w))
      (calls w) (passes w).
Proof.
  unfold prefetch_from, scan_tasks. destruct w as [a t ps cs n]; simpl.
  destruct (prefetch_scan _ _ _ _) as [[[j nxt] m]|];
    unfold spawn; simpl; by rewrite ?app_nil_r.
Qed.

Lemma effect_eq w :
  effect w =
    mkWorld (setJikanData (effect_jikanData (app w)) (app w)) (now w)
      (pending w ++ effect_tasks w) (calls w ++ effect_calls w)
      (match animeList (app w) !! currentIndex (app w) with
       | None => passes w
       | Some _ => S (passes w)
       end).
Proof.
  unfold effect, effect_tasks, effect_calls, effect_jikanData, prefetchNext.
  destruct w as [a t ps cs n]; simpl.
  destruct (animeList a !! currentIndex a) as [anime|] eqn:Hcur.
  - rewrite prefetch_from_eq, loadAnimeData_eq; simpl.
    destruct a; simpl in *.
    destruct (_ !! AnimeXml.id anime); simpl; rewrite ?Hcur; by rewrite <-?(assoc_L (++)).
  - unfold with_app; simpl. by rewrite !app_nil_r.
Qed.

Lemma handleChoice_cooldown c w : isCooldown (app w) = true → handleChoice c w = w.
Proof. unfold handleChoice. by intros ->. Qed.

Lemma handleChoice_reject c w :
  isCooldown (app w) = false →
  animeList (app w) !! currentIndex (app w) = None ∨ jikanData (app w) = None →
  handleChoice c w =
    mkWorld (setIsCooldown true (app w)) (now w)
      (pending w ++ [Cooldown (now w + 1000)]) (calls w) (passes w).
Proof.
  unfold handleChoice. intros -> [Hnone|Hnone]; rewrite Hnone; [done|].
  by destruct (animeList _ !! _).
Qed.

Lemma handleChoice_accept c w anime data :
  isCooldown (app w) = false →
  animeList (app w) !! currentIndex (app w) = Some anime →
  jikanData (app w) = Some data →
  handleChoice c w =
    effect
      (mkWorld
         (mkApp (animeList (app w)) (currentIndex (app w) + 1) (Some data)
            (<[AnimeXml.id anime := c]> (choices (app w)))
            (match c with
             | liked => likedShows (app w) ++ [data]
             | disliked => likedShows (app w)
             end)
            true (showUpload (app w)) (cacheRef (app w)))
         (now w) (pending w ++ [Cooldown (now w + 1000)]) (calls w) (passes w)).
Proof.
  unfold handleChoice. intros Hc Hcur Hdata.
  destruct w as [a t ps cs n]; destruct a; simpl in *; subst.
  rewrite Hcur. destruct c; reflexivity.
Qed.

(** The three ways a click is handled. *)
Lemma handleChoice_cases c w :
  (isCooldown (app w) = true ∧ handleChoice c w = w)
  ∨ (isCooldown (app w) = false
     ∧ (animeList (app w) !! currentIndex (app w) = None ∨ jikanData (app w) = None)
     ∧ handleChoice c w =
         mkWorld (setIsCooldown true (app w)) (now w)
           (pending w ++ [Cooldown (now w + 1000)]) (calls w) (passes w))
  ∨ (∃ anime data,
       isCooldown (app w) = false
       ∧ animeList (app w) !! currentIndex (app w) = Some anime
       ∧ jikanData (app w) = Some data
       ∧ handleChoice c w =
           effect
             (mkWorld
                (mkApp (animeList (app w)) (currentIndex (app w) + 1) (Some data)
                   (<[AnimeXml.id anime := c]> (choices (app w)))
                   (match c with
                    | liked => likedShows (app w) ++ [data]
                    | disliked => likedShows (app w)
                    end)
                   true (showUpload (app w)) (cacheRef (app w)))
                (now w) (pending w ++ [Cooldown (now w + 1000)]) (calls w) (passes w))).
Proof.
  destruct (isCooldown (app w)) eqn:Hcool.
  - left. split; [done|by apply handleChoice_cooldown].
  - right. destruct (animeList (app w) !! currentIndex (app w)) as [anime|] eqn:Hcur.
    + destruct (jikanData (app w)) as [data|] eqn:Hdata.
      * right. exists anime, data. split_and!; [done..|by apply handleChoice_accept].
      * left. split_and!; [done|by right|apply handleChoice_reject; auto].
    + left. split_and!; [done|by left|apply handleChoice_reject; auto].
Qed.

Lemma handleFileUpload_cases parsed stored rnd w :
  handleFileUpload parsed stored rnd w = w
  ∨ (∃ e l, parsed = e :: l ∧ stored = true ∧
       handleFileUpload parsed stored rnd w =
         effect
           (mkWorld
              (mkApp (shuffle rnd parsed) 0 None ∅ [] (isCooldown (app w)) false ∅)
              (now w) (pending w) (calls w) (passes w))).
Proof.
  destruct parsed as [|e l]; [by left|]. destruct stored; [|by left].
  right. by exists e, l.
Qed.

(** *** The cooldown flag and its timer *)

Lemma cooldown_of_load id cache : omap cooldown_of (load_tasks id cache) = [].
Proof. unfold load_tasks. by repeat case_match. Qed.

Lemma cooldown_of_scan p l c i cache t : omap cooldown_of (scan_tasks p l c i cache t) = [].
Proof. unfold scan_tasks. by repeat case_match. Qed.

Lemma cooldown_timers_effect w : cooldown_timers (effect w) = cooldown_timers w.
Proof.
  unfold cooldown_timers. rewrite effect_eq; simpl. unfold effect_tasks.
  rewrite omap_app. destruct (animeList _ !! _); simpl.
  - by rewrite omap_app, cooldown_of_load, cooldown_of_scan, app_nil_r.
  - by rewrite app_nil_r.
Qed.

Lemma isCooldown_effect w : isCooldown (app (effect w)) = isCooldown (app w).
Proof. by rewrite effect_eq. Qed.

Lemma cooldown_consistent_step e w w' :
  cooldown_consistent w → step e w = Some w' → cooldown_consistent w'.
Proof.
  unfold cooldown_consistent. intros Hw Hstep. step_inv Hstep.
  - done.
  - destruct (handleChoice_cases choice w) as [[_ ->]|[(Hc & _ & ->)|(? & ? & Hc & _ & _ & ->)]];
      [done|..]; rewrite ?cooldown_timers_effect, ?isCooldown_effect;
      rewrite Hc in Hw; unfold cooldown_timers in *; simpl;
      rewrite omap_app, length_app; simpl; lia.
  - destruct (handleFileUpload_cases parsed stored rnd w) as [->|(? & ? & _ & _ & ->)];
      [done|]. by rewrite cooldown_timers_effect, isCooldown_effect.
  - unfold xml_loaded. rewrite cooldown_timers_effect, isCooldown_effect.
    unfold cooldown_timers in *.
    destruct saved; simpl; by erewrite omap_delete_None by done.
  - unfold cooldown_timers in *; simpl. by erewrite omap_delete_None by done.
  - unfold cooldown_timers in *; simpl. rewrite omap_app; simpl.
    erewrite omap_delete_None by done. by rewrite app_nil_r.
  - unfold cooldown_timers in *; simpl.
    destruct (omap_delete_Some cooldown_of _ _ _ _ Hk eq_refl) as (i & Hi & ->).
    rewrite length_delete by eauto. apply lookup_lt_Some in Hi.
    destruct (isCooldown (app w)); lia.
  - unfold cooldown_timers in *. unfold loadAnimeData_resume.
    destruct r; simpl; by erewrite omap_delete_None by done.
  - unfold cooldown_timers in *. unfold prefetch_resume. rewrite prefetch_from_eq; simpl.
    rewrite omap_app, cooldown_of_scan, app_nil_r.
    destruct r; simpl; by erewrite omap_delete_None by done.
Qed.

Lemma reachable_cooldown_consistent w : reachable w → cooldown_consistent w.
Proof.
  apply reachable_invariant; [done|]. intros ????. by eapply cooldown_consistent_step.
Qed.

Lemma cooling_step T e w w' : cooling T w → step e w = Some w' → cooling T w'.
Proof.
  intros [[Hflag Hall]|Hlate] Hstep; unfold cooling.
  2:{ right. step_inv Hstep; simpl; try lia.
      - destruct (handleChoice_cases choice w)
          as [[_ ->]|[(_ & _ & ->)|(? & ? & _ & _ & _ & ->)]];
          rewrite ?effect_eq; simpl; lia.
      - destruct (handleFileUpload_cases parsed stored rnd w)
          as [->|(? & ? & _ & _ & ->)]; rewrite ?effect_eq; simpl; lia.
      - unfold xml_loaded. rewrite effect_eq. by destruct saved.
      - unfold loadAnimeData_resume. by destruct r.
      - unfold prefetch_resume. rewrite prefetch_from_eq. by destruct r. }
  step_inv Hstep.
  - left. done.
  - left. by rewrite handleChoice_cooldown.
  - left. destruct (handleFileUpload_cases parsed stored rnd w)
      as [->|(? & ? & _ & _ & ->)]; [done|].
    by rewrite cooldown_timers_effect, isCooldown_effect.
  - left. unfold xml_loaded. rewrite cooldown_timers_effect, isCooldown_effect.
    unfold cooldown_timers in *.
    destruct saved; simpl; by erewrite omap_delete_None by done.
  - left. unfold cooldown_timers in *; simpl. by erewrite omap_delete_None by done.
  - left. unfold cooldown_timers in *; simpl. rewrite omap_app; simpl.
    erewrite omap_delete_None by done. by rewrite app_nil_r.
  - right. unfold cooldown_timers in Hall. rewrite Forall_forall in Hall.
    simpl. etrans; [apply (Hall deadline)|done].
    apply list_elem_of_omap. exists (Cooldown deadline).
    split; [by eapply list_elem_of_lookup_2|done].
  - left. unfold cooldown_timers in *. unfold loadAnimeData_resume.
    destruct r; simpl; by erewrite omap_delete_None by done.
  - left. unfold cooldown_timers in *. unfold prefetch_resume.
    rewrite prefetch_from_eq; simpl.
    rewrite omap_app, cooldown_of_scan, app_nil_r.
    destruct r; simpl; by erewrite omap_delete_None by done.
Qed.

(** For 1000 ms after a click that was let through, the flag is up and
    every click is dropped. *)
Lemma cooldown_window c w es w' :
  cooldown_consistent w →
  isCooldown (app w) = false →
  run es (handleChoice c w) = Some w' →
  now w' < now w + 1000 →
  isCooldown (app w') = true ∧ ∀ c', handleChoice c' w' = w'.
Proof.
  intros Hk Hc Hrun Hnow.
  assert (cooldown_timers w = []) as Hnil.
  { unfold cooldown_consistent in Hk. rewrite Hc in Hk. by apply nil_length_inv. }
  assert (cooling (now w + 1000) (handleChoice c w)) as Hcool.
  { left. destruct (handleChoice_cases c w)
      as [[? _]|[(_ & _ & ->)|(? & ? & _ & _ & _ & ->)]]; [congruence|..];
      rewrite ?cooldown_timers_effect, ?isCooldown_effect;
      unfold cooldown_timers in *; simpl; rewrite omap_app, Hnil; simpl;
      (split; [done|by apply Forall_singleton]). }
  assert (cooling (now w + 1000) w') as [[Hflag _]|?]; [|split|lia].
  - eapply (run_invariant (cooling (now w + 1000))); [|done..].
    intros ????. by apply cooling_step.
  - done.
  - intros c'. by apply handleChoice_cooldown.
Qed.

(** ** Decisions *)

Lemma unresolved_run : run unresolved init = Some unresolved_world.
Proof. vm_compute. reflexivity. Qed.

(** C5: the code breaks the claim.  The effect sets [jikanData] when the
    entry at the cursor is in the cache and clears it when there is no
    entry at the cursor, but leaves it as it is when the cursor moves to
    an entry that is not in the cache.  So a click is taken as a decision
    on the second title while no metadata has been resolved for it (both
    calls for it are unanswered), and the metadata that is appended to the
    liked list is that of the first title. *)
Lemma decision_taken_on_unresolved_entry :
  run unresolved init = Some unresolved_world
  ∧ isCooldown (app unresolved_world) = false
  ∧ animeList (app unresolved_world) !! currentIndex (app unresolved_world)
    = Some trigun
  ∧ cacheRef (app unresolved_world) !! "6" = None
  ∧ in_flight "6" unresolved_world = 2
  ∧ jikanData (app unresolved_world) = Some bebop_data
  ∧ step (Click liked) unresolved_world = Some liked_twice_world
  ∧ currentIndex (app liked_twice_world) = 2
  ∧ choices (app liked_twice_world) !! "6" = Some liked
  ∧ likedShows (app liked_twice_world) = [bebop_data; bebop_data].
Proof. split_and!; [exact unresolved_run|by vm_compute..]. Qed.

(** X22: [handleChoice] as it is written.  A click changes the cursor,
    the choices or the liked list only when the cooldown flag is down, the
    list has an entry at the cursor and [jikanData] is not null, whichever
    entry it was resolved for.  Such a click is recorded under the
    identifier of the entry at the cursor, appends [jikanData] to the
    liked list exactly when it is [liked], moves the cursor by one and
    raises the flag; a timer due 1000 ms later is the only cooldown timer
    pending, and until that time the flag stays up and every further click
    leaves the world as it is.  While the flag is up a click changes
    nothing. *)
Theorem handleChoice_decision (c : Choice) (w : World) :
  reachable w →
  (currentIndex (app (handleChoice c w)) ≠ currentIndex (app w)
   ∨ choices (app (handleChoice c w)) ≠ choices (app w)
   ∨ likedShows (app (handleChoice c w)) ≠ likedShows (app w) →
   isCooldown (app w) = false
   ∧ is_Some (animeList (app w) !! currentIndex (app w))
   ∧ is_Some (jikanData (app w)))
  ∧ (∀ anime data,
       isCooldown (app w) = false →
       animeList (app w) !! currentIndex (app w) = Some anime →
       jikanData (app w) = Some data →
       choices (app (handleChoice c w)) = <[AnimeXml.id anime := c]> (choices (app w))
       ∧ likedShows (app (handleChoice c w)) =
           match c with
           | liked => likedShows (app w) ++ [data]
           | disliked => likedShows (app w)
           end
       ∧ currentIndex (app (handleChoice c w)) = currentIndex (app w) + 1
       ∧ isCooldown (app (handleChoice c w)) = true
       ∧ cooldown_timers (handleChoice c w) = [now w + 1000]
       ∧ ∀ es w', run es (handleChoice c w) = Some w' →
                  now w' < now w + 1000 →
                  isCooldown (app w') = true ∧ ∀ c', handleChoice c' w' = w')
  ∧ (isCooldown (app w) = true → handleChoice c w = w).
Proof.
  intros Hreach. pose proof (reachable_cooldown_consistent w Hreach) as Hk.
  split_and!.
  - intros Hchanged.
    destruct (handleChoice_cases c w)
      as [[_ Heq]|[(_ & _ & Heq)|(anime & data & Hc & Hcur & Hdata & _)]].
    + rewrite Heq in Hchanged. by destruct Hchanged as [?|[?|?]].
    + rewrite Heq in Hchanged. by destruct Hchanged as [?|[?|?]].
    + rewrite Hcur, Hdata. eauto.
  - intros anime data Hc Hcur Hdata.
    assert (cooldown_timers w = []) as Hnil.
    { unfold cooldown_consistent in Hk. rewrite Hc in Hk. by apply nil_length_inv. }
    split_and!.
    1-5: rewrite (handleChoice_accept c w anime data Hc Hcur Hdata).
    1-4: by rewrite effect_eq.
    + rewrite cooldown_timers_effect. unfold cooldown_timers in *; simpl.
      by rewrite omap_app, Hnil.
    + intros es w'. by apply cooldown_window.
  - apply handleChoice_cooldown.
Qed.

(** C10: the code breaks the claim, by the slip of the effect that also
    breaks C5: with the cooldown over and no metadata resolved for the
    entry at the cursor, [jikanData] still holds the metadata of the entry
    before it, and the click is not rejected; the cursor moves on and the
    choice is recorded. *)
Lemma click_on_unresolved_entry_is_taken :
  run unresolved init = Some unresolved_world
  ∧ isCooldown (app unresolved_world) = false
  ∧ currentIndex (app unresolved_world) = 1
  ∧ cacheRef (app unresolved_world) !! "6" = None
  ∧ JikanAnime.mal_id <$> jikanData (app unresolved_world) = Some 1%Z
  ∧ step (Click disliked) unresolved_world = Some second_decision_world
  ∧ currentIndex (app second_decision_world) = 2
  ∧ choices (app unresolved_world) !! "6" = None
  ∧ choices (app second_decision_world) !! "6" = Some disliked.
Proof. split_and!; [exact unresolved_run|by vm_compute..]. Qed.

(** X23: a click that arrives with the flag down while [jikanData] is
    null, or while the cursor is past the end of the list, is not taken as
    a decision: the cursor, the choices, the liked list, the cache and the
    call log stay as they are.  The flag is raised all the same and a
    timer due 1000 ms later is set, so that until then every click is
    dropped. *)
Theorem handleChoice_rejected_still_cools (c : Choice) (w : World) :
  reachable w →
  isCooldown (app w) = false →
  jikanData (app w) = None ∨ animeList (app w) !! currentIndex (app w) = None →
  currentIndex (app (handleChoice c w)) = currentIndex (app w)
  ∧ choices (app (handleChoice c w)) = choices (app w)
  ∧ likedShows (app (handleChoice c w)) = likedShows (app w)
  ∧ cacheRef (app (handleChoice c w)) = cacheRef (app w)
  ∧ jikanData (app (handleChoice c w)) = jikanData (app w)
  ∧ calls (handleChoice c w) = calls w
  ∧ isCooldown (app (handleChoice c w)) = true
  ∧ pending (handleChoice c w) = pending w ++ [Cooldown (now w + 1000)]
  ∧ ∀ es w', run es (handleChoice c w) = Some w' →
             now w' < now w + 1000 →
             isCooldown (app w') = true ∧ ∀ c', handleChoice c' w' = w'.
Proof.
  intros Hreach Hc Hnone.
  pose proof (reachable_cooldown_consistent w Hreach) as Hk.
  split_and!.
  1-8: rewrite (handleChoice_reject c w Hc); [done|tauto].
  intros es w'. by apply cooldown_window.
Qed.

(** ** Loading a list *)

(** C8, as stated, fails: the handler cancels nothing, and the answer to
    a call made for the previous list, arriving after the upload, is
    written into the new cache and shown as the resolved metadata. *)
Lemma answer_for_previous_list_arrives_after_upload :
  run upload_while_resolving init = Some uploaded_world
  ∧ animeList (app uploaded_world) = [evangelion]
  ∧ cacheRef (app uploaded_world) = ∅
  ∧ jikanData (app uploaded_world) = None
  ∧ fetching <$> pending uploaded_world !! 0 = Some (Some "1")
  ∧ step (Response 0 (Ok200 bebop_data)) uploaded_world = Some late_answer_world
  ∧ animeList (app late_answer_world) = [evangelion]
  ∧ jikanData (app late_answer_world) = Some bebop_data
  ∧ cacheRef (app late_answer_world) !! "1" = Some bebop_data.
Proof. split_and!; by vm_compute. Qed.

(** C8, amended. When [handleFileUpload] has accepted a file (it holds at
    least one entry and was stored), the cache, the choices and the liked
    list are empty, the cursor is 0, the resolved metadata is absent and
    the list is the shuffled list of the file: the component state is that
    of a fresh session on the new list, whatever the state before the
    upload was (the cooldown flag apart, which the handler does not
    touch).  The tasks that were pending before the upload stay pending:
    the handler cancels no call and no timer. *)
Theorem handleFileUpload_full_reset
    (e : AnimeXml.t) (parsed : list AnimeXml.t) (rnd : nat → Draw) (w : World) :
  cacheRef (app (handleFileUpload (e :: parsed) true rnd w)) = ∅
  ∧ choices (app (handleFileUpload (e :: parsed) true rnd w)) = ∅
  ∧ likedShows (app (handleFileUpload (e :: parsed) true rnd w)) = []
  ∧ currentIndex (app (handleFileUpload (e :: parsed) true rnd w)) = 0
  ∧ jikanData (app (handleFileUpload (e :: parsed) true rnd w)) = None
  ∧ animeList (app (handleFileUpload (e :: parsed) true rnd w)) = shuffle rnd (e :: parsed)
  ∧ animeList (app (handleFileUpload (e :: parsed) true rnd w)) ≡ₚ e :: parsed
  ∧ app (handleFileUpload (e :: parsed) true rnd w) =
      mkApp (shuffle rnd (e :: parsed)) 0 None ∅ [] (isCooldown (app w)) false ∅
  ∧ pending w `prefix_of` pending (handleFileUpload (e :: parsed) true rnd w).
Proof.
  assert (app (handleFileUpload (e :: parsed) true rnd w) =
          mkApp (shuffle rnd (e :: parsed)) 0 None ∅ [] (isCooldown (app w)) false ∅)
    as ->.
  { unfold handleFileUpload. rewrite effect_eq.
    destruct w as [[] t ps cs n]; simpl.
    unfold effect_jikanData, setJikanData; simpl.
    by destruct (shuffle rnd (e :: parsed) !! 0). }
  split_and!; try done; [apply shuffle_perm|].
  unfold handleFileUpload. rewrite effect_eq. simpl. by eexists.
Qed.

Lemma resolved_world_run : run first_resolved init = Some resolved_world.
Proof. vm_compute. reflexivity. Defined.

Lemma handleChoice_decision_witness :
  currentIndex (app (handleChoice liked resolved_world)) = 1
  ∧ likedShows (app (handleChoice liked resolved_world)) = [bebop_data]
  ∧ choices (app (handleChoice liked resolved_world)) = {[ "1" := liked ]}
  ∧ cooldown_timers (handleChoice liked resolved_world) = [1000].
Proof.
  destruct (handleChoice_decision liked resolved_world) as (_ & Htaken & _).
  - exists first_resolved. exact resolved_world_run.
  - destruct (Htaken bebop bebop_data) as (Hchoices & Hliked & Hcur & _ & Htimers & _).
    + reflexivity.
    + reflexivity.
    + reflexivity.
    + split_and!; [exact Hcur|exact Hliked|exact Hchoices|exact Htimers].
Defined.

Lemma handleChoice_rejected_still_cools_witness :
  currentIndex (app (handleChoice liked init)) = 0
  ∧ isCooldown (app (handleChoice liked init)) = true
  ∧ pending (handleChoice liked init) = [LoadXml; Cooldown 1000].
Proof.
  destruct (handleChoice_rejected_still_cools liked init)
    as (Hcur & _ & _ & _ & _ & _ & Hflag & Hpending & _).
  - exists []. reflexivity.
  - reflexivity.
  - left. reflexivity.
  - split_and!; [exact Hcur|exact Hflag|exact Hpending].
Defined.

(** ** Identifiers that are not numbers *)

Lemma prefetch_scan_S l cache i fuel :
  prefetch_scan l cache i (S fuel) =
    match l !! i with
    | None => prefetch_scan l cache (S i) fuel
    | Some nxt =>
        match cache !! AnimeXml.id nxt with
        | Some _ => prefetch_scan l cache (S i) fuel
        | None =>
            match parseInt (AnimeXml.id nxt) with
            | None => prefetch_scan l cache (S i) fuel
            | Some n => Some (i, nxt, n)
            end
        end
    end.
Proof. reflexivity. Qed.

(** What [prefetch_scan] stops at. *)
Lemma prefetch_scan_Some l cache i fuel j nxt n :
  prefetch_scan l cache i fuel = Some (j, nxt, n) →
  i ≤ j < i + fuel ∧ l !! j = Some nxt
  ∧ cache !! AnimeXml.id nxt = None ∧ parseInt (AnimeXml.id nxt) = Some n.
Proof.
  revert i. induction fuel as [|fuel IH]; intros i; [done|].
  rewrite prefetch_scan_S. intros Hscan.
  destruct (l !! i) as [e|] eqn:Hi.
  - destruct (cache !! AnimeXml.id e) eqn:Hc.
    + apply IH in Hscan. intuition lia.
    + destruct (parseInt (AnimeXml.id e)) eqn:Hp.
      * simplify_eq. split_and!; [lia|lia|done..].
      * apply IH in Hscan. intuition lia.
  - apply IH in Hscan. intuition lia.
Qed.

Lemma numeric_load_tasks id cache : Forall numeric_task (load_tasks id cache).
Proof.
  unfold load_tasks. destruct (cache !! id); [done|].
  destruct (parseInt id) eqn:Hp; [|done]. apply Forall_singleton. simpl. eauto.
Qed.

Lemma numeric_load_calls id cache t : Forall numeric_call (load_calls id cache t).
Proof.
  unfold load_calls. destruct (cache !! id); [done|].
  destruct (parseInt id) eqn:Hp; [|done]. by apply Forall_singleton.
Qed.

Lemma numeric_scan_tasks p l c i cache t : Forall numeric_task (scan_tasks p l c i cache t).
Proof.
  unfold scan_tasks. destruct (prefetch_scan _ _ _ _) as [[[j nxt] n]|] eqn:Hscan; [|done].
  apply Forall_singleton. simpl. by apply prefetch_scan_Some in Hscan as (_ & _ & _ & ?).
Qed.

Lemma numeric_effect w : numeric_world w → numeric_world (effect w).
Proof.
  intros (Hts & Hcs & Hcache). rewrite effect_eq. unfold numeric_world; simpl.
  split_and!.
  - apply Forall_app. split; [done|]. unfold effect_tasks.
    destruct (_ !! _); [|done]. apply Forall_app.
    auto using numeric_load_tasks, numeric_scan_tasks.
  - apply Forall_app. split; [done|]. unfold effect_calls.
    destruct (_ !! _); auto using numeric_load_calls.
  - done.
Qed.

Lemma numeric_step e w w' : numeric_world w → step e w = Some w' → numeric_world w'.
Proof.
  intros Hw Hstep. pose proof Hw as (Hts & Hcs & Hcache). step_inv Hstep.
  - done.
  - destruct (handleChoice_cases choice w)
      as [[_ ->]|[(_ & _ & ->)|(? & ? & _ & _ & _ & ->)]]; [done|..].
    + split_and!; simpl; [|done..]. apply Forall_app. split; [done|].
      by apply Forall_singleton.
    + apply numeric_effect. split_and!; simpl; [|done..].
      apply Forall_app. split; [done|]. by apply Forall_singleton.
  - destruct (handleFileUpload_cases parsed stored rnd w)
      as [->|(? & ? & _ & _ & ->)]; [done|].
    apply numeric_effect. split_and!; simpl; [done..|].
    intros id. rewrite lookup_empty. by intros [? ?].
  - unfold xml_loaded. apply numeric_effect.
    destruct saved; (split_and!; simpl; [by apply Forall_delete|done..]).
  - split_and!; simpl; [by apply Forall_delete|done..].
  - split_and!; simpl; [|apply Forall_app; split; [done|]|done].
    + apply Forall_app. split; [by apply Forall_delete|].
      apply Forall_singleton. rewrite Forall_forall in Hts.
      apply (Hts (PfSleep f deadline)). by eapply list_elem_of_lookup_2.
    + apply Forall_singleton. rewrite Forall_forall in Hts.
      apply (Hts (PfSleep f deadline)). by eapply list_elem_of_lookup_2.
  - split_and!; simpl; [by apply Forall_delete|done..].
  - assert (is_Some (parseInt id)) as Hid.
    { rewrite Forall_forall in Hts. apply (Hts (FgFetch id)).
      by eapply list_elem_of_lookup_2. }
    unfold loadAnimeData_resume.
    destruct r; (split_and!; simpl; [by apply Forall_delete|done|]); [|done..].
    intros id'. destruct (decide (id = id')) as [<-|Hne]; [done|].
    rewrite lookup_insert_ne by done. apply Hcache.
  - assert (parseInt (AnimeXml.id (next f)) = Some (idNum f)) as Hid.
    { rewrite Forall_forall in Hts. apply (Hts (PfFetch f)).
      by eapply list_elem_of_lookup_2. }
    unfold prefetch_resume. rewrite prefetch_from_eq.
    destruct r; simpl; (split_and!; simpl;
      [apply Forall_app; split; [by apply Forall_delete|apply numeric_scan_tasks]
      |done|]); [|done..].
    intros id'. destruct (decide (AnimeXml.id (next f) = id')) as [<-|Hne]; [eauto|].
    rewrite lookup_insert_ne by done. apply Hcache.
Qed.

Lemma reachable_numeric w : reachable w → numeric_world w.
Proof.
  apply reachable_invariant; [|intros ????; by eapply numeric_step].
  split_and!; simpl.
  - by apply Forall_singleton.
  - done.
  - intros id. rewrite lookup_empty. by intros [? ?].
Qed.

(** C7. An identifier that [parseInt] does not read as a number is passed
    over by both paths.  The foreground path returns at once: it makes no
    call, starts no task and leaves the cache as it is.  The loop of the
    prefetch pass goes on to the next index
    within the same run, so that it neither waits 900 ms for the entry nor
    calls the service: what the loop stops at always has a number.  In
    every world the component can reach, such an identifier is not in the
    cache, no call was ever made for it, none is in flight and no pass is
    waiting on it. *)
Theorem non_numeric_identifier_is_skipped (w : World) (id : string) :
  reachable w →
  parseInt id = None →
  calls (loadAnimeData id w) = calls w
  ∧ pending (loadAnimeData id w) = pending w
  ∧ cacheRef (app (loadAnimeData id w)) = cacheRef (app w)
  ∧ (∀ l e cache i fuel,
       l !! i = Some e → AnimeXml.id e = id →
       prefetch_scan l cache i (S fuel) = prefetch_scan l cache (S i) fuel)
  ∧ (∀ l cache i fuel j nxt n,
       prefetch_scan l cache i fuel = Some (j, nxt, n) → AnimeXml.id nxt ≠ id)
  ∧ cacheRef (app w) !! id = None
  ∧ Forall (λ c, call_id c ≠ id) (calls w)
  ∧ in_flight id w = 0
  ∧ Forall (λ t, ∀ f d, t = PfSleep f d → AnimeXml.id (next f) ≠ id) (pending w).
Proof.
  intros Hreach Hnan. destruct (reachable_numeric w Hreach) as (Hts & Hcs & Hcache).
  assert (cacheRef (app w) !! id = None) as Hmiss.
  { apply eq_None_not_Some. intros [? Hp]%Hcache. congruence. }
  assert (loadAnimeData id w = w) as ->.
  { rewrite loadAnimeData_eq. unfold load_tasks, load_calls. rewrite Hmiss, Hnan.
    destruct w. simpl. by rewrite !app_nil_r. }
  split_and!; [done..| | | | | |].
  - intros l e cache i fuel Hi <-. rewrite prefetch_scan_S, Hi, Hnan.
    by destruct (cache !! AnimeXml.id e).
  - intros l cache i fuel j nxt n (_ & _ & _ & Hp)%prefetch_scan_Some <-. congruence.
  - done.
  - eapply Forall_impl; [exact Hcs|]. intros c Hc <-. unfold numeric_call in Hc. congruence.
  - unfold in_flight. apply length_zero_iff_nil, filter_none.
    eapply Forall_impl; [exact Hts|]. intros t Ht Hf.
    destruct t; simplify_eq/=; first [congruence | destruct Ht; congruence].
  - eapply Forall_impl; [exact Hts|]. intros t Ht f d -> <-. simpl in Ht. congruence.
Qed.

Lemma non_numeric_identifier_is_skipped_witness :
  calls (loadAnimeData "n/a" resolved_world) = calls resolved_world
  ∧ cacheRef (app resolved_world) !! "n/a" = None
  ∧ in_flight "n/a" resolved_world = 0.
Proof.
  destruct (non_numeric_identifier_is_skipped resolved_world "n/a")
    as (Hload & _ & _ & _ & _ & Hmiss & _ & Hflight & _).
  - exists first_resolved. exact resolved_world_run.
  - reflexivity.
  - split_and!; [exact Hload|exact Hmiss|exact Hflight].
Defined.

(** ** The cache *)

Lemma cacheRef_effect w : cacheRef (app (effect w)) = cacheRef (app w).
Proof. by rewrite effect_eq. Qed.

(** A step leaves the cache as it is, or writes the answer of a call
    under the identifier the call was made for, or is the reset of an
    upload. *)
Lemma step_cache e w w' :
  step e w = Some w' →
  cacheRef (app w') = cacheRef (app w)
  ∨ (∃ k t id data,
       e = Response k (Ok200 data) ∧ pending w !! k = Some t ∧ fetching t = Some id
       ∧ cacheRef (app w') = <[id := data]> (cacheRef (app w)))
  ∨ (resets e = true ∧ cacheRef (app w') = ∅).
Proof.
  intros Hstep. step_inv Hstep.
  - by left.
  - left. destruct (handleChoice_cases choice w)
      as [[_ ->]|[(_ & _ & ->)|(? & ? & _ & _ & _ & ->)]];
      by rewrite ?cacheRef_effect.
  - destruct (handleFileUpload_cases parsed stored rnd w)
      as [->|(? & ? & -> & -> & ->)]; [by left|].
    right; right. by rewrite cacheRef_effect.
  - left. unfold xml_loaded. rewrite cacheRef_effect. by destruct saved.
  - by left.
  - by left.
  - by left.
  - unfold loadAnimeData_resume. destruct r as [data| |]; [|by left..].
    right; left. by exists k, (FgFetch id), id, data.
  - unfold prefetch_resume. rewrite prefetch_from_eq.
    destruct r as [data| |]; [|by left..].
    right; left. by exists k, (PfFetch f), (AnimeXml.id (next f)), data.
Qed.

Lemma first_answer_run : run first_answer init = Some first_answer_world.
Proof. vm_compute. reflexivity. Qed.

(** C3, as stated, fails: with two calls for one identifier in flight, the
    second answer replaces the entry that the first answer wrote. *)
Lemma cache_entry_is_overwritten :
  run first_answer init = Some first_answer_world
  ∧ cacheRef (app first_answer_world) !! "6" = Some trigun_data
  ∧ step (Response 1 (Ok200 trigun_rescored)) first_answer_world = Some second_answer_world
  ∧ cacheRef (app second_answer_world) !! "6" = Some trigun_rescored
  ∧ trigun_rescored ≠ trigun_data.
Proof.
  split_and!; [exact first_answer_run|by vm_compute..|discriminate].
Qed.

(** C3, amended. Within a session (a run without the reset of an accepted
    upload) no entry leaves the cache: an identifier that has an entry
    keeps having one.  A step changes the cache only when the successful
    answer of a call arrives, and it then stores that answer under the
    identifier of the call whatever the cache held for it before; a click
    never touches the cache. *)
Theorem cache_entries_are_never_evicted (es : list Event) (w w' : World) :
  run es w = Some w' →
  Forall (λ e, resets e = false) es →
  (∀ id, is_Some (cacheRef (app w) !! id) → is_Some (cacheRef (app w') !! id))
  ∧ (∀ e w1 w2,
       step e w1 = Some w2 → resets e = false →
       cacheRef (app w2) = cacheRef (app w1)
       ∨ ∃ k t id data,
           e = Response k (Ok200 data) ∧ pending w1 !! k = Some t
           ∧ fetching t = Some id
           ∧ cacheRef (app w2) = <[id := data]> (cacheRef (app w1))
           ∧ cacheRef (app w2) !! id = Some data)
  ∧ (∀ c w1, cacheRef (app (handleChoice c w1)) = cacheRef (app w1)).
Proof.
  intros Hrun Hes. split_and!.
  - revert w Hrun. induction Hes as [|e es He _ IH]; intros w Hrun id Hid; simpl in Hrun.
    + by simplify_eq.
    + destruct (step e w) as [w1|] eqn:Hstep; [|done].
      apply (IH _ Hrun).
      destruct (step_cache _ _ _ Hstep)
        as [->|[(k & t & id' & data & _ & _ & _ & ->)|[? _]]]; [done| |congruence].
      destruct (decide (id' = id)) as [->|?].
      * rewrite lookup_insert_eq. eauto.
      * by rewrite lookup_insert_ne.
  - intros e w1 w2 Hstep He.
    destruct (step_cache _ _ _ Hstep)
      as [->|[(k & t & id' & data & -> & ? & ? & ->)|[? _]]]; [by left| |congruence].
    right. exists k, t, id', data. by rewrite lookup_insert_eq.
  - intros c w1. destruct (handleChoice_cases c w1)
      as [[_ ->]|[(_ & _ & ->)|(? & ? & _ & _ & _ & ->)]];
      by rewrite ?cacheRef_effect.
Qed.

Lemma cache_entries_are_never_evicted_witness :
  is_Some (cacheRef (app second_answer_world) !! "1").
Proof.
  destruct (cache_entries_are_never_evicted
              [Response 0 (Ok200 trigun_data); Response 1 (Ok200 trigun_rescored)]
              overlap_world second_answer_world) as (Hkept & _ & _).
  - vm_compute. reflexivity.
  - repeat constructor.
  - apply Hkept. vm_compute. eauto.
Defined.

(** ** Calls in flight *)

Lemma in_flight_spawn id t w :
  in_flight id (spawn t w) =
    in_flight id w + (if decide (fetching t = Some id) then 1 else 0).
Proof.
  unfold in_flight, spawn; simpl. rewrite filter_app, length_app. f_equal.
  rewrite filter_cons, filter_nil. by case_decide.
Qed.

Lemma overlap_run : run overlap init = Some overlap_world.
Proof. vm_compute. reflexivity. Qed.

(** C1, as stated, fails: the prefetch pass and the foreground path each
    have a call for the same identifier in flight. *)
Lemma two_calls_in_flight :
  run overlap init = Some overlap_world
  ∧ in_flight "6" overlap_world = 2
  ∧ (λ c, (call_id c, call_origin c)) <$> calls overlap_world
    = [("1", Foreground); ("6", Prefetch 0 1); ("6", Foreground)].
Proof. split_and!; [exact overlap_run|by vm_compute..]. Qed.

(** C1, amended. There is no ledger of calls in flight; what keeps a call
    from being made is the cache alone.  The foreground path makes no call
    for an identifier that is in the cache and shows the cached value; for
    one that is not (and is a number) it makes one call at once, whatever
    is already in flight for it, so the calls in flight for the identifier
    grow by one.  A prefetch pass stops only at entries that are not in
    the cache, and when its timer fires it makes its call without looking
    at the cache or at the calls in flight again.  Each call is answered
    on its own: the path that made it takes the answer it gets. *)
Theorem resolve_is_not_deduplicated (id : string) (w : World) :
  (∀ data, cacheRef (app w) !! id = Some data →
     calls (loadAnimeData id w) = calls w
     ∧ pending (loadAnimeData id w) = pending w
     ∧ jikanData (app (loadAnimeData id w)) = Some data)
  ∧ (∀ n, cacheRef (app w) !! id = None → parseInt id = Some n →
       calls (loadAnimeData id w) = calls w ++ [mkCall (now w) id n Foreground]
       ∧ in_flight id (loadAnimeData id w) = S (in_flight id w))
  ∧ (∀ l i fuel j nxt n,
       prefetch_scan l (cacheRef (app w)) i fuel = Some (j, nxt, n) →
       cacheRef (app w) !! AnimeXml.id nxt = None)
  ∧ (∀ f,
       calls (prefetch_wake f w) =
         calls w ++ [mkCall (now w) (AnimeXml.id (next f)) (idNum f)
                       (Prefetch (pass f) (pos f))]
       ∧ in_flight (AnimeXml.id (next f)) (prefetch_wake f w)
         = S (in_flight (AnimeXml.id (next f)) w))
  ∧ (∀ data, jikanData (app (loadAnimeData_resume id (Ok200 data) w)) = Some data
             ∧ cacheRef (app (loadAnimeData_resume id (Ok200 data) w)) !! id = Some data).
Proof.
  split_and!.
  - intros data Hhit. rewrite loadAnimeData_eq. unfold load_calls, load_tasks.
    rewrite Hhit. simpl. by rewrite !app_nil_r.
  - intros n Hmiss Hnum. unfold loadAnimeData. rewrite Hmiss, Hnum. split; [done|].
    rewrite in_flight_spawn. simpl. rewrite decide_True by done.
    unfold in_flight; simpl. lia.
  - by intros l i fuel j nxt n (_ & _ & ? & _)%prefetch_scan_Some.
  - intros f. unfold prefetch_wake. split; [done|].
    rewrite in_flight_spawn. simpl. rewrite decide_True by done.
    unfold in_flight; simpl. lia.
  - intros data. unfold loadAnimeData_resume, cache_put; simpl.
    by rewrite lookup_insert_eq.
Qed.

(** ** The choices *)

(** Steps other than clicks and list loads leave the session cells. *)
Lemma step_session e w w' :
  step e w = Some w' → loads_list e = false → (∀ c, e ≠ Click c) →
  animeList (app w') = animeList (app w)
  ∧ currentIndex (app w') = currentIndex (app w)
  ∧ choices (app w') = choices (app w)
  ∧ likedShows (app w') = likedShows (app w).
Proof.
  intros Hstep Hload Hclick. step_inv Hstep; try done.
  - by destruct (Hclick choice).
  - unfold loadAnimeData_resume. by destruct r.
  - unfold prefetch_resume. rewrite prefetch_from_eq. by destruct r.
Qed.

Lemma decided_step e w w' :
  loads_list e = false → step e w = Some w' → decided w →
  decided w' ∧ animeList (app w') = animeList (app w).
Proof.
  intros Hload Hstep Hw. destruct e as [| c | | | | |] eqn:He.
  2:{ simpl in Hstep. simplify_eq.
      destruct (handleChoice_cases c w)
        as [[_ ->]|[(_ & _ & ->)|(anime & data & _ & Hcur & _ & ->)]]; [done..|].
      rewrite effect_eq. split; [|done]. intros id; simpl.
      destruct (decide (AnimeXml.id anime = id)) as [<-|Hne].
      - intros _. exists (currentIndex (app w)), anime. split_and!; [lia|done..].
      - rewrite lookup_insert_ne by done. intros (i & e' & ? & ? & ?)%Hw.
        exists i, e'. split_and!; [lia|done..]. }
  all: rewrite <-He in Hstep; destruct (step_session _ _ _ Hstep) as (Hl & Hc & Hch & _);
    [by subst|intros ?; by subst|].
  all: split; [|done]; unfold decided; by rewrite Hl, Hc, Hch.
Qed.

Lemma choices_kept_step e w w' :
  loads_list e = false → step e w = Some w' → decided w →
  NoDup (AnimeXml.id <$> animeList (app w)) →
  ∀ id c, choices (app w) !! id = Some c → choices (app w') !! id = Some c.
Proof.
  intros Hload Hstep Hw Hnd id c Hid. destruct e as [| c' | | | | |] eqn:He.
  2:{ simpl in Hstep. simplify_eq.
      destruct (handleChoice_cases c' w)
        as [[_ ->]|[(_ & _ & ->)|(anime & data & _ & Hcur & _ & ->)]]; [done..|].
      rewrite effect_eq; simpl.
      destruct (decide (AnimeXml.id anime = id)) as [<-|Hne];
        [|by rewrite lookup_insert_ne].
      destruct (Hw (AnimeXml.id anime)) as (i & e' & Hlt & Hi & Hsame); [eauto|].
      assert (i = currentIndex (app w)); [|lia].
      eapply (NoDup_lookup _ _ _ _ Hnd); rewrite list_lookup_fmap.
      - by rewrite Hi; simpl; rewrite Hsame.
      - by rewrite Hcur. }
  all: rewrite <-He in Hstep; destruct (step_session _ _ _ Hstep) as (_ & _ & Hch & _);
    [by subst|intros ?; by subst|].
  all: by rewrite Hch.
Qed.

Lemma choices_dom_step e w w' :
  loads_list e = false → step e w = Some w' →
  ∀ id, is_Some (choices (app w) !! id) → is_Some (choices (app w') !! id).
Proof.
  intros Hload Hstep id Hid. destruct e as [| c' | | | | |] eqn:He.
  2:{ simpl in Hstep. simplify_eq.
      destruct (handleChoice_cases c' w)
        as [[_ ->]|[(_ & _ & ->)|(anime & data & _ & Hcur & _ & ->)]]; [done..|].
      rewrite effect_eq; simpl.
      destruct (decide (AnimeXml.id anime = id)) as [<-|Hne].
      - rewrite lookup_insert_eq. eauto.
      - by rewrite lookup_insert_ne. }
  all: rewrite <-He in Hstep; destruct (step_session _ _ _ Hstep) as (_ & _ & Hch & _);
    [by subst|intros ?; by subst|].
  all: by rewrite Hch.
Qed.

Lemma decided_run es w w' :
  Forall (λ e, loads_list e = false) es → run es w = Some w' → decided w →
  decided w' ∧ animeList (app w') = animeList (app w).
Proof.
  intros Hes. revert w. induction Hes as [|e es He _ IH]; intros w Hrun Hw; simpl in Hrun.
  - by simplify_eq.
  - destruct (step e w) as [w1|] eqn:Hstep; [|done].
    destruct (decided_step _ _ _ He Hstep Hw) as [Hw1 Hl1].
    destruct (IH _ Hrun Hw1) as [? ?]. split; [done|congruence].
Qed.

Lemma choices_kept_run es w w' :
  Forall (λ e, loads_list e = false) es → run es w = Some w' → decided w →
  NoDup (AnimeXml.id <$> animeList (app w)) →
  ∀ id c, choices (app w) !! id = Some c → choices (app w') !! id = Some c.
Proof.
  intros Hes. revert w.
  induction Hes as [|e es He _ IH]; intros w Hrun Hw Hnd id c Hid; simpl in Hrun.
  - by simplify_eq.
  - destruct (step e w) as [w1|] eqn:Hstep; [|done].
    destruct (decided_step _ _ _ He Hstep Hw) as [Hw1 Hl1].
    apply (IH _ Hrun Hw1); [by rewrite Hl1|]. by eapply choices_kept_step.
Qed.

Lemma liked_once_run : run liked_once init = Some liked_once_world.
Proof. vm_compute. reflexivity. Qed.

(** C6, as stated, fails: the choices are keyed by identifier, so a
    decision at the second position of a title listed twice replaces the
    decision taken at its first position. *)
Lemma second_decision_overwrites_first :
  run liked_once init = Some liked_once_world
  ∧ choices (app liked_once_world) !! "1" = Some liked
  ∧ step (Click disliked) liked_once_world = Some disliked_world
  ∧ choices (app disliked_world) !! "1" = Some disliked
  ∧ currentIndex (app disliked_world) = 2.
Proof. split_and!; [exact liked_once_run|by vm_compute..]. Qed.


(** ** The prefetch pass *)

Lemma warm_S l answer cache i fuel :
  warm l answer cache i (S fuel) =
    match l !! i with
    | None => warm l answer cache (S i) fuel
    | Some nxt =>
        match cache !! AnimeXml.id nxt with
        | Some _ => warm l answer cache (S i) fuel
        | None =>
            match parseInt (AnimeXml.id nxt) with
            | None => warm l answer cache (S i) fuel
            | Some _ =>
                let cache' :=
                  match answer i with
                  | Ok200 data => <[AnimeXml.id nxt := data]> cache
                  | NotOk _ | Rejected => cache
                  end in
                (i :: (warm l answer cache' (S i) fuel).1,
                 (warm l answer cache' (S i) fuel).2)
            end
        end
    end.
Proof. reflexivity. Qed.

Lemma warm_0 l answer cache i : warm l answer cache i 0 = ([], cache).
Proof. reflexivity. Qed.

(** The loop as written and the loop cut at its suspension points agree:
    where [prefetch_scan] finds nothing the pass is over, and where it
    stops the pass makes its call there and goes on after it. *)
Lemma warm_scan_None l answer cache i fuel :
  prefetch_scan l cache i fuel = None → warm l answer cache i fuel = ([], cache).
Proof.
  revert i. induction fuel as [|fuel IH]; intros i; [done|].
  rewrite prefetch_scan_S, warm_S.
  destruct (l !! i) as [e|]; [|apply IH].
  destruct (cache !! AnimeXml.id e); [apply IH|].
  destruct (parseInt (AnimeXml.id e)); [done|apply IH].
Qed.

Lemma warm_scan_Some l answer cache i fuel j nxt n :
  prefetch_scan l cache i fuel = Some (j, nxt, n) →
  warm l answer cache i fuel =
    let cache' :=
      match answer j with
      | Ok200 data => <[AnimeXml.id nxt := data]> cache
      | NotOk _ | Rejected => cache
      end in
    (j :: (warm l answer cache' (S j) (i + fuel - S j)).1,
     (warm l answer cache' (S j) (i + fuel - S j)).2).
Proof.
  revert i. induction fuel as [|fuel IH]; intros i; [done|].
  rewrite prefetch_scan_S, warm_S.
  assert (i + S fuel - S j = S i + fuel - S j) as -> by lia.
  destruct (l !! i) as [e|]; [|apply IH].
  destruct (cache !! AnimeXml.id e); [apply IH|].
  destruct (parseInt (AnimeXml.id e)); [|apply IH].
  intros ?; simplify_eq. cbv zeta. by replace (S j + fuel - S j) with fuel by lia.
Qed.

Lemma warm_cache_mono l answer cache i fuel id :
  is_Some (cache !! id) → is_Some ((warm l answer cache i fuel).2 !! id).
Proof.
  revert i cache. induction fuel as [|fuel IH]; intros i cache Hid; [done|].
  rewrite warm_S.
  destruct (l !! i) as [e|]; [|by apply IH].
  destruct (cache !! AnimeXml.id e) eqn:Hc; [by apply IH|].
  destruct (parseInt (AnimeXml.id e)); [|by apply IH].
  simpl. apply IH. destruct (answer i); [|done..].
  destruct (decide (AnimeXml.id e = id)) as [<-|?].
  - rewrite lookup_insert_eq. eauto.
  - by rewrite lookup_insert_ne.
Qed.

(** The indices for which a pass run on its own makes a call. *)
Lemma warm_requested l answer cache i fuel j :
  j ∈ (warm l answer cache i fuel).1 ↔
  i ≤ j < i + fuel
  ∧ ∃ e n, l !! j = Some e ∧ parseInt (AnimeXml.id e) = Some n
           ∧ (warm l answer cache i (j - i)).2 !! AnimeXml.id e = None.
Proof.
  revert i cache. induction fuel as [|fuel IH]; intros i cache.
  { rewrite warm_0. split; [by intros ?%elem_of_nil|lia]. }
  destruct (decide (j = i)) as [->|Hne].
  - rewrite Nat.sub_diag, warm_0, warm_S. simpl.
    destruct (l !! i) as [e|] eqn:He.
    2:{ split; [intros ?%IH; lia|by intros (_ & ? & ? & ? & _)]. }
    destruct (cache !! AnimeXml.id e) eqn:Hc.
    { split; [intros ?%IH; lia|].
      intros (_ & e' & n & ? & ? & ?); simplify_eq; congruence. }
    destruct (parseInt (AnimeXml.id e)) eqn:Hp.
    2:{ split; [intros ?%IH; lia|].
        intros (_ & e' & n & ? & ? & ?); simplify_eq; congruence. }
    simpl. split; [|intros _; apply elem_of_cons; by left].
    intros _. split; [lia|]. eauto.
  - destruct (decide (j < i)) as [Hlt|Hge].
    + split; [|lia]. rewrite warm_S. intros Hin.
      repeat case_match; simpl in Hin;
        rewrite ?elem_of_cons in Hin; try (destruct Hin as [?|Hin]; [done|]);
        apply IH in Hin; lia.
    + assert (j - i = S (j - S i)) as -> by lia. rewrite !warm_S.
      destruct (l !! i) as [e|];
        [destruct (cache !! AnimeXml.id e); [|destruct (parseInt (AnimeXml.id e))]|];
        simpl; rewrite ?elem_of_cons, IH.
      2:{ split; [intros [->|[? ?]]; [done|split; [lia|done]]|].
          intros [? ?]. right. split; [lia|done]. }
      all: split; intros [? ?]; (split; [lia|done]).
Qed.

Lemma warm_cache_only l answer cache i fuel id :
  (warm l answer cache i fuel).2 !! id = cache !! id
  ∨ ∃ j e, i ≤ j < i + fuel ∧ l !! j = Some e ∧ AnimeXml.id e = id.
Proof.
  revert i cache. induction fuel as [|fuel IH]; intros i cache; [by left|].
  assert (∀ c', (warm l answer c' (S i) fuel).2 !! id = c' !! id
                ∨ ∃ j e, i ≤ j < i + S fuel ∧ l !! j = Some e ∧ AnimeXml.id e = id)
    as IH'.
  { intros c'. destruct (IH (S i) c') as [?|(j & e & ? & ? & ?)]; [by left|].
    right. exists j, e. split_and!; [lia..|done|done]. }
  rewrite warm_S.
  destruct (l !! i) as [e|] eqn:He; [|apply IH'].
  destruct (cache !! AnimeXml.id e) eqn:Hc; [apply IH'|].
  destruct (parseInt (AnimeXml.id e)); [|apply IH'].
  simpl. destruct (answer i); [|apply IH'..].
  destruct (decide (AnimeXml.id e = id)) as [<-|Hne].
  - right. exists i, e. split_and!; [lia..|done|done].
  - destruct (IH' (<[AnimeXml.id e := data]> cache)) as [Heq|?]; [|by right].
    left. by rewrite Heq, lookup_insert_ne.
Qed.

Lemma delete_middle {A} (l1 l2 : list A) x :
  delete (length l1) (l1 ++ x :: l2) = l1 ++ l2.
Proof. induction l1 as [|y l1 IH]; simpl; [done|]. by rewrite IH. Qed.

Lemma run_cons e es w :
  run (e :: es) w = match step e w with Some w' => run es w' | None => None end.
Proof. reflexivity. Qed.

Lemma pass_events_cons k answer j js :
  pass_events k answer (j :: js) =
    [Tick 900; TimerFired k; Response k (answer j)] ++ pass_events k answer js.
Proof. reflexivity. Qed.

(** One turn of a pass that nothing interrupts: the delay passes, the
    timer fires and the call goes out, the answer arrives. *)
Lemma pass_cycle f r w :
  run [Tick 900; TimerFired (length (pending w)); Response (length (pending w)) r]
      (spawn (PfSleep f (now w + 900)) w)
  = Some (prefetch_resume f r
            (mkWorld (app w) (now w + 900) (pending w)
               (calls w ++ [mkCall (now w + 900) (AnimeXml.id (next f)) (idNum f)
                              (Prefetch (pass f) (pos f))])
               (passes w))).
Proof.
  destruct w as [a t ps cs m]. unfold spawn. cbn [app now pending calls passes].
  rewrite run_cons. cbn [step app now pending calls passes].
  rewrite run_cons. cbn [step app now pending calls passes].
  rewrite list_lookup_middle by done. rewrite Nat.leb_refl.
  unfold prefetch_wake, retire, spawn, record_call. cbn [app now pending calls passes].
  rewrite (delete_middle ps []), app_nil_r.
  rewrite run_cons. cbn [step app now pending calls passes].
  rewrite list_lookup_middle by done.
  unfold retire. cbn [app now pending calls passes].
  rewrite (delete_middle ps []), app_nil_r.
  reflexivity.
Qed.

(** A pass that runs on its own from index [i] makes the calls of [warm]
    and ends with the cache of [warm]. *)
Lemma pass_run answer p l c n :
  ∀ i w, c + 4 - i ≤ n →
    run (pass_events (length (pending w)) answer
           (warm l answer (cacheRef (app w)) i (c + 4 - i)).1)
        (prefetch_from p l c i w)
    = Some
        (mkWorld
           (setCache (warm l answer (cacheRef (app w)) i (c + 4 - i)).2 (app w))
           (now w + 900 * length (warm l answer (cacheRef (app w)) i (c + 4 - i)).1)
           (pending w)
           (calls w ++
              pass_calls p l (now w) (warm l answer (cacheRef (app w)) i (c + 4 - i)).1)
           (passes w)).
Proof.
  induction n as [|n IH]; intros i w Hfuel.
  - replace (c + 4 - i) with 0 by lia. rewrite warm_0; simpl.
    unfold prefetch_from. replace (c + 4 - i) with 0 by lia. simpl.
    destruct w as [[] t ps cs m]; simpl. by rewrite Nat.add_0_r, app_nil_r.
  - destruct (prefetch_scan l (cacheRef (app w)) i (c + 4 - i))
      as [[[j nxt] m]|] eqn:Hscan.
    2:{ rewrite (warm_scan_None _ _ _ _ _ Hscan); simpl.
        unfold prefetch_from. rewrite Hscan.
        destruct w as [[] t ps cs m]; simpl. by rewrite Nat.add_0_r, app_nil_r. }
    pose proof (prefetch_scan_Some _ _ _ _ _ _ _ Hscan) as (Hj & Hlj & Hmiss & Hnum).
    rewrite (warm_scan_Some _ answer _ _ _ _ _ _ Hscan). cbv zeta. cbn [fst snd].
    replace (i + (c + 4 - i) - S j) with (c + 4 - S j) by lia.
    unfold prefetch_from. rewrite Hscan.
    set (cache' := match answer j with
                   | Ok200 data => <[AnimeXml.id nxt := data]> (cacheRef (app w))
                   | _ => cacheRef (app w)
                   end).
    set (w1 := mkWorld (setCache cache' (app w)) (now w + 900) (pending w)
                 (calls w ++ [mkCall (now w + 900) (AnimeXml.id nxt) m (Prefetch p j)])
                 (passes w)).
    assert (run [Tick 900; TimerFired (length (pending w));
                 Response (length (pending w)) (answer j)]
              (spawn (PfSleep (mkFrame p l c j nxt m) (now w + 900)) w)
            = Some (prefetch_from p l c (S j) w1)) as Hcycle.
    { rewrite (pass_cycle (mkFrame p l c j nxt m)). unfold prefetch_resume; simpl.
      f_equal. f_equal. subst w1 cache'.
      destruct w as [[] t ps cs k]; simpl. by destruct (answer j). }
    rewrite pass_events_cons, run_app, Hcycle. cbn [mbind option_bind].
    pose proof (IH (S j) w1) as IH1. subst w1.
    cbn [app now pending calls passes cacheRef setCache] in IH1.
    rewrite IH1 by lia. cbn [length pass_calls]. rewrite Hlj, Hnum. cbn [default].
    f_equal. f_equal; first [lia | rewrite <-(assoc_L (++)); reflexivity].
Qed.

Lemma two_passes_run : run two_passes init = Some two_passes_world.
Proof. vm_compute. reflexivity. Qed.

(** C4, as stated, fails: the pass started at cursor 1 asks for the third
    title although the call that the pass started at cursor 0 made for it
    is still in flight. *)
Lemma pass_asks_for_identifier_in_flight :
  run two_passes init = Some two_passes_world
  ∧ currentIndex (app two_passes_world) = 1
  ∧ animeList (app two_passes_world) !! 2 = Some evangelion
  ∧ in_flight "30" two_passes_world = 1
  ∧ step (TimerFired 2) two_passes_world = Some asked_twice_world
  ∧ (λ c, (call_time c, call_id c, call_origin c)) <$> calls asked_twice_world
    = [(0, "1", Foreground); (900, "6", Prefetch 0 1);
       (1800, "30", Prefetch 0 2); (2700, "30", Prefetch 1 2)]
  ∧ in_flight "30" asked_twice_world = 2.
Proof. split_and!; [exact two_passes_run|by vm_compute..]. Qed.

(** *** The pass under every schedule *)

Lemma prefetch_scan_spec l cache i fuel :
  match prefetch_scan l cache i fuel with
  | Some (j, nxt, n) =>
      i ≤ j < i + fuel ∧ l !! j = Some nxt
      ∧ cache !! AnimeXml.id nxt = None ∧ parseInt (AnimeXml.id nxt) = Some n
      ∧ ∀ j', i ≤ j' < j → passed_over l cache j'
  | None => ∀ j', i ≤ j' < i + fuel → passed_over l cache j'
  end.
Proof.
  revert i. induction fuel as [|fuel IH]; intros i.
  { simpl. intros j' ?. lia. }
  rewrite prefetch_scan_S.
  assert (passed_over l cache i →
          match prefetch_scan l cache (S i) fuel with
          | Some (j, nxt, n) =>
              i ≤ j < i + S fuel ∧ l !! j = Some nxt
              ∧ cache !! AnimeXml.id nxt = None ∧ parseInt (AnimeXml.id nxt) = Some n
              ∧ ∀ j', i ≤ j' < j → passed_over l cache j'
          | None => ∀ j', i ≤ j' < i + S fuel → passed_over l cache j'
          end) as Hskip.
  { intros Hi. specialize (IH (S i)).
    destruct (prefetch_scan l cache (S i) fuel) as [[[j nxt] n]|].
    - destruct IH as (Hj & Hl & Hc & Hn & Hbefore). split_and!; [lia|lia|done..|].
      intros j' Hj'. destruct (decide (j' = i)) as [->|?]; [done|]. apply Hbefore. lia.
    - intros j' Hj'. destruct (decide (j' = i)) as [->|?]; [done|]. apply IH. lia. }
  destruct (l !! i) as [e|] eqn:Hi.
  - destruct (cache !! AnimeXml.id e) eqn:Hc.
    + apply Hskip. unfold passed_over. rewrite Hi, Hc. left. eauto.
    + destruct (parseInt (AnimeXml.id e)) eqn:Hn.
      * split_and!; [lia|lia|done..|]. intros j' ?. lia.
      * apply Hskip. unfold passed_over. rewrite Hi. by right.
  - apply Hskip. unfold passed_over. by rewrite Hi.
Qed.

Lemma run_snoc es e w : run (es ++ [e]) w = w' ← run es w; step e w'.
Proof.
  rewrite run_app. destruct (run es w) as [w'|]; [|done]. simpl.
  by destruct (step e w').
Qed.

Lemma pass_started_mono es e p l c :
  pass_started es p l c → pass_started (es ++ [e]) p l c.
Proof.
  intros (es0 & e0 & es2 & w0 & w1 & -> & Hrest).
  exists es0, e0, (es2 ++ [e]), w0, w1. split; [|done]. by rewrite <- app_assoc.
Qed.

Lemma loop_reached_mono es e f t t' :
  t ≤ t' → loop_reached es f t → loop_reached (es ++ [e]) f t'.
Proof.
  intros Ht (es1 & es2 & w1 & -> & Hrun & Hin & Hmiss & Hle).
  exists es1, (es2 ++ [e]), w1. split_and!; [by rewrite app_assoc|done..|lia].
Qed.

Lemma pass_task_mono es e t : pass_task es t → pass_task (es ++ [e]) t.
Proof.
  destruct t as [|id|f d|f|d]; simpl; try done.
  - intros (Hwin & Hstart & Hreach). split_and!; [done| |].
    + by apply pass_started_mono.
    + by apply (loop_reached_mono es e f d d).
  - intros (Hwin & Hstart). split; [done|]. by apply pass_started_mono.
Qed.

Lemma pass_call_mono es e c : pass_call es c → pass_call (es ++ [e]) c.
Proof.
  unfold pass_call. destruct (call_origin c) as [|p j]; [done|].
  intros (f & Hp & Hj & Hid & Hnum & Hwin & Hstart & Hreach).
  exists f. split_and!; [done..| |].
  - by apply pass_started_mono.
  - by apply (loop_reached_mono es e f (call_time c) (call_time c)).
Qed.

Lemma pass_task_load_tasks es id cache : Forall (pass_task es) (load_tasks id cache).
Proof. unfold load_tasks. repeat case_match; try done. by apply Forall_singleton. Qed.

Lemma pass_call_load_calls es id cache t : Forall (pass_call es) (load_calls id cache t).
Proof. unfold load_calls. repeat case_match; try done. by apply Forall_singleton. Qed.

(** The tasks and the calls that a run of the effect adds, when the step
    [e] ends with it. *)
Lemma pass_history_effect es e w w0 :
  run es init = Some w → step e w = Some (effect w0) → passes w0 = passes w →
  Forall (pass_task (es ++ [e])) (effect_tasks w0)
  ∧ Forall (pass_call (es ++ [e])) (effect_calls w0).
Proof.
  intros Hrun Hstep Hpasses.
  assert (run (es ++ [e]) init = Some (effect w0)) as Hrun'.
  { rewrite run_snoc, Hrun. exact Hstep. }
  pose proof (effect_eq w0) as Heq.
  unfold effect_tasks, effect_calls in *.
  destruct (animeList (app w0) !! currentIndex (app w0)) as [anime|] eqn:Hcur; [|done].
  split; [|apply pass_call_load_calls].
  apply Forall_app. split; [apply pass_task_load_tasks|].
  unfold scan_tasks in *.
  destruct (prefetch_scan _ _ _ _) as [[[j nxt] n]|] eqn:Hscan; [|done].
  apply prefetch_scan_Some in Hscan as (Hj & Hl & Hmiss & Hn).
  apply Forall_singleton. cbn [pass_task pass lst cur pos next idNum].
  split_and!.
  - unfold in_its_window. cbn [pass lst cur pos next idNum]. split_and!; [lia|lia|done..].
  - exists es, e, [], w, (effect w0).
    split; [done|]. split; [done|]. split; [done|]. split; [done|].
    rewrite Heq. cbn [app passes animeList currentIndex setJikanData].
    split_and!; [lia|done|done].
  - exists (es ++ [e]), [], (effect w0). rewrite app_nil_r.
    split; [done|]. split; [done|]. rewrite Heq.
    cbn [app now pending cacheRef setJikanData next].
    split_and!; [|done|lia].
    rewrite !elem_of_app. right; right. by apply list_elem_of_singleton.
Qed.

Lemma pass_history_step es e w w' :
  run es init = Some w → step e w = Some w' →
  Forall (pass_task es) (pending w) → Forall (pass_call es) (calls w) →
  Forall (pass_task (es ++ [e])) (pending w') ∧ Forall (pass_call (es ++ [e])) (calls w').
Proof.
  intros Hrun Hstep Hp Hc.
  assert (Forall (pass_task (es ++ [e])) (pending w)) as Hp'.
  { eapply Forall_impl; [exact Hp|]. intros t. apply pass_task_mono. }
  assert (Forall (pass_call (es ++ [e])) (calls w)) as Hc'.
  { eapply Forall_impl; [exact Hc|]. intros c. apply pass_call_mono. }
  assert (run (es ++ [e]) init = Some w') as Hrun'.
  { rewrite run_snoc, Hrun. exact Hstep. }
  clear Hp Hc. pose proof Hstep as Hstep0. step_inv Hstep.
  - done.
  - destruct (handleChoice_cases choice w)
      as [[_ Heq]|[(_ & _ & Heq)|(anime & data & _ & _ & _ & Heq)]]; rewrite Heq in *.
    + done.
    + split; [|done]. simpl. apply Forall_app. split; [done|]. by apply Forall_singleton.
    + match type of Hstep0 with _ = Some (effect ?x) =>
        destruct (pass_history_effect es (Click choice) w x Hrun Hstep0 eq_refl)
          as [Htasks Hcalls] end.
      rewrite effect_eq. cbn [pending calls]. split.
      * repeat (apply Forall_app; split); [done|by apply Forall_singleton|done].
      * by apply Forall_app.
  - destruct (handleFileUpload_cases parsed stored rnd w)
      as [Heq|(e0 & l0 & -> & -> & Heq)]; rewrite Heq in *; [done|].
    match type of Hstep0 with _ = Some (effect ?x) =>
      destruct (pass_history_effect es (Upload (e0 :: l0) true rnd) w x Hrun Hstep0 eq_refl)
        as [Htasks Hcalls] end.
    rewrite effect_eq. cbn [pending calls]. split; by apply Forall_app.
  - unfold xml_loaded in *.
    match type of Hstep0 with _ = Some (effect ?x) =>
      destruct (pass_history_effect es (XmlLoaded k parsed saved rnd) w x Hrun Hstep0)
        as [Htasks Hcalls]; [by destruct saved|] end.
    rewrite effect_eq. split.
    + apply Forall_app. split; [|done]. destruct saved; simpl; by apply Forall_delete.
    + apply Forall_app. split; [|done]. by destruct saved.
  - split; [|done]. simpl. by apply Forall_delete.
  - pose proof (Forall_lookup_1 _ _ _ _ Hp' Hk) as (Hwin & Hstart & Hreach).
    split; simpl.
    + apply Forall_app. split; [by apply Forall_delete|]. by apply Forall_singleton.
    + apply Forall_app. split; [done|]. apply Forall_singleton.
      unfold pass_call. cbn [call_origin call_id call_num call_time].
      exists f. split_and!; try done.
      destruct Hreach as (es1 & es2 & w1 & Hes & Hrun1 & Hin & Hmiss & Hle).
      exists es1, es2, w1. split_and!; [done..|lia].
  - split; [|done]. simpl. by apply Forall_delete.
  - unfold loadAnimeData_resume. destruct r; (split; [|done]); simpl; by apply Forall_delete.
  - pose proof (Forall_lookup_1 _ _ _ _ Hp' Hk) as (Hwin & Hstart).
    destruct Hwin as (Hpos & Hnext & Hnum).
    pose proof Hrun' as Hrun1. unfold prefetch_resume in Hrun1 |- *.
    rewrite prefetch_from_eq in Hrun1 |- *.
    cbn [pending calls] in *. split; [|by destruct r].
    apply Forall_app. split; [destruct r; simpl; by apply Forall_delete|].
    unfold scan_tasks in *.
    destruct (prefetch_scan _ _ _ _) as [[[j nxt] n]|] eqn:Hscan; [|done].
    apply prefetch_scan_Some in Hscan as (Hj & Hl & Hmiss & Hn).
    apply Forall_singleton. cbn [pass_task pass lst cur pos next idNum].
    split_and!.
    + unfold in_its_window. cbn [pass lst cur pos next idNum]. split_and!; [lia|lia|done..].
    + done.
    + eexists (es ++ [Response k r]), [], _. rewrite app_nil_r.
      split; [done|]. split; [exact Hrun1|]. cbn [app now pending cacheRef next].
      split_and!; [|done|lia].
      rewrite elem_of_app. right. apply list_elem_of_singleton. by destruct r.
Qed.

(** Every call of a pass in the log of a run from the mounting. *)
Lemma pass_history es w :
  run es init = Some w →
  Forall (pass_task es) (pending w) ∧ Forall (pass_call es) (calls w).
Proof.
  revert w. induction es as [|e es IH] using rev_ind; intros w Hrun.
  - injection Hrun as <-. split; simpl; [by apply Forall_singleton|done].
  - rewrite run_snoc in Hrun. destruct (run es init) as [w0|] eqn:Hrun0; [|done].
    destruct (IH w0 eq_refl) as [Hp Hc]. by apply (pass_history_step es e w0 w).
Qed.

(** C4, amended.  A pass of [prefetchNext] walks the indices cursor+1 to
    cursor+3 of the list it was started on, in order.  Each time its loop
    reaches an index, it passes over the index when it holds no entry, an
    entry whose identifier is in the cache at that moment, or one whose
    identifier is not a number; at the first other index it sets a timer
    of 900 ms.  When the timer fires the call for that entry is made,
    whatever the cache holds and whatever calls are in flight by then.
    When the answer arrives, the cache is written on success and the loop
    goes on from the next index.  So in every run of the component, each
    call of a pass is for the entry at an index of the window of its pass,
    with an identifier that is a number and that was not in the cache when
    the loop reached the index, at least 900 ms before the call.  When
    nothing else runs while the pass does, its calls are exactly those
    for the indices of the window that hold an entry whose identifier is a
    number and is in the cache neither at the start of the pass nor by an
    earlier call of the pass. *)
Theorem warm_pass_requests (w : World) (answer : nat → FetchResult) :
  let l := animeList (app w) in
  let c := currentIndex (app w) in
  let cache := cacheRef (app w) in
  prefetchNext w
  = prefetch_from (passes w) l c (c + 1)
      (mkWorld (app w) (now w) (pending w) (calls w) (S (passes w)))
  ∧ (∀ p l' c' i w0,
       match prefetch_scan l' (cacheRef (app w0)) i (c' + 4 - i) with
       | Some (j, nxt, n) =>
           i ≤ j < c' + 4 ∧ l' !! j = Some nxt
           ∧ cacheRef (app w0) !! AnimeXml.id nxt = None
           ∧ parseInt (AnimeXml.id nxt) = Some n
           ∧ (∀ j', i ≤ j' < j → passed_over l' (cacheRef (app w0)) j')
           ∧ prefetch_from p l' c' i w0
             = spawn (PfSleep (mkFrame p l' c' j nxt n) (now w0 + 900)) w0
       | None =>
           (∀ j', i ≤ j' < c' + 4 → passed_over l' (cacheRef (app w0)) j')
           ∧ prefetch_from p l' c' i w0 = w0
       end)
  ∧ (∀ w0 k f d,
       pending w0 !! k = Some (PfSleep f d) →
       step (TimerFired k) w0 =
         if d <=? now w0
         then Some (spawn (PfFetch f)
                      (record_call
                         (mkCall (now w0) (AnimeXml.id (next f)) (idNum f)
                            (Prefetch (pass f) (pos f)))
                         (retire k w0)))
         else None)
  ∧ (∀ w0 k f r,
       pending w0 !! k = Some (PfFetch f) →
       step (Response k r) w0 =
         Some (prefetch_from (pass f) (lst f) (cur f) (S (pos f))
                 (match r with
                  | Ok200 data =>
                      with_app (cache_put (AnimeXml.id (next f)) data) (retire k w0)
                  | NotOk _ | Rejected => retire k w0
                  end)))
  ∧ (∀ es w', run es init = Some w' → Forall (pass_call es) (calls w'))
  ∧ run (pass_events (length (pending w)) answer (warm l answer cache (c + 1) 3).1)
        (prefetchNext w)
    = Some
        (mkWorld (setCache (warm l answer cache (c + 1) 3).2 (app w))
           (now w + 900 * length (warm l answer cache (c + 1) 3).1)
           (pending w)
           (calls w ++ pass_calls (passes w) l (now w) (warm l answer cache (c + 1) 3).1)
           (S (passes w)))
  ∧ (∀ j, j ∈ (warm l answer cache (c + 1) 3).1 ↔
       c + 1 ≤ j ≤ c + 3
       ∧ ∃ e n, l !! j = Some e ∧ parseInt (AnimeXml.id e) = Some n
                ∧ (warm l answer cache (c + 1) (j - (c + 1))).2 !! AnimeXml.id e = None)
  ∧ (∀ j e, j ∈ (warm l answer cache (c + 1) 3).1 → l !! j = Some e →
       cache !! AnimeXml.id e = None)
  ∧ (∀ j e n,
       c + 1 ≤ j ≤ c + 3 → l !! j = Some e → parseInt (AnimeXml.id e) = Some n →
       cache !! AnimeXml.id e = None →
       (∀ j' e', c + 1 ≤ j' < j → l !! j' = Some e' → AnimeXml.id e' ≠ AnimeXml.id e) →
       j ∈ (warm l answer cache (c + 1) 3).1).
Proof.
  intros l c cache.
  assert (∀ j, j ∈ (warm l answer cache (c + 1) 3).1 ↔
            c + 1 ≤ j ≤ c + 3
            ∧ ∃ e n, l !! j = Some e ∧ parseInt (AnimeXml.id e) = Some n
                     ∧ (warm l answer cache (c + 1) (j - (c + 1))).2
                         !! AnimeXml.id e = None) as Hexact.
  { intros j. rewrite warm_requested. split; intros [? ?]; (split; [lia|done]). }
  split_and!.
  - reflexivity.
  - intros p l' c' i w0. unfold prefetch_from.
    pose proof (prefetch_scan_spec l' (cacheRef (app w0)) i (c' + 4 - i)) as Hspec.
    destruct (prefetch_scan l' (cacheRef (app w0)) i (c' + 4 - i)) as [[[j nxt] n]|].
    + destruct Hspec as (Hj & Hl & Hc & Hn & Hbefore). split_and!; try done; lia.
    + split; [|done]. intros j' Hj'. apply Hspec. lia.
  - intros w0 k f d Hk. cbn [step]. rewrite Hk. reflexivity.
  - intros w0 k f r Hk. cbn [step]. rewrite Hk. unfold prefetch_resume. by destruct r.
  - intros es w' Hrun. by destruct (pass_history es w' Hrun).
  - pose proof (pass_run answer (passes w) l c 3 (c + 1)
                  (mkWorld (app w) (now w) (pending w) (calls w) (S (passes w))))
      as Hrun.
    cbn [app now pending calls passes] in Hrun.
    replace (c + 4 - (c + 1)) with 3 in Hrun by lia.
    unfold prefetchNext. by apply Hrun.
  - exact Hexact.
  - intros j e (_ & e' & n & He' & _ & Hmiss)%Hexact He. simplify_eq.
    apply eq_None_not_Some. intros Hhit. apply eq_None_not_Some in Hmiss.
    apply Hmiss. by apply warm_cache_mono.
  - intros j e n Hj He Hn Hmiss Hfirst. apply Hexact. split; [done|].
    exists e, n. split_and!; [done..|].
    destruct (warm_cache_only l answer cache (c + 1) (j - (c + 1)) (AnimeXml.id e))
      as [->|(j' & e' & ? & ? & ?)]; [done|].
    destruct (Hfirst j' e'); [lia|done..].
Qed.

Lemma warm_pass_requests_witness :
  (∃ w', run [Tick 900; TimerFired 1; Response 1 (Ok200 trigun_data)]
             (prefetchNext resolved_world) = Some w'
         ∧ (λ c, (call_time c, call_id c, call_origin c)) <$> calls w'
           = [(0, "1", Foreground); (900, "6", Prefetch 1 1)])
  ∧ run two_passes init = Some two_passes_world
  ∧ Forall (pass_call two_passes) (calls two_passes_world).
Proof.
  destruct (warm_pass_requests resolved_world (λ _, Ok200 trigun_data))
    as (_ & _ & _ & _ & Hcalls & Hrun & _).
  split_and!; [|exact two_passes_run|exact (Hcalls _ _ two_passes_run)].
  eexists. split; [exact Hrun|]. vm_compute. reflexivity.
Defined.

(** ** The delay between calls *)

Lemma spaced_snoc cs c :
  spaced cs →
  (∀ c1 p, c1 ∈ cs → pass_of_call c1 = Some p → pass_of_call c = Some p →
           call_time c1 + 900 ≤ call_time c) →
  spaced (cs ++ [c]).
Proof.
  intros Hcs Hc i j c1 c2 p Hij Hi Hj Hp1 Hp2.
  destruct (decide (j < length cs)) as [Hlt|Hge].
  - rewrite lookup_app_l in Hi by lia. rewrite lookup_app_l in Hj by lia. eauto.
  - rewrite lookup_app_r in Hj by lia.
    destruct (j - length cs) as [|[|?]] eqn:Hjl; simplify_eq/=.
    rewrite lookup_app_l in Hi by lia.
    eapply Hc; [by eapply list_elem_of_lookup_2|done..].
Qed.

Lemma NoDup_delete_lookup {A} (l : list A) i x :
  NoDup l → l !! i = Some x → NoDup (delete i l) ∧ x ∉ delete i l.
Proof.
  intros Hnd. revert i. induction Hnd as [|y l Hy Hnd IH]; intros [|i] Hi; simplify_eq/=.
  - done.
  - destruct (IH _ Hi) as [Hnd' Hx]. split.
    + apply NoDup_cons. split; [|done]. intros ?%list_elem_of_delete_inv. done.
    + apply not_elem_of_cons. split; [|done]. intros ->.
      apply Hy. by eapply list_elem_of_lookup_2.
Qed.

Lemma gap_tick t dt ps cs n : gap_inv t ps cs n → gap_inv (t + dt) ps cs n.
Proof.
  intros (G1 & G2 & G3 & G4 & G5 & G6). split_and!; try done.
  eapply Forall_impl; [exact G1|]. simpl. lia.
Qed.

Lemma gap_bump t ps cs n : gap_inv t ps cs n → gap_inv t ps cs (S n).
Proof.
  intros (G1 & G2 & G3 & G4 & G5 & G6). split_and!; try done.
  - eapply Forall_impl; [exact G2|]. simpl. intros c Hc p Hp. specialize (Hc p Hp). lia.
  - eapply Forall_impl; [exact G3|]. simpl. intros x Hx p Hp. specialize (Hx p Hp). lia.
Qed.

Lemma gap_retire t ps cs n k x :
  ps !! k = Some x → gap_inv t ps cs n → gap_inv t (delete k ps) cs n.
Proof.
  intros Hk (G1 & G2 & G3 & G4 & G5 & G6).
  split_and!; try done; try by apply Forall_delete.
  destruct (pass_of_task x) as [p|] eqn:Hp.
  - destruct (omap_delete_Some pass_of_task _ _ _ _ Hk Hp) as (i & Hi & ->).
    by apply (NoDup_delete_lookup _ _ _ G4 Hi).
  - by rewrite (omap_delete_None _ _ _ _ Hk Hp).
Qed.

Lemma gap_spawn_plain t ps cs n x :
  pass_of_task x = None → gap_inv t ps cs n → gap_inv t (ps ++ [x]) cs n.
Proof.
  intros Hx (G1 & G2 & G3 & G4 & G5 & G6). split_and!; try done.
  - apply Forall_app. split; [done|]. apply Forall_singleton. intros p. by rewrite Hx.
  - rewrite omap_app; simpl. by rewrite Hx, app_nil_r.
  - apply Forall_app. split; [done|]. apply Forall_singleton.
    intros f d ->. done.
Qed.

Lemma gap_foreground_call t ps cs n id m :
  gap_inv t ps cs n → gap_inv t ps (cs ++ [mkCall t id m Foreground]) n.
Proof.
  intros (G1 & G2 & G3 & G4 & G5 & G6). split_and!; try done.
  - apply Forall_app. split; [done|]. by apply Forall_singleton.
  - apply Forall_app. split; [done|]. by apply Forall_singleton.
  - eapply Forall_impl; [exact G5|]. simpl. intros x Hx f d ->.
    apply Forall_app. split; [by eapply Hx|]. by apply Forall_singleton.
  - apply spaced_snoc; [done|]. by intros c1 p _ _ ?.
Qed.

Lemma gap_sleep t ps cs n f :
  pass f < n → pass f ∉ omap pass_of_task ps →
  gap_inv t ps cs n → gap_inv t (ps ++ [PfSleep f (t + 900)]) cs n.
Proof.
  intros Hlt Hfresh (G1 & G2 & G3 & G4 & G5 & G6). split_and!; try done.
  - apply Forall_app. split; [done|]. apply Forall_singleton.
    intros p ?; by simplify_eq/=.
  - rewrite omap_app; simpl. apply NoDup_app. split_and!; [done| |apply NoDup_singleton].
    intros p Hp ->%list_elem_of_singleton. done.
  - apply Forall_app. split; [done|]. apply Forall_singleton.
    intros f' d ?; simplify_eq. eapply Forall_impl; [exact G1|]. simpl. lia.
Qed.

Lemma gap_wake t ps cs n k f d id m j :
  ps !! k = Some (PfSleep f d) → d ≤ t →
  gap_inv t ps cs n →
  gap_inv t (delete k ps ++ [PfFetch f]) (cs ++ [mkCall t id m (Prefetch (pass f) j)]) n.
Proof.
  intros Hk Hd (G1 & G2 & G3 & G4 & G5 & G6).
  destruct (omap_delete_Some pass_of_task _ _ _ _ Hk eq_refl) as (i & Hi & Hdel).
  destruct (NoDup_delete_lookup _ _ _ G4 Hi) as [Hnd Hfresh].
  assert (Forall (λ c, pass_of_call c = Some (pass f) → call_time c + 900 ≤ d) cs) as Hf.
  { rewrite Forall_forall in G5. eapply (G5 (PfSleep f d)); [|done].
    by eapply list_elem_of_lookup_2. }
  assert (pass f < n) as Hlt.
  { rewrite Forall_forall in G3. eapply (G3 (PfSleep f d)); [|done].
    by eapply list_elem_of_lookup_2. }
  split_and!.
  - apply Forall_app. split; [done|]. by apply Forall_singleton.
  - apply Forall_app. split; [done|]. apply Forall_singleton.
    intros p Hp. unfold pass_of_call in Hp. simpl in Hp. by simplify_eq.
  - apply Forall_app. split; [by apply Forall_delete|]. apply Forall_singleton.
    intros p ?; by simplify_eq/=.
  - rewrite omap_app, Hdel; simpl. apply NoDup_app.
    split_and!; [done| |apply NoDup_singleton].
    intros p Hp ->%list_elem_of_singleton. done.
  - apply Forall_app. split; [|by apply Forall_singleton].
    apply Forall_forall. intros x Hx f' d' ->.
    apply Forall_app. split.
    + rewrite Forall_forall in G5. eapply (G5 (PfSleep f' d')); [|done].
      by eapply list_elem_of_delete_inv.
    + apply Forall_singleton. intros Hsame. exfalso. apply Hfresh.
      rewrite <-Hdel. apply list_elem_of_omap. exists (PfSleep f' d').
      split; [done|]. simpl. unfold pass_of_call in Hsame; simpl in Hsame. congruence.
  - apply spaced_snoc; [done|]. intros c1 p Hc1 Hp1 Hp. simpl.
    unfold pass_of_call in Hp; simpl in Hp. simplify_eq.
    rewrite Forall_forall in Hf. specialize (Hf c1 Hc1 Hp1). lia.
Qed.

Lemma gap_load_tasks t ps cs n id cache :
  gap_inv t ps cs n →
  gap_inv t (ps ++ load_tasks id cache) (cs ++ load_calls id cache t) n.
Proof.
  intros Hg. unfold load_tasks, load_calls.
  destruct (cache !! id); [by rewrite !app_nil_r|].
  destruct (parseInt id); [|by rewrite !app_nil_r].
  by apply gap_spawn_plain, gap_foreground_call.
Qed.

Lemma gap_scan_tasks t ps cs n p l c i cache :
  p < n → p ∉ omap pass_of_task ps →
  gap_inv t ps cs n → gap_inv t (ps ++ scan_tasks p l c i cache t) cs n.
Proof.
  intros Hlt Hfresh Hg. unfold scan_tasks.
  destruct (prefetch_scan _ _ _ _) as [[[j nxt] m]|]; [|by rewrite app_nil_r].
  by apply gap_sleep.
Qed.

Lemma pass_of_load_tasks id cache : omap pass_of_task (load_tasks id cache) = [].
Proof. unfold load_tasks. by repeat case_match. Qed.

Lemma gap_effect w : gap_world w → gap_world (effect w).
Proof.
  unfold gap_world. rewrite effect_eq. cbn [now pending calls passes].
  unfold effect_tasks, effect_calls. intros Hg.
  destruct (animeList (app w) !! currentIndex (app w)) as [anime|].
  2:{ by rewrite !app_nil_r. }
  rewrite (assoc_L (++)). apply gap_scan_tasks; [lia| |].
  - rewrite omap_app, pass_of_load_tasks, app_nil_r.
    destruct Hg as (_ & _ & G3 & _). intros (x & Hx & Hp)%list_elem_of_omap.
    rewrite Forall_forall in G3. specialize (G3 x Hx _ Hp). lia.
  - by apply gap_bump, gap_load_tasks.
Qed.

Lemma gap_step e w w' : gap_world w → step e w = Some w' → gap_world w'.
Proof.
  intros Hw Hstep. step_inv Hstep.
  - by apply gap_tick.
  - destruct (handleChoice_cases choice w)
      as [[_ ->]|[(_ & _ & ->)|(? & ? & _ & _ & _ & ->)]]; [done|..].
    + by apply gap_spawn_plain.
    + apply gap_effect. by apply gap_spawn_plain.
  - destruct (handleFileUpload_cases parsed stored rnd w)
      as [->|(? & ? & _ & _ & ->)]; [done|]. by apply gap_effect.
  - unfold xml_loaded. apply gap_effect. destruct saved; by eapply gap_retire.
  - by eapply gap_retire.
  - by eapply gap_wake.
  - by eapply gap_retire.
  - unfold loadAnimeData_resume. destruct r; by eapply gap_retire.
  - unfold prefetch_resume. rewrite prefetch_from_eq. unfold gap_world.
    cbn [now pending calls passes].
    assert (gap_inv (now w) (delete k (pending w)) (calls w) (passes w)) as Hg
      by by eapply gap_retire.
    destruct Hw as (_ & _ & G3 & G4 & _).
    destruct (omap_delete_Some pass_of_task _ _ _ _ Hk eq_refl) as (i & Hi & Hdel).
    destruct (NoDup_delete_lookup _ _ _ G4 Hi) as [_ Hfresh].
    assert (pass f < passes w) as Hlt.
    { rewrite Forall_forall in G3. eapply (G3 (PfFetch f)); [|done].
      by eapply list_elem_of_lookup_2. }
    destruct r; simpl; apply gap_scan_tasks; try done; by rewrite Hdel.
Qed.

Lemma reachable_gap w : reachable w → gap_world w.
Proof.
  apply reachable_invariant; [|intros ????; by eapply gap_step].
  split_and!; simpl.
  all: try done.
  all: try by apply Forall_singleton.
  all: try apply NoDup_nil_2.
  all: by intros i j c1 c2 p _ ?.
Qed.

(** C2, as stated, fails: the foreground path does not wait, so its call
    for the second title starts 50 ms after the call of the prefetch
    pass. *)
Lemma calls_closer_than_the_delay :
  run overlap init = Some overlap_world
  ∧ (λ c, (call_time c, call_id c, call_origin c)) <$> calls overlap_world
    = [(0, "1", Foreground); (900, "6", Prefetch 0 1); (950, "6", Foreground)].
Proof. split; [exact overlap_run|by vm_compute]. Qed.

(** C2, amended. The delay of 900 ms belongs to the prefetch loop alone.
    In every world the component can reach, any two calls made by one
    prefetch pass start at least 900 ms apart, and a pass that is waiting
    wakes no earlier than 900 ms after each call it has made; its timer
    cannot fire before that time.  The foreground path makes its call at
    the very time it is asked, whatever calls were made before. *)
Theorem calls_of_one_pass_are_spaced (w : World) :
  reachable w →
  spaced (calls w)
  ∧ (∀ k f d, pending w !! k = Some (PfSleep f d) →
       Forall (λ c, pass_of_call c = Some (pass f) → call_time c + 900 ≤ d) (calls w)
       ∧ (now w < d → step (TimerFired k) w = None))
  ∧ (∀ id n, cacheRef (app w) !! id = None → parseInt id = Some n →
       calls (loadAnimeData id w) = calls w ++ [mkCall (now w) id n Foreground]).
Proof.
  intros Hreach. destruct (reachable_gap w Hreach) as (_ & _ & _ & _ & G5 & G6).
  split_and!.
  - done.
  - intros k f d Hk. split.
    + rewrite Forall_forall in G5. eapply (G5 (PfSleep f d)); [|done].
      by eapply list_elem_of_lookup_2.
    + intros Hearly. unfold step. rewrite Hk.
      by destruct (Nat.leb_spec d (now w)); [lia|].
  - intros id n Hmiss Hnum. unfold loadAnimeData. by rewrite Hmiss, Hnum.
Qed.

Lemma calls_of_one_pass_are_spaced_witness :
  spaced (calls one_pass_world)
  ∧ (λ c, (call_time c, call_origin c)) <$> calls one_pass_world
    = [(0, Foreground); (900, Prefetch 0 1); (1800, Prefetch 0 2)].
Proof.
  destruct (calls_of_one_pass_are_spaced one_pass_world) as (Hspaced & _).
  - exists one_pass. vm_compute. reflexivity.
  - split; [exact Hspaced|]. vm_compute. reflexivity.
Defined.

(** * Further properties of the component *)

(** ** The cooldown *)

Lemma cooldown_due_step e w w' :
  Forall (λ d, d ≤ now w + 1000) (cooldown_timers w) → step e w = Some w' →
  Forall (λ d, d ≤ now w' + 1000) (cooldown_timers w').
Proof.
  intros Hw Hstep. step_inv Hstep.
  - eapply Forall_impl; [exact Hw|]. simpl. lia.
  - destruct (handleChoice_cases choice w)
      as [[_ ->]|[(_ & _ & ->)|(? & ? & _ & _ & _ & ->)]]; [done|..];
      rewrite ?cooldown_timers_effect; rewrite ?effect_eq;
      unfold cooldown_timers in *; cbn [now pending];
      rewrite omap_app; (apply Forall_app; split; [done|]);
      by apply Forall_singleton.
  - destruct (handleFileUpload_cases parsed stored rnd w)
      as [->|(? & ? & _ & _ & ->)]; [done|].
    rewrite cooldown_timers_effect. by rewrite effect_eq.
  - unfold xml_loaded. rewrite cooldown_timers_effect, effect_eq.
    unfold cooldown_timers in *.
    destruct saved; cbn [now pending with_app retire];
      by erewrite omap_delete_None by done.
  - unfold cooldown_timers in *; cbn [now pending with_app retire].
    by erewrite omap_delete_None by done.
  - unfold cooldown_timers in *; cbn [now pending prefetch_wake spawn record_call retire].
    rewrite omap_app; simpl. erewrite omap_delete_None by done. by rewrite app_nil_r.
  - unfold cooldown_timers in *; cbn [now pending with_app retire].
    destruct (omap_delete_Some cooldown_of _ _ _ _ Hk eq_refl) as (i & Hi & ->).
    by apply Forall_delete.
  - unfold cooldown_timers in *. unfold loadAnimeData_resume.
    destruct r; cbn [now pending with_app retire]; by erewrite omap_delete_None by done.
  - unfold cooldown_timers in *. unfold prefetch_resume.
    rewrite prefetch_from_eq; cbn [now pending].
    rewrite omap_app, cooldown_of_scan, app_nil_r.
    destruct r; cbn [now pending with_app retire]; by erewrite omap_delete_None by done.
Qed.

Lemma omap_singleton_lookup {A B} (g : A → option B) (l : list A) b :
  omap g l = [b] → ∃ k t, l !! k = Some t ∧ g t = Some b.
Proof.
  intros Hl. assert (b ∈ omap g l) as (t & Ht & Hg)%list_elem_of_omap.
  { rewrite Hl. apply list_elem_of_singleton. done. }
  apply list_elem_of_lookup in Ht as [k Hk]. eauto.
Qed.

(** X1: the cooldown flag is up exactly while a cooldown timer is pending, and
    there is never more than one: with the flag down no timer is pending,
    and with the flag up there is one timer, due within 1000 ms, and once
    it is due it can fire, which lowers the flag and leaves no timer
    behind.  So the cooldown cannot get stuck and cannot be extended by
    clicking. *)
Theorem cooldown_flag_has_one_timer (w : World) :
  reachable w →
  (isCooldown (app w) = false → cooldown_timers w = [])
  ∧ (isCooldown (app w) = true →
     ∃ k d, pending w !! k = Some (Cooldown d)
            ∧ cooldown_timers w = [d]
            ∧ d ≤ now w + 1000
            ∧ ∀ dt, d ≤ now w + dt →
                ∃ w', run [Tick dt; TimerFired k] w = Some w'
                      ∧ isCooldown (app w') = false
                      ∧ cooldown_timers w' = []).
Proof.
  intros Hreach.
  assert (Forall (λ d, d ≤ now w + 1000) (cooldown_timers w)) as Hdue.
  { revert w Hreach. apply reachable_invariant; [done|].
    intros ????. by apply cooldown_due_step. }
  pose proof (reachable_cooldown_consistent w Hreach) as Hk.
  unfold cooldown_consistent in Hk. split.
  - intros Hc. rewrite Hc in Hk. by apply nil_length_inv.
  - intros Hc. rewrite Hc in Hk.
    destruct (cooldown_timers w) as [|d [|??]] eqn:Hts; [done| |done].
    destruct (omap_singleton_lookup _ _ _ Hts) as (k & t & Hkt & Ht).
    destruct t; try discriminate Ht. injection Ht as ->.
    exists k, d. split_and!; [done|done|exact (Forall_inv Hdue)|].
    intros dt Hdt. eexists. split_and!.
    + rewrite run_cons. cbn [step]. rewrite run_cons. cbn [step pending now].
      rewrite Hkt. destruct (Nat.leb_spec d (now w + dt)); [reflexivity|lia].
    + done.
    + unfold cooldown_timers in *. cbn [pending with_app retire].
      destruct (omap_delete_Some cooldown_of _ _ _ _ Hkt eq_refl) as (i & Hi & ->).
      rewrite Hts in *. by destruct i.
Qed.

Lemma cooldown_flag_has_one_timer_witness :
  ∃ k d, pending overlap_world !! k = Some (Cooldown d)
         ∧ cooldown_timers overlap_world = [d]
         ∧ d ≤ now overlap_world + 1000.
Proof.
  destruct (cooldown_flag_has_one_timer overlap_world) as (_ & Hup).
  - exists overlap. exact overlap_run.
  - destruct Hup as (k & d & Hk & Hts & Hd & _); [reflexivity|].
    exists k, d. split_and!; assumption.
Defined.

(** ** Calls made, calls in flight and the cache *)

Lemma filter_delete_length {A} (P : A → Prop) `{!∀ x, Decision (P x)} (l : list A) k t :
  l !! k = Some t →
  length (filter P l) =
    length (filter P (delete k l)) + (if decide (P t) then 1 else 0).
Proof.
  revert k. induction l as [|a l IH]; intros k Hk; [done|].
  destruct k as [|k]; simpl in Hk.
  - injection Hk as ->. change (delete 0 (t :: l)) with l.
    rewrite filter_cons. case_decide; simpl; lia.
  - change (delete (S k) (a :: l)) with (a :: delete k l).
    rewrite !filter_cons. specialize (IH _ Hk).
    destruct (decide (P a)); simpl; rewrite IH; lia.
Qed.

Lemma in_flight_load_tasks id id' cache :
  length (filter (λ t, fetching t = Some id) (load_tasks id' cache))
  = length (filter (λ c, call_id c = id) (load_calls id' cache 0)).
Proof.
  unfold load_tasks, load_calls. destruct (cache !! id'); [done|].
  destruct (parseInt id'); [|done]. rewrite !filter_cons, !filter_nil. simpl.
  repeat case_decide; simplify_eq/=; done.
Qed.

Lemma calls_for_load_calls id id' cache t :
  length (filter (λ c, call_id c = id) (load_calls id' cache t))
  = length (filter (λ c, call_id c = id) (load_calls id' cache 0)).
Proof.
  unfold load_calls. destruct (cache !! id'); [done|].
  destruct (parseInt id'); [|done]. rewrite !filter_cons, !filter_nil. simpl.
  by case_decide.
Qed.

Lemma in_flight_scan_tasks id p l c i cache t :
  filter (λ x, fetching x = Some id) (scan_tasks p l c i cache t) = [].
Proof.
  unfold scan_tasks. destruct (prefetch_scan _ _ _ _) as [[[??]?]|]; [|done].
  by rewrite filter_cons, filter_nil.
Qed.

Lemma accounted_effect w :
  (∀ id, in_flight id w ≤ calls_for id w) →
  ∀ id, in_flight id (effect w) ≤ calls_for id (effect w)
        ∧ calls_for id w ≤ calls_for id (effect w).
Proof.
  intros Hw id. specialize (Hw id). unfold in_flight, calls_for in *.
  rewrite effect_eq. cbn [pending calls]. unfold effect_tasks, effect_calls.
  destruct (animeList (app w) !! currentIndex (app w)) as [anime|].
  - rewrite !filter_app, !length_app, in_flight_scan_tasks, in_flight_load_tasks,
      (calls_for_load_calls _ _ _ (now w)). simpl. lia.
  - rewrite !app_nil_r. lia.
Qed.

Lemma accounted_step e w w' : accounted w → step e w = Some w' → accounted w'.
Proof.
  intros Hw Hstep.
  assert (∀ id, in_flight id w ≤ calls_for id w) as Hfl by (intros id; apply Hw).
  assert (∀ id, is_Some (cacheRef (app w) !! id) → 0 < calls_for id w) as Hca
    by (intros id; apply Hw).
  step_inv Hstep.
  - done.
  - destruct (handleChoice_cases choice w)
      as [[_ ->]|[(_ & _ & ->)|(? & ? & _ & _ & _ & ->)]]; [done|..].
    + intros id. specialize (Hfl id). specialize (Hca id).
      unfold in_flight, calls_for in *. cbn [pending calls app cacheRef setIsCooldown].
      rewrite filter_app, length_app, filter_cons, filter_nil. simpl.
      split; [lia|done].
    + intros id.
      match goal with |- context [effect ?w0] => set (w1 := w0) end.
      assert (∀ id, in_flight id w1 ≤ calls_for id w1) as Hw1.
      { intros id'. specialize (Hfl id'). unfold in_flight, calls_for in *.
        subst w1. cbn [pending calls].
        rewrite filter_app, length_app, filter_cons, filter_nil. simpl. lia. }
      destruct (accounted_effect w1 Hw1 id) as [? Hmono]. split; [done|].
      rewrite cacheRef_effect. subst w1. cbn [app cacheRef].
      intros Hid. specialize (Hca id Hid). unfold calls_for in *. simpl in *. lia.
  - destruct (handleFileUpload_cases parsed stored rnd w)
      as [->|(? & ? & _ & _ & ->)]; [done|].
    intros id.
    match goal with |- context [effect ?w0] => set (w1 := w0) end.
    destruct (accounted_effect w1 Hfl id) as [? _]. split; [done|].
    rewrite cacheRef_effect. subst w1. cbn [app cacheRef].
    rewrite lookup_empty. by intros [? ?].
  - unfold xml_loaded. intros id.
    match goal with |- context [effect ?w0] => set (w1 := w0) end.
    assert (∀ id, in_flight id w1 ≤ calls_for id w1) as Hw1.
    { intros id'. specialize (Hfl id'). unfold in_flight, calls_for in *.
      subst w1. destruct saved; cbn [pending calls with_app retire];
        rewrite (filter_delete_length _ (pending w) k LoadXml Hk) in Hfl; lia. }
    destruct (accounted_effect w1 Hw1 id) as [? Hmono]. split; [done|].
    rewrite cacheRef_effect. intros Hid.
    assert (0 < calls_for id w); [|unfold calls_for in *; subst w1;
                                   destruct saved; simpl in *; lia].
    apply Hca. subst w1. by destruct saved.
  - intros id. specialize (Hfl id). specialize (Hca id).
    unfold in_flight, calls_for in *. cbn [pending calls with_app retire app cacheRef].
    rewrite (filter_delete_length _ (pending w) k LoadXml Hk) in Hfl.
    split; [lia|done].
  - intros id. specialize (Hfl id). specialize (Hca id).
    unfold in_flight, calls_for, prefetch_wake in *.
    cbn [pending calls spawn record_call retire app cacheRef].
    rewrite (filter_delete_length _ (pending w) k _ Hk) in Hfl.
    rewrite !filter_app, !length_app, !filter_cons, !filter_nil. simpl in *.
    split; [repeat case_decide; simplify_eq/=; lia|].
    intros Hid. specialize (Hca Hid). lia.
  - intros id. specialize (Hfl id). specialize (Hca id).
    unfold in_flight, calls_for in *. cbn [pending calls with_app retire app cacheRef].
    rewrite (filter_delete_length _ (pending w) k _ Hk) in Hfl.
    split; [lia|done].
  - intros id0. pose proof (Hfl id) as Hfid. specialize (Hfl id0). specialize (Hca id0).
    unfold in_flight, calls_for, loadAnimeData_resume in *.
    rewrite (filter_delete_length _ (pending w) k _ Hk) in Hfl.
    rewrite (filter_delete_length _ (pending w) k _ Hk) in Hfid.
    simpl in Hfid. rewrite decide_True in Hfid by done.
    destruct r; cbn [pending calls with_app retire app cacheRef cache_put setCache
                       setJikanData]; (split; [lia|]); [|done..].
    destruct (decide (id = id0)) as [<-|Hne]; [lia|]. by rewrite lookup_insert_ne.
  - intros id0. pose proof (Hfl (AnimeXml.id (next f))) as Hfid.
    specialize (Hfl id0). specialize (Hca id0).
    unfold in_flight, calls_for, prefetch_resume in *. rewrite prefetch_from_eq.
    rewrite (filter_delete_length _ (pending w) k _ Hk) in Hfl.
    rewrite (filter_delete_length _ (pending w) k _ Hk) in Hfid.
    simpl in Hfid. rewrite decide_True in Hfid by done.
    cbn [pending calls app]. rewrite filter_app, length_app, in_flight_scan_tasks.
    destruct r; cbn [pending calls with_app retire app cacheRef cache_put setCache];
      (split; [simpl; lia|]); [|done..].
    destruct (decide (AnimeXml.id (next f) = id0)) as [<-|Hne]; [lia|].
    by rewrite lookup_insert_ne.
Qed.

Lemma calls_prefix_step e w w' : step e w = Some w' → calls w `prefix_of` calls w'.
Proof.
  intros Hstep. step_inv Hstep; try done.
  - destruct (handleChoice_cases choice w)
      as [[_ ->]|[(_ & _ & ->)|(? & ? & _ & _ & _ & ->)]]; [done..|].
    rewrite effect_eq. by eexists.
  - destruct (handleFileUpload_cases parsed stored rnd w)
      as [->|(? & ? & _ & _ & ->)]; [done|]. rewrite effect_eq. by eexists.
  - unfold xml_loaded. rewrite effect_eq. destruct saved; by eexists.
  - by eexists.
  - unfold loadAnimeData_resume. by destruct r.
  - unfold prefetch_resume. rewrite prefetch_from_eq. by destruct r.
Qed.

(** X2: the call log is a faithful account.  No step ever removes or rewrites
    a logged call; in every world the component can reach, the calls in
    flight for an identifier are at most as many as the calls made for it,
    and an identifier has an entry in the cache only if a call was made
    for it: the cache never holds metadata that was not asked for. *)
Theorem calls_are_accounted_for (es : list Event) (w : World) :
  run es init = Some w →
  (∀ id, in_flight id w ≤ calls_for id w)
  ∧ (∀ id, is_Some (cacheRef (app w) !! id) → 0 < calls_for id w)
  ∧ (∀ es' w', run es' w = Some w' → calls w `prefix_of` calls w').
Proof.
  intros Hrun.
  assert (accounted w) as Hw.
  { apply reachable_invariant; [|intros ????; by eapply accounted_step|by exists es].
    intros id. split; [done|]. simpl. rewrite lookup_empty. by intros [? ?]. }
  split_and!; [intros id; apply Hw..|].
  intros es'. clear Hrun Hw. revert w.
  induction es' as [|e es' IH]; intros w w' Hrun'; simpl in Hrun'.
  - by simplify_eq.
  - destruct (step e w) as [w1|] eqn:Hstep; [|done].
    etrans; [by eapply calls_prefix_step|by apply IH].
Qed.

Lemma calls_are_accounted_for_witness :
  in_flight "6" overlap_world ≤ calls_for "6" overlap_world
  ∧ 0 < calls_for "1" overlap_world.
Proof.
  destruct (calls_are_accounted_for overlap overlap_world overlap_run)
    as (Hfl & Hca & _).
  split; [apply Hfl|]. apply Hca. vm_compute. eauto.
Defined.

(** ** How many calls are made *)

Lemma sum_list_delete {A} (f : A → nat) (l : list A) k t :
  l !! k = Some t → sum_list_with f l = f t + sum_list_with f (delete k l).
Proof.
  revert k. induction l as [|a l IH]; intros k Hk; [done|].
  destruct k as [|k]; simpl in Hk.
  - by injection Hk as ->.
  - change (delete (S k) (a :: l)) with (a :: delete k l).
    simpl. rewrite (IH _ Hk). lia.
Qed.

Lemma calls_left_load_tasks id cache : sum_list_with calls_left (load_tasks id cache) = 0.
Proof. unfold load_tasks. by repeat case_match. Qed.

Lemma in_window_load_tasks id cache : Forall in_window (load_tasks id cache).
Proof.
  unfold load_tasks. repeat case_match; try done. by apply Forall_singleton.
Qed.

(** The pass that goes on from index [i] of its window can make at most
    as many calls as the window has indices left. *)
Lemma scan_tasks_window p l c i cache t :
  c < i ≤ c + 4 →
  Forall in_window (scan_tasks p l c i cache t)
  ∧ sum_list_with calls_left (scan_tasks p l c i cache t) ≤ c + 4 - i.
Proof.
  intros Hi. unfold scan_tasks.
  destruct (prefetch_scan _ _ _ _) as [[[j nxt] n]|] eqn:Hscan.
  - apply prefetch_scan_Some in Hscan as (Hj & _). split.
    + apply Forall_singleton. simpl. lia.
    + simpl. lia.
  - split; [done|]. simpl. lia.
Qed.

Lemma within_budget_effect w :
  within_budget w →
  within_budget (effect w) ∧ passes w ≤ passes (effect w) ≤ S (passes w).
Proof.
  intros [Hwin Hb]. unfold within_budget, budget in *. rewrite effect_eq.
  cbn [pending calls passes]. unfold effect_tasks, effect_calls.
  destruct (animeList (app w) !! currentIndex (app w)) as [anime|].
  - destruct (scan_tasks_window (passes w) (animeList (app w)) (currentIndex (app w))
                (currentIndex (app w) + 1) (cacheRef (app w)) (now w))
      as [Hsw Hsb]; [lia|].
    split_and!; [|..|lia|lia].
    + repeat (apply Forall_app; split); auto using in_window_load_tasks.
    + rewrite !sum_list_with_app, !length_app, calls_left_load_tasks.
      assert (length (load_calls (AnimeXml.id anime) (cacheRef (app w)) (now w)) ≤ 1).
      { unfold load_calls. repeat case_match; simpl; lia. }
      lia.
  - rewrite !app_nil_r. split_and!; [done|lia..].
Qed.

Lemma within_budget_step e w w' :
  within_budget w → step e w = Some w' →
  within_budget w'
  ∧ passes w' ≤ passes w + (if runs_effect e then 1 else 0).
Proof.
  intros Hw Hstep. pose proof Hw as [Hwin Hb]. step_inv Hstep.
  - split; [done|]. simpl. lia.
  - destruct (handleChoice_cases choice w)
      as [[_ ->]|[(_ & _ & ->)|(? & ? & _ & _ & _ & ->)]].
    + split; [done|]. simpl. lia.
    + split; [|simpl; lia]. unfold within_budget, budget in *.
      cbn [pending calls passes]. split.
      * apply Forall_app. split; [done|]. by apply Forall_singleton.
      * rewrite sum_list_with_app. simpl. lia.
    + match goal with |- context [effect ?w0] => set (w1 := w0) end.
      destruct (within_budget_effect w1) as [? ?]; [|split; [done|simpl in *; lia]].
      subst w1. unfold within_budget, budget in *. cbn [pending calls passes]. split.
      * apply Forall_app. split; [done|]. by apply Forall_singleton.
      * rewrite sum_list_with_app. simpl. lia.
  - destruct (handleFileUpload_cases parsed stored rnd w)
      as [->|(? & ? & _ & _ & ->)]; [split; [done|simpl; lia]|].
    match goal with |- context [effect ?w0] => set (w1 := w0) end.
    destruct (within_budget_effect w1) as [? ?]; [done|].
    split; [done|simpl in *; lia].
  - unfold xml_loaded.
    match goal with |- context [effect ?w0] => set (w1 := w0) end.
    destruct (within_budget_effect w1) as [? ?]; [|split; [done|]].
    + subst w1. unfold within_budget, budget in *.
      rewrite (sum_list_delete calls_left _ _ _ Hk) in Hb.
      destruct saved; cbn [pending calls passes with_app retire];
        (split; [by apply Forall_delete|simpl in Hb; lia]).
    + subst w1. destruct saved; simpl in *; lia.
  - split; [|simpl; lia]. unfold within_budget, budget in *.
    rewrite (sum_list_delete calls_left _ _ _ Hk) in Hb.
    cbn [pending calls passes with_app retire].
    split; [by apply Forall_delete|simpl in Hb; lia].
  - split; [|simpl; lia]. unfold within_budget, budget, prefetch_wake in *.
    rewrite (sum_list_delete calls_left _ _ _ Hk) in Hb.
    assert (in_window (PfSleep f deadline)) as Hf.
    { rewrite Forall_forall in Hwin. apply Hwin. by eapply list_elem_of_lookup_2. }
    cbn [pending calls passes spawn record_call retire]. split.
    + apply Forall_app. split; [by apply Forall_delete|]. by apply Forall_singleton.
    + rewrite sum_list_with_app, length_app. simpl in *. lia.
  - split; [|simpl; lia]. unfold within_budget, budget in *.
    rewrite (sum_list_delete calls_left _ _ _ Hk) in Hb.
    cbn [pending calls passes with_app retire].
    split; [by apply Forall_delete|simpl in Hb; lia].
  - split; [|unfold loadAnimeData_resume; destruct r; simpl; lia].
    unfold within_budget, budget, loadAnimeData_resume in *.
    rewrite (sum_list_delete calls_left _ _ _ Hk) in Hb.
    destruct r; cbn [pending calls passes with_app retire];
      (split; [by apply Forall_delete|simpl in Hb; lia]).
  - assert (in_window (PfFetch f)) as Hf.
    { rewrite Forall_forall in Hwin. apply Hwin. by eapply list_elem_of_lookup_2. }
    simpl in Hf.
    split; [|unfold prefetch_resume; rewrite prefetch_from_eq; destruct r; simpl; lia].
    unfold within_budget, budget, prefetch_resume in *. rewrite prefetch_from_eq.
    rewrite (sum_list_delete calls_left _ _ _ Hk) in Hb.
    cbn [pending calls passes].
    match goal with |- context [scan_tasks ?p ?l ?c ?i ?ca ?t] =>
      destruct (scan_tasks_window p l c i ca t) as [Hsw Hsb]; [lia|] end.
    split.
    + apply Forall_app. split; [|done].
      destruct r; cbn [pending with_app retire]; by apply Forall_delete.
    + rewrite sum_list_with_app.
      assert (∀ r0 : FetchResult,
                pending (match r0 with
                         | Ok200 data =>
                             with_app (cache_put (AnimeXml.id (next f)) data) (retire k w)
                         | _ => retire k w
                         end) = delete k (pending w)
                ∧ calls (match r0 with
                         | Ok200 data =>
                             with_app (cache_put (AnimeXml.id (next f)) data) (retire k w)
                         | _ => retire k w
                         end) = calls w
                ∧ passes (match r0 with
                          | Ok200 data =>
                              with_app (cache_put (AnimeXml.id (next f)) data) (retire k w)
                          | _ => retire k w
                          end) = passes w) as Hr by (by intros []).
      destruct (Hr r) as (-> & -> & ->). simpl in Hb. lia.
Qed.

Lemma within_budget_run es w w' :
  within_budget w → run es w = Some w' →
  within_budget w' ∧ passes w' ≤ passes w + length (filter runs_effect es).
Proof.
  revert w. induction es as [|e es IH]; intros w Hw Hrun; simpl in Hrun.
  - simplify_eq. split; [done|]. simpl. lia.
  - destruct (step e w) as [w1|] eqn:Hstep; [|done].
    destruct (within_budget_step _ _ _ Hw Hstep) as [Hw1 Hp1].
    destruct (IH _ Hw1 Hrun) as [Hw' Hp']. split; [done|].
    rewrite filter_cons. destruct (runs_effect e); simpl in *; lia.
Qed.

(** X3: the load put on the metadata service is bounded by what the user
    does: over any run of the component, the number of outbound calls made
    is at most four for each click, upload or arrival of the initial list
    (one foreground call and the three entries of the look-ahead). *)
Theorem at_most_four_calls_per_cursor_move (es : list Event) (w : World) :
  run es init = Some w →
  length (calls w) ≤ 4 * length (filter runs_effect es).
Proof.
  intros Hrun.
  destruct (within_budget_run es init w) as [[_ Hb] Hp]; [|done|].
  - split; [by apply Forall_singleton|]. unfold budget. simpl. lia.
  - unfold budget in Hb. simpl in Hp. lia.
Qed.

Lemma at_most_four_calls_per_cursor_move_witness :
  length (calls overlap_world) ≤ 4 * length (filter runs_effect overlap).
Proof. exact (at_most_four_calls_per_cursor_move overlap overlap_world overlap_run). Defined.

(** ** A failed resolve leaves the session where it is *)

Lemma Forall_delete_unique {A} (P : A → Prop) (l : list A) k :
  (∀ j t, l !! j = Some t → j ≠ k → P t) → Forall P (delete k l).
Proof.
  intros Hl. apply Forall_lookup. intros j t Hj.
  destruct (decide (j < k)) as [Hlt|Hge].
  - rewrite list_lookup_delete_lt in Hj by done. apply (Hl j); [done|lia].
  - rewrite list_lookup_delete_ge in Hj by lia. apply (Hl (S j)); [done|lia].
Qed.

Lemma scan_tasks_no_foreground p l c i cache t :
  Forall (λ t, ∀ id, t ≠ FgFetch id) (scan_tasks p l c i cache t).
Proof.
  unfold scan_tasks. destruct (prefetch_scan _ _ _ _) as [[[j nxt] n]|]; [|done].
  by apply Forall_singleton.
Qed.

(** While the session is stalled, only a new list ends the stall. *)
Lemma stalled_step e w w' :
  stalled w → loads_list e = false → step e w = Some w' →
  stalled w'
  ∧ animeList (app w') = animeList (app w)
  ∧ currentIndex (app w') = currentIndex (app w)
  ∧ choices (app w') = choices (app w)
  ∧ likedShows (app w') = likedShows (app w).
Proof.
  intros Hw Hload Hstep. pose proof Hw as [Hdata Hpending].
  step_inv Hstep; try discriminate Hload.
  - done.
  - destruct (handleChoice_cases choice w)
      as [[_ ->]|[(_ & _ & ->)|(anime & data & _ & _ & Hsome & _)]]; [done| |congruence].
    split; [|done]. split; [done|]. simpl.
    apply Forall_app. split; [done|]. by apply Forall_singleton.
  - split; [|done]. split; [done|]. simpl. by apply Forall_delete.
  - split; [|done]. split; [done|]. simpl.
    apply Forall_app. split; [by apply Forall_delete|]. by apply Forall_singleton.
  - split; [|done]. split; [done|]. simpl. by apply Forall_delete.
  - by destruct (Forall_lookup_1 _ _ _ _ Hpending Hk id).
  - unfold prefetch_resume. rewrite prefetch_from_eq.
    split; [|by destruct r].
    split; [by destruct r|]. cbn [pending].
    apply Forall_app. split; [|apply scan_tasks_no_foreground].
    destruct r; simpl; by apply Forall_delete.
Qed.

Lemma stalled_run es w w' :
  stalled w → forallb (λ e, negb (loads_list e)) es = true → run es w = Some w' →
  stalled w'
  ∧ animeList (app w') = animeList (app w)
  ∧ currentIndex (app w') = currentIndex (app w)
  ∧ choices (app w') = choices (app w)
  ∧ likedShows (app w') = likedShows (app w).
Proof.
  revert w. induction es as [|e es IH]; intros w Hw Hes Hrun.
  - by injection Hrun as <-.
  - rewrite run_cons in Hrun. destruct (step e w) as [w1|] eqn:Hstep; [|done].
    simpl in Hes. apply andb_prop in Hes as [He Hes].
    apply negb_true_iff in He.
    destruct (stalled_step e w w1 Hw He Hstep) as (Hw1 & <- & <- & <- & <-).
    by apply IH.
Qed.

(** X4: when the only foreground call in flight ends without a
    successful answer, the session is stuck on the entry at the cursor:
    whatever the user clicks, whatever timers fire and whatever answers
    of prefetch passes arrive, the cursor, the decisions and the liked
    titles stay as they are and no metadata is shown, until a list is
    loaded. *)
Theorem failed_resolve_stalls_the_session
    (w w1 w' : World) (k : nat) (id : string) (r : FetchResult) (es : list Event) :
  pending w !! k = Some (FgFetch id) →
  (∀ j id', pending w !! j = Some (FgFetch id') → j = k) →
  failed r = true →
  step (Response k r) w = Some w1 →
  forallb (λ e, negb (loads_list e)) es = true →
  run es w1 = Some w' →
  jikanData (app w') = None
  ∧ animeList (app w') = animeList (app w)
  ∧ currentIndex (app w') = currentIndex (app w)
  ∧ choices (app w') = choices (app w)
  ∧ likedShows (app w') = likedShows (app w).
Proof.
  intros Hk Honly Hr Hstep Hes Hrun.
  assert (stalled w1 ∧ animeList (app w1) = animeList (app w)
          ∧ currentIndex (app w1) = currentIndex (app w)
          ∧ choices (app w1) = choices (app w)
          ∧ likedShows (app w1) = likedShows (app w)) as (Hw1 & Hl & Hc & Hch & Hli).
  { simpl in Hstep. rewrite Hk in Hstep. injection Hstep as <-.
    destruct r; [discriminate Hr| |];
      (split; [|done]; split; [done|]; simpl;
       apply Forall_delete_unique; intros j t Hj Hne id' ->; by apply Hne, (Honly j id')). }
  destruct (stalled_run es w1 w' Hw1 Hes Hrun) as ([Hdata _] & -> & -> & -> & ->).
  by rewrite Hl, Hc, Hch, Hli.
Qed.

Lemma failed_resolve_stalls_the_session_witness :
  run keeps_clicking refused_world = Some still_refused_world
  ∧ jikanData (app still_refused_world) = None
  ∧ animeList (app still_refused_world) = animeList (app asking_world)
  ∧ currentIndex (app still_refused_world) = currentIndex (app asking_world)
  ∧ choices (app still_refused_world) = choices (app asking_world)
  ∧ likedShows (app still_refused_world) = likedShows (app asking_world).
Proof.
  assert (run keeps_clicking refused_world = Some still_refused_world) as Hrun
    by (vm_compute; reflexivity).
  split; [exact Hrun|].
  apply (failed_resolve_stalls_the_session asking_world refused_world still_refused_world
           0 "1" (NotOk 429) keeps_clicking).
  - reflexivity.
  - intros [|[|[|j]]] id' Hj; vm_compute in Hj; congruence.
  - reflexivity.
  - vm_compute; reflexivity.
  - reflexivity.
  - exact Hrun.
Defined.

(** ** The cursor, the decisions and the liked titles *)

Lemma effect_session w :
  currentIndex (app (effect w)) = currentIndex (app w)
  ∧ choices (app (effect w)) = choices (app w)
  ∧ likedShows (app (effect w)) = likedShows (app w).
Proof. by rewrite effect_eq. Qed.

(** What one step does to the cursor, the decisions and the liked titles:
    nothing, the reset of an accepted upload, or one accepted decision. *)
Lemma step_decisions e w w' :
  step e w = Some w' →
  (currentIndex (app w') = currentIndex (app w)
   ∧ choices (app w') = choices (app w)
   ∧ likedShows (app w') = likedShows (app w))
  ∨ (resets e = true
     ∧ currentIndex (app w') = 0 ∧ choices (app w') = ∅ ∧ likedShows (app w') = [])
  ∨ (∃ c anime data,
       e = Click c
       ∧ animeList (app w) !! currentIndex (app w) = Some anime
       ∧ jikanData (app w) = Some data
       ∧ currentIndex (app w') = currentIndex (app w) + 1
       ∧ choices (app w') = <[AnimeXml.id anime := c]> (choices (app w))
       ∧ likedShows (app w') =
           match c with
           | liked => likedShows (app w) ++ [data]
           | disliked => likedShows (app w)
           end).
Proof.
  intros Hstep.
  destruct e as [dt|c|parsed stored rnd|k parsed saved rnd|k|k|k r];
    try (left; by destruct (step_session _ w w' Hstep eq_refl) as (_ & -> & -> & ->));
    simpl in Hstep.
  - injection Hstep as <-.
    destruct (handleChoice_cases c w)
      as [[_ ->]|[(_ & _ & ->)|(anime & data & _ & Hcur & Hdata & ->)]];
      [by left|by left|].
    right; right. exists c, anime, data.
    destruct (effect_session
      (mkWorld
         (mkApp (animeList (app w)) (currentIndex (app w) + 1) (Some data)
            (<[AnimeXml.id anime := c]> (choices (app w)))
            (match c with
             | liked => likedShows (app w) ++ [data]
             | disliked => likedShows (app w)
             end)
            true (showUpload (app w)) (cacheRef (app w)))
         (now w) (pending w ++ [Cooldown (now w + 1000)]) (calls w) (passes w)))
      as (-> & -> & ->).
    done.
  - injection Hstep as <-.
    destruct (handleFileUpload_cases parsed stored rnd w)
      as [->|(e & l & -> & -> & ->)]; [by left|].
    right; left.
    by destruct (effect_session
      (mkWorld (mkApp (shuffle rnd (e :: l)) 0 None ∅ [] (isCooldown (app w)) false ∅)
         (now w) (pending w) (calls w) (passes w))) as (-> & -> & ->).
  - destruct (pending w !! k) as [[]|]; try discriminate Hstep.
    injection Hstep as <-. left. unfold xml_loaded.
    match goal with |- context [effect ?x] =>
      destruct (effect_session x) as (-> & -> & ->) end.
    by destruct saved.
Qed.

Lemma step_animeList e w w' :
  step e w = Some w' → loads_list e = false → animeList (app w') = animeList (app w).
Proof.
  intros Hstep Hload.
  destruct e as [dt|c|parsed stored rnd|k parsed saved rnd|k|k|k r];
    try discriminate Hload;
    try (by destruct (step_session _ w w' Hstep eq_refl) as (-> & _));
    simpl in Hstep.
  injection Hstep as <-.
  destruct (handleChoice_cases c w)
    as [[_ ->]|[(_ & _ & ->)|(anime & data & _ & Hcur & Hdata & ->)]]; [done|done|].
  by rewrite effect_animeList.
Qed.

Lemma decisions_step e w w' :
  step e w = Some w' →
  length (likedShows (app w)) ≤ currentIndex (app w) →
  size (choices (app w)) ≤ currentIndex (app w) →
  length (likedShows (app w')) ≤ currentIndex (app w')
  ∧ size (choices (app w')) ≤ currentIndex (app w')
  ∧ currentIndex (app w') ≤ currentIndex (app w) + (if is_click e then 1 else 0).
Proof.
  intros Hstep Hliked Hchoices.
  destruct (step_decisions e w w' Hstep)
    as [(-> & -> & ->)|[(_ & -> & -> & ->)|(c & anime & data & -> & _ & _ & -> & -> & ->)]].
  - split_and!; [done|done|lia].
  - rewrite map_size_empty. simpl. lia.
  - split_and!.
    + destruct c; [rewrite length_app; simpl|]; lia.
    + rewrite map_size_insert. destruct (choices (app w) !! _); simpl; lia.
    + simpl. lia.
Qed.

(** X5: at every point of a session the cursor has moved at most once per
    click, and the liked list and the record of decisions hold at most one
    entry per position the cursor has passed. *)
Theorem decisions_are_bounded_by_the_cursor (es : list Event) (w : World) :
  run es init = Some w →
  length (likedShows (app w)) ≤ currentIndex (app w)
  ∧ size (choices (app w)) ≤ currentIndex (app w)
  ∧ currentIndex (app w) ≤ length (filter (λ e, is_click e = true) es).
Proof.
  assert (∀ es w0 w,
    run es w0 = Some w →
    length (likedShows (app w0)) ≤ currentIndex (app w0) →
    size (choices (app w0)) ≤ currentIndex (app w0) →
    length (likedShows (app w)) ≤ currentIndex (app w)
    ∧ size (choices (app w)) ≤ currentIndex (app w)
    ∧ currentIndex (app w) ≤
        currentIndex (app w0) + length (filter (λ e, is_click e = true) es)) as Hgen.
  { clear es w. induction es as [|e es IH]; intros w0 w Hrun Hliked Hchoices.
    - injection Hrun as <-. simpl. lia.
    - rewrite run_cons in Hrun. destruct (step e w0) as [w1|] eqn:Hstep; [|done].
      destruct (decisions_step e w0 w1 Hstep Hliked Hchoices) as (Hl1 & Hc1 & Hcur).
      destruct (IH w1 w Hrun Hl1 Hc1) as (Hl & Hc & Hcur').
      split_and!; [done|done|].
      rewrite filter_cons.
      destruct (decide (is_click e = true)) as [He|He]; simpl.
      + destruct (is_click e); lia.
      + destruct (is_click e); [done|lia]. }
  intros Hrun. destruct (Hgen es init w Hrun) as (Hl & Hc & Hcur).
  - simpl. lia.
  - simpl. rewrite map_size_empty. lia.
  - done.
Qed.

Lemma decisions_are_bounded_by_the_cursor_witness :
  run (first_resolved ++ two_decisions) init = Some exhausted_world
  ∧ length (likedShows (app exhausted_world)) ≤ currentIndex (app exhausted_world)
  ∧ size (choices (app exhausted_world)) ≤ currentIndex (app exhausted_world)
  ∧ currentIndex (app exhausted_world) ≤ 2.
Proof.
  assert (run (first_resolved ++ two_decisions) init = Some exhausted_world) as Hrun
    by (vm_compute; reflexivity).
  split; [exact Hrun|].
  exact (decisions_are_bounded_by_the_cursor _ _ Hrun).
Defined.

(** ** A session on one list only moves forward *)

Lemma forward_step e w w' :
  step e w = Some w' → loads_list e = false →
  animeList (app w') = animeList (app w)
  ∧ currentIndex (app w) ≤ currentIndex (app w')
  ∧ (currentIndex (app w) ≤ length (animeList (app w)) →
     currentIndex (app w') ≤ length (animeList (app w)))
  ∧ likedShows (app w) `prefix_of` likedShows (app w')
  ∧ dom (choices (app w)) ⊆ dom (choices (app w')).
Proof.
  intros Hstep Hload. split; [by apply (step_animeList e)|].
  destruct (step_decisions e w w' Hstep)
    as [(-> & -> & ->)|[(Hreset & _)|(c & anime & data & -> & Hcur & _ & -> & -> & ->)]].
  - done.
  - by destruct e as [| |[|] [|]| | | |].
  - apply lookup_lt_Some in Hcur. split_and!; [lia|lia| |].
    + destruct c; [by apply prefix_app_r|done].
    + rewrite dom_insert_L. set_solver.
Qed.

(** X6: as long as no list is loaded, the list stays the same, the
    cursor never moves back and never passes the end of the list, the
    liked titles are only appended to, and no identifier loses its
    decision. *)
Theorem session_only_moves_forward (es : list Event) (w w' : World) :
  forallb (λ e, negb (loads_list e)) es = true →
  run es w = Some w' →
  currentIndex (app w) ≤ length (animeList (app w)) →
  animeList (app w') = animeList (app w)
  ∧ currentIndex (app w) ≤ currentIndex (app w') ≤ length (animeList (app w))
  ∧ likedShows (app w) `prefix_of` likedShows (app w')
  ∧ dom (choices (app w)) ⊆ dom (choices (app w')).
Proof.
  revert w. induction es as [|e es IH]; intros w Hes Hrun Hcur.
  - injection Hrun as <-. done.
  - rewrite run_cons in Hrun. destruct (step e w) as [w1|] eqn:Hstep; [|done].
    simpl in Hes. apply andb_prop in Hes as [He Hes]. apply negb_true_iff in He.
    destruct (forward_step e w w1 Hstep He) as (Hl1 & Hc1 & Hb1 & Hp1 & Hd1).
    destruct (IH w1 Hes Hrun) as (Hl & Hc & Hp & Hd).
    { rewrite Hl1. by apply Hb1. }
    rewrite Hl1 in Hl, Hc. split_and!; [done|lia|lia| |].
    + by etrans.
    + by etrans.
Qed.

Lemma session_only_moves_forward_witness :
  run two_decisions resolved_world = Some exhausted_world
  ∧ animeList (app exhausted_world) = animeList (app resolved_world)
  ∧ currentIndex (app resolved_world) ≤ currentIndex (app exhausted_world)
      ≤ length (animeList (app resolved_world))
  ∧ likedShows (app resolved_world) `prefix_of` likedShows (app exhausted_world)
  ∧ dom (choices (app resolved_world)) ⊆ dom (choices (app exhausted_world)).
Proof.
  assert (run two_decisions resolved_world = Some exhausted_world) as Hrun
    by (vm_compute; reflexivity).
  split; [exact Hrun|].
  apply (session_only_moves_forward two_decisions resolved_world exhausted_world).
  - reflexivity.
  - exact Hrun.
  - vm_compute. lia.
Defined.

(** ** What an accepted decision sets off *)

(** X7: an accepted decision moves to the next entry and resolves it at
    once, the next entry being one whose identifier is not a name
    inherited from [Object.prototype]: past the end of the list the
    metadata is dropped and no call is made; a cached entry is shown from
    the cache without a call; otherwise the metadata of the entry just
    decided stays in place and at most one call is made, a foreground call
    for the next entry at the time of the click, and none when its
    identifier is not a number. *)
Theorem accepted_decision_resolves_the_next_entry
    (c : Choice) (w : World) (anime : AnimeXml.t) (data : JikanAnime.t) :
  isCooldown (app w) = false →
  animeList (app w) !! currentIndex (app w) = Some anime →
  jikanData (app w) = Some data →
  (∀ nxt, animeList (app w) !! (currentIndex (app w) + 1) = Some nxt →
          inherited (AnimeXml.id nxt) = false) →
  match animeList (app w) !! (currentIndex (app w) + 1) with
  | None =>
      jikanData (app (handleChoice c w)) = None
      ∧ calls (handleChoice c w) = calls w
      ∧ pending (handleChoice c w) = pending w ++ [Cooldown (now w + 1000)]
  | Some nxt =>
      match cacheRef (app w) !! AnimeXml.id nxt with
      | Some cached =>
          jikanData (app (handleChoice c w)) = Some cached
          ∧ calls (handleChoice c w) = calls w
      | None =>
          jikanData (app (handleChoice c w)) = Some data
          ∧ calls (handleChoice c w) =
              calls w ++
              match parseInt (AnimeXml.id nxt) with
              | Some n => [mkCall (now w) (AnimeXml.id nxt) n Foreground]
              | None => []
              end
      end
  end.
Proof.
  intros Hcool Hcur Hdata _.
  rewrite (handleChoice_accept c w anime data Hcool Hcur Hdata), effect_eq.
  unfold effect_jikanData, effect_calls, effect_tasks, load_calls.
  cbn [app now pending calls passes animeList currentIndex cacheRef jikanData
       setJikanData].
  destruct (animeList (app w) !! (currentIndex (app w) + 1)) as [nxt|].
  - destruct (cacheRef (app w) !! AnimeXml.id nxt) as [cached|].
    + by rewrite app_nil_r.
    + by destruct (parseInt (AnimeXml.id nxt)).
  - by rewrite !app_nil_r.
Qed.

Lemma accepted_decision_resolves_the_next_entry_witness :
  jikanData (app (handleChoice liked resolved_world)) = Some bebop_data
  ∧ calls (handleChoice liked resolved_world) =
      calls resolved_world ++ [mkCall 0 "6" 6 Foreground].
Proof.
  apply (accepted_decision_resolves_the_next_entry liked resolved_world bebop bebop_data
           eq_refl eq_refl eq_refl).
  intros nxt [= <-]. reflexivity.
Defined.

(** ** The main picker and the two buttons *)

Lemma main_picker_effect w :
  main_picker (app (effect w)) =
    match animeList (app w) !! currentIndex (app w) with
    | None => NoMoreAnime
    | Some anime =>
        match cacheRef (app w) !! AnimeXml.id anime with
        | Some data => main_picker (setJikanData (Some data) (app w))
        | None => main_picker (app w)
        end
    end.
Proof.
  rewrite effect_eq. unfold main_picker, effect_jikanData. simpl.
  destruct (animeList (app w) !! currentIndex (app w)) as [anime|]; [|done].
  by destruct (cacheRef (app w) !! AnimeXml.id anime).
Qed.

(** X8: the two buttons are always there, and a click on one of them
    moves the cursor exactly when a card is shown and no cooldown is
    running; the title then liked is the one whose title the card shows.
    Every other click leaves the cursor, the decisions, the liked titles
    and the main picker as they are. *)
Theorem click_takes_effect_iff_a_card_is_shown (c : Choice) (w : World) :
  match main_picker (app w), isCooldown (app w) with
  | ShowCard card, false =>
      currentIndex (app (handleChoice c w)) = currentIndex (app w) + 1
      ∧ ∃ data,
          card_title card = JikanAnime.title data
          ∧ likedShows (app (handleChoice c w)) =
              match c with
              | liked => likedShows (app w) ++ [data]
              | disliked => likedShows (app w)
              end
  | _, _ =>
      currentIndex (app (handleChoice c w)) = currentIndex (app w)
      ∧ choices (app (handleChoice c w)) = choices (app w)
      ∧ likedShows (app (handleChoice c w)) = likedShows (app w)
      ∧ main_picker (app (handleChoice c w)) = main_picker (app w)
  end.
Proof.
  destruct (handleChoice_cases c w)
    as [[Hcool ->]|[(Hcool & Hnone & ->)|(anime & data & Hcool & Hcur & Hdata & ->)]].
  - rewrite Hcool. by destruct (main_picker (app w)).
  - rewrite Hcool. unfold main_picker. simpl.
    destruct Hnone as [->| ->]; [done|]. by destruct (animeList _ !! _).
  - rewrite Hcool. unfold main_picker at 1. rewrite Hcur, Hdata.
    match goal with |- context [effect ?x] =>
      destruct (effect_session x) as (-> & _ & ->) end.
    split; [done|]. by exists data.
Qed.

(** X9: the loading message comes up only when a list is loaded or when
    a foreground call fails; a click never brings it up, whatever the
    next entry is. *)
Theorem loading_message_comes_only_from_loads_and_failures
    (e : Event) (w w' : World) :
  step e w = Some w' →
  main_picker (app w') = LoadingAnimeData →
  main_picker (app w) = LoadingAnimeData
  ∨ loads_list e = true
  ∨ ∃ k id r, e = Response k r ∧ pending w !! k = Some (FgFetch id) ∧ failed r = true.
Proof.
  intros Hstep Hview. step_inv Hstep; try by (right; left).
  - by left.
  - destruct (handleChoice_cases choice w)
      as [[_ Heq]|[(_ & _ & Heq)|(anime & data & _ & Hcur & Hdata & Heq)]];
      rewrite Heq in Hview; [by left|by left|].
    rewrite main_picker_effect in Hview. exfalso. revert Hview.
    unfold main_picker. simpl.
    destruct (animeList (app w) !! (currentIndex (app w) + 1)) as [nxt|]; [|done].
    by destruct (cacheRef (app w) !! AnimeXml.id nxt).
  - by left.
  - by left.
  - by left.
  - destruct r as [data| |].
    + exfalso. revert Hview. unfold main_picker. simpl.
      by destruct (animeList (app w) !! currentIndex (app w)).
    + right; right. by exists k, id, (NotOk code).
    + right; right. by exists k, id, Rejected.
  - left. revert Hview. unfold prefetch_resume. rewrite prefetch_from_eq.
    by destruct r.
Qed.

Lemma loading_message_comes_only_from_loads_and_failures_witness :
  step (Response 2 Rejected) overlap_world = Some failed_world
  ∧ main_picker (app failed_world) = LoadingAnimeData
  ∧ (main_picker (app overlap_world) = LoadingAnimeData
     ∨ loads_list (Response 2 Rejected) = true
     ∨ ∃ k id r, Response 2 Rejected = Response k r
                 ∧ pending overlap_world !! k = Some (FgFetch id) ∧ failed r = true).
Proof.
  assert (step (Response 2 Rejected) overlap_world = Some failed_world) as Hstep
    by (vm_compute; reflexivity).
  assert (main_picker (app failed_world) = LoadingAnimeData) as Hview
    by (vm_compute; reflexivity).
  split_and!; [exact Hstep|exact Hview|].
  exact (loading_message_comes_only_from_loads_and_failures _ _ _ Hstep Hview).
Defined.

(** ** The end of the list *)

Lemma exhausted_step e w w' :
  animeList (app w) !! currentIndex (app w) = None →
  loads_list e = false → step e w = Some w' →
  animeList (app w') = animeList (app w)
  ∧ currentIndex (app w') = currentIndex (app w)
  ∧ choices (app w') = choices (app w)
  ∧ likedShows (app w') = likedShows (app w)
  ∧ passes w' = passes w
  ∧ ∃ new, calls w' = calls w ++ new ∧ Forall (λ c, is_foreground c = false) new.
Proof.
  intros Hcur Hload Hstep. step_inv Hstep; try discriminate Hload.
  - split_and!; try done. exists []. by rewrite app_nil_r.
  - destruct (handleChoice_cases choice w)
      as [[_ ->]|[(_ & _ & ->)|(anime & data & _ & Hsome & _)]]; [| |congruence];
      (split_and!; try done; exists []; by rewrite app_nil_r).
  - split_and!; try done. exists []. by rewrite app_nil_r.
  - split_and!; try done. eexists. split; [done|]. by apply Forall_singleton.
  - split_and!; try done. exists []. by rewrite app_nil_r.
  - unfold loadAnimeData_resume.
    destruct r; (split_and!; try done; exists []; by rewrite app_nil_r).
  - unfold prefetch_resume. rewrite prefetch_from_eq.
    destruct r; (split_and!; try done; exists []; by rewrite app_nil_r).
Qed.

(** X10: past the last entry the session is over until a list is loaded.
    The cursor, the decisions and the liked titles stay as they are, the
    main picker says that no title is left, no pass is started and no
    foreground call is made; the only calls still made are those of the
    passes that were already running. *)
Theorem exhaustion_is_final (es : list Event) (w w' : World) :
  animeList (app w) !! currentIndex (app w) = None →
  forallb (λ e, negb (loads_list e)) es = true →
  run es w = Some w' →
  currentIndex (app w') = currentIndex (app w)
  ∧ choices (app w') = choices (app w)
  ∧ likedShows (app w') = likedShows (app w)
  ∧ main_picker (app w') = NoMoreAnime
  ∧ passes w' = passes w
  ∧ take (length (calls w)) (calls w') = calls w
  ∧ Forall (λ c, is_foreground c = false) (calls_after (length (calls w)) w').
Proof.
  intros Hcur Hes Hrun.
  assert (animeList (app w') = animeList (app w)
          ∧ currentIndex (app w') = currentIndex (app w)
          ∧ choices (app w') = choices (app w)
          ∧ likedShows (app w') = likedShows (app w)
          ∧ passes w' = passes w
          ∧ ∃ new, calls w' = calls w ++ new ∧ Forall (λ c, is_foreground c = false) new)
    as (Hl & Hc & Hch & Hli & Hp & new & Hcalls & Hnew).
  { revert w Hcur Hes Hrun. induction es as [|e es IH]; intros w Hcur Hes Hrun.
    - injection Hrun as <-. split_and!; try done. exists []. by rewrite app_nil_r.
    - rewrite run_cons in Hrun. destruct (step e w) as [w1|] eqn:Hstep; [|done].
      simpl in Hes. apply andb_prop in Hes as [He Hes]. apply negb_true_iff in He.
      destruct (exhausted_step e w w1 Hcur He Hstep)
        as (Hl1 & Hc1 & Hch1 & Hli1 & Hp1 & new1 & Hcalls1 & Hnew1).
      destruct (IH w1) as (Hl & Hc & Hch & Hli & Hp & new & Hcalls & Hnew);
        [by rewrite Hl1, Hc1|done|done|].
      split_and!; try congruence.
      exists (new1 ++ new). split.
      + by rewrite Hcalls, Hcalls1, app_assoc.
      + by apply Forall_app. }
  split_and!; try done.
  - unfold main_picker. by rewrite Hl, Hc, Hcur.
  - by rewrite Hcalls, take_app_length.
  - unfold calls_after. by rewrite Hcalls, drop_app_length.
Qed.

Lemma exhaustion_is_final_witness :
  run after_the_end finished_world = Some idle_world
  ∧ currentIndex (app idle_world) = 2
  ∧ main_picker (app idle_world) = NoMoreAnime
  ∧ passes idle_world = passes finished_world
  ∧ (λ c, (call_id c, call_origin c)) <$> calls_after 2 idle_world = [("6", Prefetch 0 1)].
Proof.
  assert (run after_the_end finished_world = Some idle_world) as Hrun
    by (vm_compute; reflexivity).
  destruct (exhaustion_is_final after_the_end finished_world idle_world)
    as (Hcur & _ & _ & Hview & Hpasses & _ & _); [reflexivity|reflexivity|exact Hrun|].
  split_and!; [exact Hrun|exact Hcur|exact Hview|exact Hpasses|vm_compute; reflexivity].
Defined.

(** ** Reading an export *)

Lemma append_empty_r (s : string) : s +:+ "" = s.
Proof.
  induction s as [|a s IH]; [done|].
  change (String a (s +:+ "") = String a s). by rewrite IH.
Qed.

Lemma text_of_items tag items :
  text_of tag (Element "anime" (item_node <$> items)) = field_value tag items.
Proof.
  unfold text_of, getElementsByTagName. simpl.
  induction items as [|[t v|s] items IH]; simpl; [done| |done].
  destruct (String.eqb t tag); [|done]. simpl. apply append_empty_r.
Qed.

Lemma anime_below_items items :
  forallb (λ i, negb (is_anime_field i)) items = true →
  List.filter (has_tag "anime") (flat_map (λ c, c :: descendants c) (item_node <$> items))
  = [].
Proof.
  induction items as [|[t v|s] items IH]; simpl; [done| |done].
  intros [Ht Hitems]%andb_prop. apply negb_true_iff in Ht. rewrite Ht. by apply IH.
Qed.

(** X11: in a document of the shape of an export, [parsed] lists the
    [anime] elements in document order; each of its fields is the text of
    the first child element of that name, and the empty string when there
    is none; white space and other elements are passed over. *)
Theorem entries_of_an_export (rows : list (list Item + Item)) :
  plain rows = true →
  entries_of (document_of rows) = titles_of rows.
Proof.
  unfold entries_of, document_of, getElementsByTagName, titles_of, plain.
  cbn [descendants flat_map]. rewrite app_nil_r.
  change (List.filter (has_tag "anime") (Element "myanimelist" (element_of <$> rows) :: ?l))
    with (List.filter (has_tag "anime") l).
  cbn [descendants].
  induction rows as [|[items|i] rows IH]; intros Hplain; [done| |].
  - apply andb_prop in Hplain as [Hitems Hrows].
    cbn [fmap list_fmap flat_map omap list_omap element_of].
    rewrite List.filter_app. cbn [List.filter has_tag app descendants].
    change (String.eqb "anime" "anime") with true. cbv iota.
    rewrite (anime_below_items items Hitems), fmap_app, IH by done.
    change (entry_of <$> [?x]) with [entry_of x].
    unfold entry_of, row_entry. by rewrite !text_of_items.
  - apply andb_prop in Hplain as [Hi Hrows]. apply negb_true_iff in Hi.
    cbn [fmap list_fmap flat_map omap list_omap element_of].
    rewrite List.filter_app.
    destruct i as [t v|s]; simpl in Hi; cbn [item_node List.filter has_tag app descendants flat_map].
    + rewrite Hi. simpl. by apply IH.
    + simpl. by apply IH.
Qed.

Lemma entries_of_an_export_witness :
  entries_of (export_of two_titles) = two_titles.
Proof.
  exact (entries_of_an_export
           (inr (Field "myinfo" "") :: ((λ a, inl (items_of a)) <$> two_titles)) eq_refl).
Defined.

(** ** The upload dialog *)

Lemma endsWith_spec s suffix :
  endsWith s suffix = true ↔ ∃ stem, s = stem +:+ suffix.
Proof.
  split.
  - induction s as [|a s IH]; cbn [endsWith].
    + rewrite orb_false_r. intros Heq%String.eqb_eq. by exists "".
    + intros [Heq%String.eqb_eq|Hs]%orb_prop; [by exists ""|].
      destruct (IH Hs) as [stem ->]. by exists (String a stem).
  - intros [stem ->]. induction stem as [|a stem IH].
    + change ("" +:+ suffix) with suffix.
      destruct suffix; cbn [endsWith]; by rewrite String.eqb_refl.
    + change (String a stem +:+ suffix) with (String a (stem +:+ suffix)).
      cbn [endsWith]. rewrite IH. apply orb_true_r.
Qed.

(** X12: a drop ends the drag and touches neither the component nor the
    stored export.  The file dropped is read exactly when its name ends
    in [.xml], in lower case; with another name, or without a file, the
    only thing that happens is an alert.  A file chosen with the file
    input is read whatever its name. *)
Theorem handleDrop_reads_only_xml_files (file : option File.t) (p : Page) :
  isDragging (handleDrop file p) = false
  ∧ world (handleDrop file p) = world p
  ∧ userAnimeXml (handleDrop file p) = userAnimeXml p
  ∧ match file with
    | Some f =>
        ((∃ stem, File.name f = stem +:+ ".xml") →
         reading (handleDrop file p) = reading p ++ [f]
         ∧ alerts (handleDrop file p) = alerts p)
        ∧ ((¬ ∃ stem, File.name f = stem +:+ ".xml") →
           reading (handleDrop file p) = reading p
           ∧ alerts (handleDrop file p) = alerts p ++ [NotAnXmlFile])
    | None =>
        reading (handleDrop file p) = reading p
        ∧ alerts (handleDrop file p) = alerts p ++ [NotAnXmlFile]
    end
  ∧ ∀ f, reading (onChange (Some f) p) = reading p ++ [f].
Proof.
  unfold handleDrop. destruct file as [f|]; [|done].
  destruct (endsWith (File.name f) ".xml") eqn:Hname.
  - do 3 (split; [done|]). split; [|done]. split; [done|].
    intros Hno. destruct Hno. by apply endsWith_spec.
  - do 3 (split; [done|]). split; [|done]. split; [|done].
    intros Hyes%endsWith_spec. congruence.
Qed.

(** ** The stored export *)

Lemma in_world_Some r p p' :
  in_world r p = Some p' →
  ∃ w, r = Some w ∧ p' = with_world (λ _, w) p.
Proof. destruct r as [w|]; [|done]. intros [= <-]. by exists w. Qed.

(** What a step of the page does to the stored export and to the two
    dialogs' flags, by cases. *)
Lemma page_step_storage parse e p p' :
  page_step parse e p = Some p' →
  (userAnimeXml p' = userAnimeXml p
   ∧ ((savedXml p' = savedXml p
       ∧ (showClearConfirm p' = showClearConfirm p
          ∨ showClearConfirm p' = false
          ∨ truthy (userAnimeXml p) = true))
      ∨ (savedXml p' = userAnimeXml p ∧ showClearConfirm p' = false)))
  ∨ (∃ x, userAnimeXml p' = Some x ∧ entries_of (parse x) ≠ []
          ∧ savedXml p' = savedXml p ∧ showClearConfirm p' = showClearConfirm p)
  ∨ (userAnimeXml p' = None ∧ savedXml p' = None ∧ showClearConfirm p' = false).
Proof.
  destruct e as [e|k rnd|k str rnd|k| | | | |file|file|k stored rnd| | | |]; simpl.
  - destruct (component_event e); [|done].
    intros (w & _ & ->)%in_world_Some. left. split; [done|]. left. split; [done|by left].
  - destruct (savedXml p) as [[|c s]|] eqn:Hs; try done.
    intros (w & _ & ->)%in_world_Some. left. split; [done|]. left. split; [done|by left].
  - destruct (truthy (savedXml p)); [done|].
    intros (w & _ & ->)%in_world_Some. left. split; [done|]. left. split; [done|by left].
  - destruct (truthy (savedXml p)); [done|].
    intros (w & _ & ->)%in_world_Some. left. split; [done|]. left. split; [done|by left].
  - intros [= <-]. left. split; [done|]. left. split; [done|by left].
  - destruct (showUpload _); [|done].
    intros [= <-]. left. split; [done|]. left. split; [done|by left].
  - destruct (showUpload _); [|done].
    intros [= <-]. left. split; [done|]. left. split; [done|by left].
  - destruct (showUpload _); [|done].
    intros [= <-]. left. split; [done|]. left. split; [done|by left].
  - destruct (showUpload _); [|done].
    intros [= <-]. left. split; [by destruct file as [f|]; [simpl; destruct (endsWith _ _)|]|].
    left. split; [by destruct file as [f|]; [simpl; destruct (endsWith _ _)|]|].
    left. by destruct file as [f|]; [simpl; destruct (endsWith _ _)|].
  - destruct (showUpload _); [|done].
    intros [= <-]. left. split; [by destruct file|]. left.
    split; [by destruct file|]. left. by destruct file.
  - destruct (reading p !! k) as [f|]; [|done]. simpl. intros [= <-].
    unfold onload.
    destruct (entries_of (parse (File.text f))) as [|e l] eqn:Hparsed.
    + left. split; [done|]. left. split; [done|by left].
    + destruct stored.
      * right; left. exists (File.text f). by rewrite Hparsed.
      * left. split; [done|]. left. split; [done|by left].
  - destruct (showUpload _); [|done]. simpl.
    destruct (truthy (userAnimeXml p)) eqn:Hitem; [|done].
    intros [= <-]. left. split; [done|]. left. split; [done|]. by right; right.
  - destruct (showClearConfirm p); [|done].
    intros [= <-]. left. split; [done|]. left. split; [done|]. by right; left.
  - destruct (showClearConfirm p); [|done].
    intros [= <-]. by right; right.
  - intros [= <-]. left. split; [done|]. by right.
Qed.

Lemma page_run_cons parse e es p :
  page_run parse (e :: es) p = p' ← page_step parse e p; page_run parse es p'.
Proof. reflexivity. Qed.

Lemma has_entries_run parse es p p' :
  page_run parse es p = Some p' →
  has_entries parse (userAnimeXml p) → has_entries parse (savedXml p) →
  has_entries parse (userAnimeXml p') ∧ has_entries parse (savedXml p').
Proof.
  revert p. induction es as [|e es IH]; intros p Hrun Hitem Hsaved.
  - by injection Hrun as <-.
  - rewrite page_run_cons in Hrun.
    destruct (page_step parse e p) as [p1|] eqn:Hstep; [|done]. simpl in Hrun.
    assert (has_entries parse (userAnimeXml p1) ∧ has_entries parse (savedXml p1))
      as [Hitem1 Hsaved1]; [|by apply (IH p1)].
    destruct (page_step_storage parse e p p1 Hstep)
      as [(-> & [(-> & _)|(-> & _)])|[(x & -> & Hx & -> & _)|(-> & -> & _)]];
      try done.
    split; [|done]. by intros ? [= <-].
Qed.

(** X13: the export that the page stores always has entries, so a page
    that loads its list from the stored export never starts on an empty
    list: the list has as many entries as the stored document, none of
    the session is restored and the upload prompt is not brought up. *)
Theorem stored_export_has_entries
    (parseFromString : string → Node) (item : option string)
    (es : list PageEvent) (p p' : Page) (k : nat) (rnd : nat → Draw) :
  has_entries parseFromString item →
  page_run parseFromString es (mount item) = Some p →
  page_step parseFromString (LoadResolved k rnd) p = Some p' →
  has_entries parseFromString (userAnimeXml p)
  ∧ ∃ x, savedXml p = Some x
      ∧ animeList (app (world p')) ≡ₚ entries_of (parseFromString x)
      ∧ animeList (app (world p')) ≠ []
      ∧ showUpload (app (world p')) = showUpload (app (world p)).
Proof.
  intros Hitem Hrun Hstep.
  destruct (has_entries_run parseFromString es (mount item) p Hrun Hitem Hitem)
    as [Hstored Hsaved].
  split; [done|]. simpl in Hstep.
  destruct (savedXml p) as [[|c s]|] eqn:Hs; try done.
  exists (String c s). split; [done|].
  apply in_world_Some in Hstep as (w & Hw & ->). simpl in Hw.
  destruct (pending (world p) !! k) as [[]|]; try done. injection Hw as <-.
  unfold xml_loaded. cbn [world with_world].
  assert (shuffle rnd (entries_of (parseFromString (String c s)))
          ≡ₚ entries_of (parseFromString (String c s))) as Hperm by apply shuffle_perm.
  rewrite effect_animeList. split_and!.
  - done.
  - intros Hnil. cbn in Hnil. rewrite Hnil in Hperm.
    apply Permutation_nil_l in Hperm. by apply (Hsaved (String c s)).
  - by rewrite effect_eq.
Qed.

Lemma stored_export_has_entries_witness :
  page_run sample_parser (first_visit ++ [Reload]) (mount None) = Some reloaded_page
  ∧ page_step sample_parser (LoadResolved 0 zero_draws) reloaded_page = Some restored_page
  ∧ ∃ x, savedXml reloaded_page = Some x
      ∧ animeList (app (world restored_page)) ≡ₚ entries_of (sample_parser x)
      ∧ animeList (app (world restored_page)) ≠ []
      ∧ showUpload (app (world restored_page)) = showUpload (app (world reloaded_page)).
Proof.
  assert (page_run sample_parser (first_visit ++ [Reload]) (mount None)
          = Some reloaded_page) as Hrun by (vm_compute; reflexivity).
  assert (page_step sample_parser (LoadResolved 0 zero_draws) reloaded_page
          = Some restored_page) as Hstep by (vm_compute; reflexivity).
  split_and!; [exact Hrun|exact Hstep|].
  apply (stored_export_has_entries sample_parser None (first_visit ++ [Reload])
           reloaded_page restored_page 0 zero_draws); [|exact Hrun|exact Hstep].
  intros x Hx. discriminate Hx.
Defined.

(** X14: an export that was read and stored comes back after a reload:
    the list of the new page is a rearrangement of the list shown after
    the upload, the session starts again at the first entry, and the
    upload prompt stays closed. *)
Theorem reload_restores_the_uploaded_list
    (parseFromString : string → Node) (p : Page) (k : nat) (f : File.t)
    (rnd rnd' : nat → Draw) :
  reading p !! k = Some f →
  File.text f ≠ "" →
  entries_of (parseFromString (File.text f)) ≠ [] →
  ∃ p1 p2,
    page_step parseFromString (FileRead k true rnd) p = Some p1
    ∧ userAnimeXml p1 = Some (File.text f)
    ∧ page_run parseFromString [Reload; LoadResolved 0 rnd'] p1 = Some p2
    ∧ animeList (app (world p2)) ≡ₚ animeList (app (world p1))
    ∧ animeList (app (world p2)) ≡ₚ entries_of (parseFromString (File.text f))
    ∧ currentIndex (app (world p2)) = 0
    ∧ choices (app (world p2)) = ∅
    ∧ likedShows (app (world p2)) = []
    ∧ showUpload (app (world p2)) = false
    ∧ userAnimeXml p2 = Some (File.text f).
Proof.
  intros Hk Htext Hparsed.
  destruct (entries_of (parseFromString (File.text f))) as [|e l] eqn:Hentries; [done|].
  destruct (File.text f) as [|c s] eqn:Hf; [done|].
  eexists _, _. split.
  { cbn [page_step]. rewrite Hk. cbn [mbind option_bind]. unfold onload.
    cbn [File.text]. rewrite Hf, Hentries. reflexivity. }
  split; [done|]. split.
  { cbn [page_run page_step userAnimeXml mbind option_bind mount savedXml world].
    cbn [step init pending lookup list_lookup in_world mbind option_bind].
    reflexivity. }
  unfold xml_loaded. cbn [world with_world userAnimeXml].
  rewrite !effect_animeList, Hentries.
  destruct (effect_session
    (with_app (setAnimeList (shuffle rnd' (e :: l))) (retire 0 init))) as (-> & -> & ->).
  split_and!; try done.
  - unfold handleFileUpload. rewrite effect_animeList. cbn.
    by rewrite !shuffle_perm.
  - cbn. by rewrite shuffle_perm.
  - by rewrite effect_eq.
Qed.

Lemma reload_restores_the_uploaded_list_witness :
  ∃ p1 p2,
    page_step sample_parser (FileRead 0 true high_draws) chosen_page = Some p1
    ∧ userAnimeXml p1 = Some two_titles_xml
    ∧ page_run sample_parser [Reload; LoadResolved 0 zero_draws] p1 = Some p2
    ∧ animeList (app (world p2)) ≡ₚ animeList (app (world p1))
    ∧ animeList (app (world p2)) ≡ₚ entries_of (sample_parser two_titles_xml)
    ∧ currentIndex (app (world p2)) = 0
    ∧ choices (app (world p2)) = ∅
    ∧ likedShows (app (world p2)) = []
    ∧ showUpload (app (world p2)) = false
    ∧ userAnimeXml p2 = Some two_titles_xml.
Proof.
  apply (reload_restores_the_uploaded_list sample_parser chosen_page 0 two_titles_file
           high_draws zero_draws).
  - reflexivity.
  - discriminate.
  - vm_compute. discriminate.
Defined.

(** ** The clear dialog *)

Lemma clear_dialog_step parse e p p' :
  entries_of (parse "") = [] →
  page_step parse e p = Some p' →
  (showClearConfirm p = true → truthy (userAnimeXml p) = true) →
  showClearConfirm p' = true → truthy (userAnimeXml p') = true.
Proof.
  intros Hempty Hstep Hp Hflag.
  destruct (page_step_storage parse e p p' Hstep)
    as [(Hitem & [(_ & [Hsame|[Hoff|Hyes]])|(_ & Hoff)])
       |[(x & Hitem & Hx & _ & _)|(_ & _ & Hoff)]];
    try congruence.
  - rewrite Hitem. apply Hp. congruence.
  - rewrite Hitem. by destruct x.
Qed.

(** X15: the clear dialog is open only while an export is stored.
    Cancelling it keeps the export; confirming it removes the export and
    loads the page again, which then can only take the default list: the
    list shown is a rearrangement of the default list and the upload
    prompt is brought up. *)
Theorem clear_dialog_returns_to_the_default_list
    (parseFromString : string → Node) (item : option string)
    (es : list PageEvent) (p : Page) :
  entries_of (parseFromString "") = [] →
  page_run parseFromString es (mount item) = Some p →
  showClearConfirm p = true →
  truthy (userAnimeXml p) = true
  ∧ (∃ p1, page_step parseFromString CancelClear p = Some p1
           ∧ userAnimeXml p1 = userAnimeXml p ∧ world p1 = world p
           ∧ showClearConfirm p1 = false)
  ∧ ∃ p1, page_step parseFromString ConfirmClear p = Some p1
      ∧ userAnimeXml p1 = None
      ∧ (∀ k rnd, page_step parseFromString (LoadResolved k rnd) p1 = None)
      ∧ ∀ str rnd, ∃ p2,
          page_step parseFromString (LoadFetched 0 str rnd) p1 = Some p2
          ∧ animeList (app (world p2)) ≡ₚ entries_of (parseFromString str)
          ∧ currentIndex (app (world p2)) = 0
          ∧ choices (app (world p2)) = ∅
          ∧ likedShows (app (world p2)) = []
          ∧ showUpload (app (world p2)) = true
          ∧ userAnimeXml p2 = None.
Proof.
  intros Hempty Hrun Hflag. split_and!.
  - revert Hflag.
    assert (∀ es p0 p, page_run parseFromString es p0 = Some p →
              (showClearConfirm p0 = true → truthy (userAnimeXml p0) = true) →
              showClearConfirm p = true → truthy (userAnimeXml p) = true) as Hgen.
    { clear -Hempty. intros es'.
      induction es' as [|e es' IH]; intros p0 p Hrun Hp0.
      - by injection Hrun as <-.
      - rewrite page_run_cons in Hrun.
        destruct (page_step parseFromString e p0) as [p1|] eqn:Hstep; [|done].
        apply (IH p1 p Hrun). by apply (clear_dialog_step parseFromString e p0). }
    by apply (Hgen es (mount item) p).
  - exists (cancelClear p). simpl. by rewrite Hflag.
  - exists (mount None). simpl. rewrite Hflag. split_and!; try done.
    intros str rnd. eexists. split; [reflexivity|].
    unfold xml_loaded. cbn [world with_world userAnimeXml mount].
    rewrite effect_animeList.
    match goal with |- context [effect ?x] =>
      destruct (effect_session x) as (-> & -> & ->) end.
    split_and!; try done.
    + cbn. by rewrite shuffle_perm.
    + by rewrite effect_eq.
Qed.

Lemma clear_dialog_returns_to_the_default_list_witness :
  page_run sample_parser (first_visit ++ asks_to_clear) (mount None) = Some clearing_page
  ∧ truthy (userAnimeXml clearing_page) = true
  ∧ page_step sample_parser ConfirmClear clearing_page = Some (mount None).
Proof.
  assert (page_run sample_parser (first_visit ++ asks_to_clear) (mount None)
          = Some clearing_page) as Hrun by (vm_compute; reflexivity).
  destruct (clear_dialog_returns_to_the_default_list sample_parser None
              (first_visit ++ asks_to_clear) clearing_page)
    as (Hitem & _ & p1 & Hstep & _); [reflexivity|exact Hrun|reflexivity|].
  split_and!; [exact Hrun|exact Hitem|vm_compute; reflexivity].
Defined.

(** ** The list that the page starts with *)

Lemma load_of_load_tasks id cache : omap load_of (load_tasks id cache) = [].
Proof. unfold load_tasks. by repeat case_match. Qed.

Lemma load_of_scan_tasks p l c i cache t : omap load_of (scan_tasks p l c i cache t) = [].
Proof. unfold scan_tasks. by repeat case_match. Qed.

Lemma loading_effect w : loading (effect w) = loading w.
Proof.
  unfold loading. rewrite effect_eq; simpl. unfold effect_tasks.
  rewrite omap_app. destruct (animeList _ !! _); simpl.
  - by rewrite omap_app, load_of_load_tasks, load_of_scan_tasks, app_nil_r.
  - by rewrite app_nil_r.
Qed.

Lemma loading_retire k w :
  pending w !! k = Some LoadXml → first_list w →
  loading w = [()] ∧ animeList (app w) = [] ∧ omap load_of (delete k (pending w)) = [].
Proof.
  intros Hk Hw.
  destruct (omap_delete_Some load_of _ _ _ _ Hk eq_refl) as (i & Hi & Hdel).
  fold (loading w) in Hi, Hdel.
  destruct Hw as [Hnone|[Hone Hl]].
  - by rewrite Hnone in Hi.
  - split_and!; [done..|]. rewrite Hdel, Hone. rewrite Hone in Hi.
    by destruct i as [|i].
Qed.

(** Without an accepted upload, a step keeps the list, or it is the
    arrival of the text that the first effect asked for, in a world that
    has no list yet. *)
Lemma first_list_step e w w' :
  resets e = false → first_list w → step e w = Some w' →
  first_list w'
  ∧ (loads_list e = false ∨ w' = w
     ∨ ∃ k parsed saved rnd,
         e = XmlLoaded k parsed saved rnd ∧ animeList (app w) = []
         ∧ omap load_of (delete k (pending w)) = []
         ∧ w' = xml_loaded parsed saved rnd (retire k w)).
Proof.
  intros Hres Hw Hstep. unfold first_list in *. step_inv Hstep.
  - split; [done|by left].
  - split; [|by left].
    destruct (handleChoice_cases choice w)
      as [[_ ->]|[(_ & _ & ->)|(? & ? & _ & _ & _ & ->)]]; [done|..];
      rewrite ?loading_effect, ?effect_animeList; unfold loading in *; simpl;
      rewrite omap_app; simpl; by rewrite app_nil_r.
  - destruct (handleFileUpload_cases parsed stored rnd w)
      as [->|(? & ? & -> & -> & _)]; [|discriminate Hres].
    split; [done|]. by right; left.
  - destruct (loading_retire k w Hk Hw) as (_ & Hl & Hdel).
    split.
    + left. unfold xml_loaded. rewrite loading_effect. unfold loading.
      by destruct saved.
    + right; right. by exists k, parsed, saved, rnd.
  - destruct (loading_retire k w Hk Hw) as (_ & Hl & Hdel).
    split; [by left|by left].
  - split; [|by left]. unfold loading in *; simpl. rewrite omap_app; simpl.
    erewrite omap_delete_None by done. by rewrite app_nil_r.
  - split; [|by left]. unfold loading in *; simpl.
    by erewrite omap_delete_None by done.
  - split; [|by left]. unfold loading in *. unfold loadAnimeData_resume.
    destruct r; simpl; by erewrite omap_delete_None by done.
  - split; [|by left]. unfold loading in *. unfold prefetch_resume.
    rewrite prefetch_from_eq; simpl.
    rewrite omap_app, load_of_scan_tasks, app_nil_r.
    destruct r; simpl; by erewrite omap_delete_None by done.
Qed.

(** The list of a world is the one it started with, or the shuffled list
    of a text that arrived. *)
Lemma first_list_run (P : World → Prop) es w0 w :
  (∀ e w w', resets e = false → first_list w → P w → step e w = Some w' → P w') →
  forallb (λ e, negb (resets e)) es = true →
  first_list w0 → P w0 → run es w0 = Some w →
  P w
  ∧ (animeList (app w) = animeList (app w0)
     ∨ ∃ k parsed saved rnd,
         XmlLoaded k parsed saved rnd ∈ es ∧ animeList (app w) = shuffle rnd parsed).
Proof.
  intros Hstep. revert w0. induction es as [|e es IH]; intros w0 Hes Hw0 HP Hrun.
  - injection Hrun as <-. split; [done|by left].
  - rewrite run_cons in Hrun. destruct (step e w0) as [w1|] eqn:He; [|done].
    simpl in Hes. apply andb_prop in Hes as [Hres Hes]. apply negb_true_iff in Hres.
    destruct (first_list_step e w0 w1 Hres Hw0 He) as [Hw1 Hcases].
    destruct (IH w1 Hes Hw1 (Hstep e w0 w1 Hres Hw0 HP He) Hrun) as [HPw Hlist].
    split; [done|].
    destruct Hlist as [Hsame|(k & parsed & saved & rnd & Hin & Hl)].
    2:{ right. exists k, parsed, saved, rnd. split; [by apply list_elem_of_further|done]. }
    destruct Hcases as [Hload|[->|(k & parsed & saved & rnd & -> & _ & _ & ->)]].
    + left. rewrite Hsame. by apply (step_animeList e).
    + by left.
    + right. exists k, parsed, saved, rnd. split; [by apply list_elem_of_here|].
      rewrite Hsame. unfold xml_loaded. rewrite effect_animeList. by destruct saved.
Qed.

(** ** The choices of a session *)

Lemma decided_nil w id :
  decided w → animeList (app w) = [] → choices (app w) !! id = None.
Proof.
  intros Hw Hl. apply eq_None_not_Some. intros (i & e & _ & Hi & _)%Hw.
  by rewrite Hl, lookup_nil in Hi.
Qed.

Lemma choices_first_list_step e w w' :
  resets e = false → first_list w → decided w → step e w = Some w' →
  decided w'
  ∧ (animeList (app w) ≠ [] → animeList (app w') = animeList (app w))
  ∧ (∀ id, is_Some (choices (app w) !! id) → is_Some (choices (app w') !! id))
  ∧ (NoDup (AnimeXml.id <$> animeList (app w')) →
     ∀ id c, choices (app w) !! id = Some c → choices (app w') !! id = Some c).
Proof.
  intros Hres Hfirst Hw Hstep.
  destruct (first_list_step e w w' Hres Hfirst Hstep)
    as [_ [Hload|[->|(k & parsed & saved & rnd & -> & Hnil & _ & ->)]]].
  - destruct (decided_step e w w' Hload Hstep Hw) as [Hw' Hl].
    split_and!; [done|done|by eapply choices_dom_step|].
    rewrite Hl. intros Hnd. by eapply choices_kept_step.
  - done.
  - split_and!; [|done|intros id [c Hc]|intros _ id c Hc];
      try by rewrite (decided_nil w id Hw Hnil) in Hc.
    intros id [c Hc]. unfold xml_loaded in Hc.
    match type of Hc with context [effect ?x] =>
      destruct (effect_session x) as (_ & Hch & _); rewrite Hch in Hc end.
    assert (choices (app w) !! id = Some c) as Hc' by (by destruct saved).
    by rewrite (decided_nil w id Hw Hnil) in Hc'.
Qed.

Lemma choices_first_list_run es w w' :
  forallb (λ e, negb (resets e)) es = true →
  first_list w → decided w → run es w = Some w' →
  first_list w' ∧ decided w'
  ∧ (animeList (app w) ≠ [] → animeList (app w') = animeList (app w))
  ∧ (∀ id, is_Some (choices (app w) !! id) → is_Some (choices (app w') !! id))
  ∧ (NoDup (AnimeXml.id <$> animeList (app w')) →
     ∀ id c, choices (app w) !! id = Some c → choices (app w') !! id = Some c).
Proof.
  revert w. induction es as [|e es IH]; intros w Hes Hfirst Hw Hrun.
  - injection Hrun as <-. by split_and!.
  - rewrite run_cons in Hrun. destruct (step e w) as [w1|] eqn:He; [|done].
    simpl in Hes. apply andb_prop in Hes as [Hres Hes]. apply negb_true_iff in Hres.
    destruct (first_list_step e w w1 Hres Hfirst He) as [Hfirst1 _].
    destruct (choices_first_list_step e w w1 Hres Hfirst Hw He)
      as (Hw1 & Hl1 & Hdom1 & Hkept1).
    destruct (IH w1 Hes Hfirst1 Hw1 Hrun) as (Hfirst' & Hw' & Hl' & Hdom' & Hkept').
    split_and!; [done|done| |by auto|].
    + intros Hne. rewrite <- (Hl1 Hne). apply Hl'. by rewrite (Hl1 Hne).
    + intros Hnd id c Hc. apply (Hkept' Hnd). apply Hkept1; [|done].
      assert (animeList (app w) ≠ []) as Hne.
      { intros Hnil. by rewrite (decided_nil w id Hw Hnil) in Hc. }
      rewrite <- Hl'; [done|]. by rewrite (Hl1 Hne).
Qed.

(** C6, amended.  Within a session, that is from a world in which the
    choices are empty (as they are after every reset) and as long as no
    list is loaded, an identifier that has a choice keeps having one; and
    when the identifiers of the list are pairwise distinct it keeps the
    very choice that was recorded.  (When an identifier occurs at two
    positions the decision at the later position replaces the earlier
    one.)  The same holds, from any point on, of every run from the
    mounting in which no upload is accepted: there the choices are empty
    until the one list arrives, and no other list is loaded. *)
Theorem choices_are_kept_when_identifiers_are_distinct
    (w0 w w' : World) (es1 es2 : list Event) :
  choices (app w0) = ∅ →
  Forall (λ e, loads_list e = false) es1 →
  Forall (λ e, loads_list e = false) es2 →
  run es1 w0 = Some w →
  run es2 w = Some w' →
  ((∀ id, is_Some (choices (app w) !! id) → is_Some (choices (app w') !! id))
   ∧ (NoDup (AnimeXml.id <$> animeList (app w0)) →
      ∀ id c, choices (app w) !! id = Some c → choices (app w') !! id = Some c))
  ∧ (∀ es3 es4 w3 w4,
       forallb (λ e, negb (resets e)) (es3 ++ es4) = true →
       run es3 init = Some w3 →
       run es4 w3 = Some w4 →
       (∀ id, is_Some (choices (app w3) !! id) → is_Some (choices (app w4) !! id))
       ∧ (NoDup (AnimeXml.id <$> animeList (app w4)) →
          ∀ id c, choices (app w3) !! id = Some c → choices (app w4) !! id = Some c)).
Proof.
  intros Hempty Hes1 Hes2 Hrun1 Hrun2. split; [split|].
  - clear Hrun1. revert w Hrun2.
    induction Hes2 as [|e es He _ IH]; intros w Hrun id Hid; simpl in Hrun.
    + by simplify_eq.
    + destruct (step e w) as [w1|] eqn:Hstep; [|done].
      apply (IH _ Hrun). by eapply choices_dom_step.
  - intros Hnd.
    assert (decided w0) as Hw0.
    { intros id. rewrite Hempty, lookup_empty. by intros [? ?]. }
    destruct (decided_run _ _ _ Hes1 Hrun1 Hw0) as [Hw Hl].
    apply (choices_kept_run es2); [done..|by rewrite Hl].
  - clear. intros es3 es4 w3 w4 Hes Hrun3 Hrun4.
    rewrite forallb_app in Hes. apply andb_prop in Hes as [Hes3 Hes4].
    assert (first_list init) as Hfirst by (by right).
    assert (decided init) as Hinit.
    { intros id. simpl. rewrite lookup_empty. by intros [? ?]. }
    destruct (choices_first_list_run es3 init w3 Hes3 Hfirst Hinit Hrun3)
      as (Hfirst3 & Hw3 & _).
    by destruct (choices_first_list_run es4 w3 w4 Hes4 Hfirst3 Hw3 Hrun4)
      as (_ & _ & _ & Hdom & Hkept).
Qed.

Lemma choices_are_kept_when_identifiers_are_distinct_witness :
  choices (app second_decision_world) !! "1" = Some liked.
Proof.
  destruct (choices_are_kept_when_identifiers_are_distinct
              resolved_world overlap_world second_decision_world
              [Tick 900; TimerFired 0; Tick 50; Click liked]
              [Tick 1000; TimerFired 1; Click disliked])
    as ((_ & Hkept) & _).
  - reflexivity.
  - repeat constructor.
  - repeat constructor.
  - vm_compute. reflexivity.
  - vm_compute. reflexivity.
  - apply Hkept.
    + apply (bool_decide_unpack _). vm_compute. reflexivity.
    + vm_compute. reflexivity.
Defined.

(** ** How far ahead of the cursor calls are made *)

Lemma within_reach_mono l c c' id : c ≤ c' → within_reach l c id → within_reach l c' id.
Proof. intros Hc (i & e & Hi & He & Hid). exists i, e. split_and!; [lia|done..]. Qed.

Lemma frame_on_mono l c c' t : c ≤ c' → frame_on l c t → frame_on l c' t.
Proof. intros Hc. destruct t; simpl; try done; intros (? & ? & ? & ?); split_and!; try done; lia. Qed.

Lemma frame_on_scan_tasks p l c c' i cache t :
  c ≤ c' → i ≤ c + 4 →
  Forall (frame_on l c') (scan_tasks p l c i cache t).
Proof.
  intros Hc Hi. unfold scan_tasks.
  destruct (prefetch_scan _ _ _ _) as [[[j nxt] n]|] eqn:Hscan; [|done].
  apply prefetch_scan_Some in Hscan as (Hj & Hnxt & _).
  apply Forall_singleton. simpl. split_and!; [done|done|lia|done].
Qed.

Lemma frame_on_load_tasks l c id cache : Forall (frame_on l c) (load_tasks id cache).
Proof. unfold load_tasks. repeat case_match; try done. by apply Forall_singleton. Qed.

Lemma look_ahead_effect w : look_ahead w → look_ahead (effect w).
Proof.
  intros [Hpending Hcalls]. unfold look_ahead.
  rewrite effect_animeList. destruct (effect_session w) as (-> & _ & _).
  rewrite effect_eq. cbn [pending calls]. unfold effect_tasks, effect_calls.
  destruct (animeList (app w) !! currentIndex (app w)) as [anime|] eqn:Hcur.
  - split.
    + repeat (apply Forall_app; split); [done|apply frame_on_load_tasks|].
      apply frame_on_scan_tasks; lia.
    + apply Forall_app. split; [done|]. unfold load_calls.
      repeat case_match; try done. apply Forall_singleton. simpl.
      exists (currentIndex (app w)), anime. split_and!; [lia|done..].
  - by rewrite !app_nil_r.
Qed.

Lemma look_ahead_step e w w' :
  loads_list e = false → look_ahead w → step e w = Some w' → look_ahead w'.
Proof.
  intros Hload Hw Hstep. pose proof Hw as [Hpending Hcalls].
  step_inv Hstep; try discriminate Hload.
  - done.
  - destruct (handleChoice_cases choice w)
      as [[_ ->]|[(_ & _ & ->)|(anime & data & _ & _ & _ & ->)]]; [done| |].
    + split; [|done]. simpl. apply Forall_app. split; [done|]. by apply Forall_singleton.
    + apply look_ahead_effect. split; simpl.
      * apply Forall_app. split; [|by apply Forall_singleton].
        eapply Forall_impl; [exact Hpending|]. intros t. apply frame_on_mono. simpl. lia.
      * eapply Forall_impl; [exact Hcalls|]. intros c. apply within_reach_mono. simpl. lia.
  - split; [|done]. simpl. by apply Forall_delete.
  - pose proof (Forall_lookup_1 _ _ _ _ Hpending Hk) as Hf. simpl in Hf.
    destruct Hf as (Hl & Hc & Hp & Hnext).
    split; simpl.
    + apply Forall_app. split; [by apply Forall_delete|]. by apply Forall_singleton.
    + apply Forall_app. split; [done|]. apply Forall_singleton. simpl.
      exists (pos f), (next f). split_and!; [lia|by rewrite <- Hl|done].
  - split; [|done]. simpl. by apply Forall_delete.
  - unfold loadAnimeData_resume. destruct r; (split; [|done]); simpl; by apply Forall_delete.
  - pose proof (Forall_lookup_1 _ _ _ _ Hpending Hk) as Hf. simpl in Hf.
    destruct Hf as (Hl & Hc & Hp & Hnext).
    unfold prefetch_resume. rewrite prefetch_from_eq.
    assert (Forall (frame_on (animeList (app w)) (currentIndex (app w)))
              (scan_tasks (pass f) (lst f) (cur f) (S (pos f))
                 (cacheRef (app (match r with
                                 | Ok200 data =>
                                     with_app (cache_put (AnimeXml.id (next f)) data)
                                       (retire k w)
                                 | _ => retire k w
                                 end)))
                 (now w))) as Hscan.
    { rewrite <- Hl. apply frame_on_scan_tasks; lia. }
    destruct r; (split; [|done]); cbn [pending app now with_app retire cache_put setCache
                                        animeList currentIndex];
      (apply Forall_app; split; [by apply Forall_delete|]); exact Hscan.
Qed.

Lemma frame_on_nil l c c' t : frame_on [] c t → frame_on l c' t.
Proof.
  destruct t; simpl; try done; intros (Hl & _ & _ & Hnext);
    rewrite Hl in Hnext; by rewrite lookup_nil in Hnext.
Qed.

Lemma look_ahead_first_list e w w' :
  resets e = false → first_list w → look_ahead w → step e w = Some w' → look_ahead w'.
Proof.
  intros Hres Hfirst Hw Hstep.
  destruct (first_list_step e w w' Hres Hfirst Hstep)
    as [_ [Hload|[->|(k & parsed & saved & rnd & -> & Hnil & _ & ->)]]].
  - by apply (look_ahead_step e w).
  - done.
  - destruct Hw as [Hpending Hcalls]. rewrite Hnil in Hpending, Hcalls.
    assert (calls w = []) as Hnone.
    { destruct (calls w) as [|c cs]; [done|].
      apply Forall_inv in Hcalls as (i & e & _ & He & _). by rewrite lookup_nil in He. }
    unfold xml_loaded. apply look_ahead_effect.
    destruct saved; (split; simpl; [|by rewrite Hnone]);
      (apply Forall_delete; eapply Forall_impl; [exact Hpending|]);
      intros t; apply frame_on_nil.
Qed.

(** X16: as long as no upload is accepted, the list is empty or the
    shuffled list of the text that the first effect loaded, and every call
    the component makes is for an entry of that list at most three
    positions ahead of the cursor. *)
Theorem calls_stay_within_the_look_ahead (es : list Event) (w : World) :
  forallb (λ e, negb (resets e)) es = true →
  run es init = Some w →
  (animeList (app w) = []
   ∨ ∃ k parsed saved rnd,
       XmlLoaded k parsed saved rnd ∈ es ∧ animeList (app w) = shuffle rnd parsed)
  ∧ Forall
      (λ c, ∃ i e, i < currentIndex (app w) + 4
                   ∧ animeList (app w) !! i = Some e
                   ∧ call_id c = AnimeXml.id e)
      (calls w).
Proof.
  intros Hes Hrun.
  destruct (first_list_run look_ahead es init w) as [[_ Hcalls] Hlist];
    [apply look_ahead_first_list|done|by right| |done|].
  { split; simpl; [by apply Forall_singleton|done]. }
  split; [exact Hlist|].
  eapply Forall_impl; [exact Hcalls|].
  intros c (i & e & Hi & He & Hid). by exists i, e.
Qed.

Lemma calls_stay_within_the_look_ahead_witness :
  run early_click init = Some early_click_world
  ∧ (λ c, (call_time c, call_id c)) <$> calls early_click_world = [(5, "1"); (1005, "6")]
  ∧ Forall
      (λ c, ∃ i e, i < currentIndex (app early_click_world) + 4
                   ∧ animeList (app early_click_world) !! i = Some e
                   ∧ call_id c = AnimeXml.id e)
      (calls early_click_world).
Proof.
  assert (run early_click init = Some early_click_world) as Hrun by (vm_compute; reflexivity).
  destruct (calls_stay_within_the_look_ahead early_click early_click_world)
    as [_ Hcalls]; [reflexivity|exact Hrun|].
  split_and!; [exact Hrun|vm_compute; reflexivity|exact Hcalls].
Defined.

(** ** Every order can come out of the shuffle *)

Section shuffle_orders.
Context {T : Type}.
Implicit Types (arr target : list T) (rnd : nat → Draw).

(** The draw [j / (i + 1)] picks the index [j]. *)
Lemma random_index_exact j i : j ≤ i → random_index (mkDraw j (i - j)) (S i) = j.
Proof.
  intros Hj. unfold random_index. cbn [num gap].
  replace (j + S (i - j)) with (S i) by lia. apply Nat.div_mul. lia.
Qed.

(** The loop started with [k] draws made reads the draws from [k] on. *)
Lemma shuffle_loop_ext rnd rnd' k i arr :
  (∀ m, k ≤ m → rnd m = rnd' m) →
  shuffle_loop rnd k i arr = shuffle_loop rnd' k i arr.
Proof.
  revert k arr. induction i as [|i IH]; intros k arr Hext; simpl; [done|].
  rewrite (Hext k) by lia. apply IH. intros m Hm. apply Hext. lia.
Qed.

Lemma shuffle_loop_reaches k i arr target :
  length arr = length target → i < length arr →
  take (S i) arr ≡ₚ take (S i) target → drop (S i) arr = drop (S i) target →
  ∃ rnd, shuffle_loop rnd k i arr = target.
Proof.
  revert k arr. induction i as [|i IH]; intros k arr Hlen Hi Htake Hdrop.
  - exists (λ _, mkDraw 0 0). simpl.
    destruct arr as [|a arr], target as [|b target]; simpl in *; try lia.
    rewrite ?take_0 in Htake. apply Permutation_singleton_inj in Htake.
    rewrite ?drop_0 in Hdrop. congruence.
  - destruct (lookup_lt_is_Some_2 target (S i)) as [x Hx]; [lia|].
    destruct (lookup_lt_is_Some_2 arr (S i)) as [y Hy]; [lia|].
    assert (x ∈ take (S (S i)) arr) as Hin.
    { rewrite Htake. apply elem_of_take. exists (S i). split; [done|lia]. }
    apply elem_of_take in Hin as (j & Hj & Hlt).
    set (arr1 := swap (S i) j arr).
    assert (arr1 = <[j := y]> (<[S i := x]> arr)) as Harr1.
    { unfold arr1, swap. by rewrite Hy, Hj. }
    assert (arr1 !! S i = Some x) as Hlast.
    { rewrite Harr1. destruct (decide (j = S i)) as [->|Hne].
      - rewrite list_lookup_insert_eq by (rewrite length_insert; lia). congruence.
      - rewrite list_lookup_insert_ne by done.
        by rewrite list_lookup_insert_eq by lia. }
    assert (drop (S (S i)) arr1 = drop (S (S i)) arr) as Hrest.
    { rewrite Harr1, !drop_insert_lt by lia. done. }
    assert (take (S (S i)) arr1 ≡ₚ take (S (S i)) arr) as Hfront.
    { apply (Permutation_app_inv_r (drop (S (S i)) arr)).
      rewrite <- Hrest at 1. rewrite !take_drop. apply swap_perm. }
    destruct (IH (S k) arr1) as [rnd' Hrnd'].
    + unfold arr1. by rewrite swap_perm.
    + unfold arr1. rewrite swap_perm. lia.
    + apply (Permutation_app_inv_r [x]).
      rewrite <- (take_S_r arr1 (S i) x Hlast), <- (take_S_r target (S i) x Hx).
      by rewrite Hfront.
    + rewrite (drop_S arr1 x (S i) Hlast), (drop_S target x (S i) Hx).
      by rewrite Hrest, Hdrop.
    + exists (λ m, if decide (m = k) then mkDraw j (S i - j) else rnd' m).
      cbn [shuffle_loop]. rewrite decide_True by done.
      rewrite random_index_exact by lia. fold arr1.
      rewrite <- Hrnd'. apply shuffle_loop_ext.
      intros m Hm. by rewrite decide_False by lia.
Qed.

End shuffle_orders.

(** X17: the shuffle can put the list in any order: for every
    rearrangement of the array there are draws of [Math.random] on which
    the shuffle returns it. *)
Theorem shuffle_reaches_every_order {T : Type} (array target : list T) :
  array ≡ₚ target → ∃ rnd, shuffle rnd array = target.
Proof.
  intros Hperm. unfold shuffle.
  destruct array as [|a array].
  - apply Permutation_nil_l in Hperm. subst target.
    exists (λ _, mkDraw 0 0). reflexivity.
  - apply shuffle_loop_reaches.
    + by rewrite Hperm.
    + simpl. lia.
    + replace (S (length (a :: array) - 1)) with (length (a :: array)) by (simpl; lia).
      rewrite firstn_all. rewrite (Permutation_length Hperm), firstn_all. done.
    + replace (S (length (a :: array) - 1)) with (length (a :: array)) by (simpl; lia).
      rewrite drop_all. rewrite (Permutation_length Hperm), drop_all. done.
Qed.

Lemma shuffle_reaches_every_order_witness :
  ∃ rnd, shuffle rnd [bebop; trigun; evangelion] = [trigun; evangelion; bebop].
Proof.
  apply shuffle_reaches_every_order.
  apply (Permutation_cons_append [trigun; evangelion] bebop).
Defined.

(** ** The pace of decisions *)

Lemma paced_step e w w' :
  cooldown_consistent w →
  cooling (1000 * currentIndex (app w)) w →
  step e w = Some w' →
  cooling (1000 * currentIndex (app w')) w'.
Proof.
  intros Hk Hw Hstep.
  destruct (decide (is_click e = true)) as [Hclick|Hclick].
  - destruct e as [|c| | | | |]; try discriminate Hclick. simpl in Hstep.
    injection Hstep as <-.
    destruct (handleChoice_cases c w)
      as [[_ ->]|[(Hc & _ & Heq)|(anime & data & Hc & _ & _ & Heq)]]; [done|..].
    + assert (currentIndex (app (handleChoice c w)) = currentIndex (app w)) as ->
        by (by rewrite Heq).
      by apply (cooling_step _ (Click c) w).
    + rewrite Heq. destruct Hw as [[? _]|Hnow]; [congruence|].
      assert (cooldown_timers w = []) as Hnil.
      { unfold cooldown_consistent in Hk. rewrite Hc in Hk. by apply nil_length_inv. }
      left. rewrite cooldown_timers_effect, isCooldown_effect.
      destruct (effect_session
        (mkWorld
           (mkApp (animeList (app w)) (currentIndex (app w) + 1) (Some data)
              (<[AnimeXml.id anime := c]> (choices (app w)))
              (match c with
               | liked => likedShows (app w) ++ [data]
               | disliked => likedShows (app w)
               end)
              true (showUpload (app w)) (cacheRef (app w)))
           (now w) (pending w ++ [Cooldown (now w + 1000)]) (calls w) (passes w)))
        as (-> & _ & _).
      split; [done|]. unfold cooldown_timers in *. cbn [pending app currentIndex].
      rewrite omap_app, Hnil. apply Forall_singleton. lia.
  - destruct (step_decisions e w w' Hstep)
      as [(Hcur & _)|[(_ & Hcur & _)|(c & ? & ? & -> & _)]]; [| |done].
    + rewrite Hcur. by apply (cooling_step _ e w).
    + rewrite Hcur. right. lia.
Qed.

(** X18: decisions are taken at most once a second: at every point of a
    session, 1000 ms for each position that the cursor has passed, save
    the last, have gone by since the page was loaded. *)
Theorem at_most_one_decision_per_second (es : list Event) (w : World) :
  run es init = Some w →
  1000 * currentIndex (app w) ≤ now w + 1000.
Proof.
  intros Hrun.
  assert (cooldown_consistent w ∧ cooling (1000 * currentIndex (app w)) w
          ∧ Forall (λ d, d ≤ now w + 1000) (cooldown_timers w)) as (Hk & Hw & Hdue).
  { revert Hrun.
    apply (run_invariant
      (λ w, cooldown_consistent w ∧ cooling (1000 * currentIndex (app w)) w
            ∧ Forall (λ d, d ≤ now w + 1000) (cooldown_timers w))).
    - intros e w0 w1 (Hk0 & Hw0 & Hdue0) Hstep. split_and!.
      + by apply (cooldown_consistent_step e w0).
      + by apply (paced_step e w0).
      + by apply (cooldown_due_step e w0).
    - split_and!; [done|right; simpl; lia|done]. }
  destruct Hw as [[Hflag Hall]|Hnow]; [|lia].
  unfold cooldown_consistent in Hk. rewrite Hflag in Hk.
  destruct (cooldown_timers w) as [|d [|]]; try discriminate Hk.
  pose proof (Forall_inv Hall) as Hd. pose proof (Forall_inv Hdue) as Hd'.
  cbv beta in Hd, Hd'. lia.
Qed.

Lemma at_most_one_decision_per_second_witness :
  run (first_resolved ++ decides_both) init = Some finished_world
  ∧ currentIndex (app finished_world) = 2
  ∧ now finished_world = 1000
  ∧ 1000 * currentIndex (app finished_world) ≤ now finished_world + 1000.
Proof.
  assert (run (first_resolved ++ decides_both) init = Some finished_world) as Hrun
    by (vm_compute; reflexivity).
  split_and!; [exact Hrun|reflexivity|reflexivity|].
  exact (at_most_one_decision_per_second _ _ Hrun).
Defined.

(** ** The progress line *)

Lemma main_picker_NoMoreAnime a :
  main_picker a = NoMoreAnime ↔ length (animeList a) ≤ currentIndex a.
Proof.
  unfold main_picker. rewrite <- lookup_ge_None.
  destruct (animeList a !! currentIndex a); [|done].
  by destruct (jikanData a).
Qed.

Lemma cursor_in_list_step e w w' :
  resets e = false → first_list w →
  currentIndex (app w) ≤ length (animeList (app w)) →
  step e w = Some w' →
  currentIndex (app w') ≤ length (animeList (app w')).
Proof.
  intros Hres Hfirst Hw Hstep.
  destruct (first_list_step e w w' Hres Hfirst Hstep)
    as [_ [Hload|[->|(k & parsed & saved & rnd & -> & Hnil & _ & ->)]]].
  - destruct (forward_step e w w' Hstep Hload) as (-> & _ & Hb & _). by apply Hb.
  - done.
  - rewrite Hnil in Hw. simpl in Hw. unfold xml_loaded.
    match goal with |- context [effect ?x] =>
      destruct (effect_session x) as (-> & _ & _) end.
    destruct saved; simpl; lia.
Qed.

(** X19: as long as no upload is accepted, the progress line counts from
    1 and runs one past the length of the list: it reads [n + 1] of [n]
    exactly when the main picker says that no title is left, and the
    identifier beside it is blank exactly then.  For an empty list it
    reads that the list is loading, while the main picker says that no
    title is left. *)
Theorem progress_counter_runs_one_past_the_end (es : list Event) (w : World) :
  forallb (λ e, negb (resets e)) es = true →
  run es init = Some w →
  match animeList (app w) with
  | [] => progress_info (app w) = (LoadingList, "")
          ∧ main_picker (app w) = NoMoreAnime
  | _ :: _ =>
      fst (progress_info (app w))
      = Counter (currentIndex (app w) + 1) (length (animeList (app w)))
      ∧ currentIndex (app w) + 1 ≤ length (animeList (app w)) + 1
      ∧ (currentIndex (app w) + 1 = length (animeList (app w)) + 1
         ↔ main_picker (app w) = NoMoreAnime)
      ∧ (snd (progress_info (app w)) = "" ↔ main_picker (app w) = NoMoreAnime)
  end.
Proof.
  intros Hes Hrun.
  destruct (first_list_run (λ w, currentIndex (app w) ≤ length (animeList (app w)))
              es init w) as [Hc _];
    [apply cursor_in_list_step|done|by right|simpl; lia|done|].
  pose proof (main_picker_NoMoreAnime (app w)) as Hview.
  unfold progress_info.
  destruct (animeList (app w)) as [|e l] eqn:Hl.
  - split; [|apply Hview; rewrite ?Hl; simpl; lia]. by rewrite lookup_nil.
  - rewrite ?Hl in Hview. cbn [fst snd]. split_and!.
    + done.
    + lia.
    + rewrite Hview. lia.
    + rewrite Hview, <- lookup_ge_None.
      by destruct ((e :: l) !! currentIndex (app w)).
Qed.

Lemma progress_counter_runs_one_past_the_end_witness :
  run (first_resolved ++ two_decisions) init = Some exhausted_world
  ∧ fst (progress_info (app exhausted_world)) = Counter 3 2
  ∧ main_picker (app exhausted_world) = NoMoreAnime.
Proof.
  assert (run (first_resolved ++ two_decisions) init = Some exhausted_world) as Hrun
    by (vm_compute; reflexivity).
  pose proof (progress_counter_runs_one_past_the_end
                (first_resolved ++ two_decisions) exhausted_world eq_refl Hrun) as Hline.
  assert (animeList (app exhausted_world) = [bebop; trigun]) as Hl
    by (vm_compute; reflexivity).
  rewrite Hl in Hline. destruct Hline as (Hcounter & _ & Hend & _).
  split_and!; [exact Hrun|exact Hcounter|by apply Hend].
Defined.

(** ** The upload prompt and the session *)

Lemma session_idemp w : session (session w) = session w.
Proof. reflexivity. Qed.

Lemma session_effect l c j ch li co b ca t ps cs n :
  session (effect (mkWorld (mkApp l c j ch li co b ca) t ps cs n))
  = session (effect (mkWorld (mkApp l c j ch li co false ca) t ps cs n)).
Proof.
  rewrite !effect_eq. unfold session, with_app, effect_tasks, effect_calls, effect_jikanData.
  cbn [app now pending calls passes animeList currentIndex jikanData cacheRef
       setJikanData setShowUpload choices likedShows isCooldown showUpload].
  reflexivity.
Qed.

(** The writes of one callback, applied to a world written out. *)
Ltac apply_writes :=
  cbn [with_app spawn retire record_call setIsCooldown setChoices setLikedShows
       setCurrentIndex setAnimeList setShowUpload setJikanData setCache cache_put
       app now pending calls passes animeList currentIndex jikanData choices
       likedShows isCooldown showUpload cacheRef].

(** One step does not read the flag. *)
Lemma step_session_flag e w : session <$> step e (session w) = session <$> step e w.
Proof.
  destruct w as [[l c j ch li co su ca] t ps cs n].
  change (session (mkWorld (mkApp l c j ch li co su ca) t ps cs n))
    with (mkWorld (mkApp l c j ch li co false ca) t ps cs n).
  destruct e as [dt|choice|parsed stored rnd|k parsed saved rnd|k|k|k r];
    cbn [step app now pending calls passes].
  - reflexivity.
  - cbn [fmap option_fmap option_map]. f_equal. unfold handleChoice. apply_writes.
    destruct co; [reflexivity|]. destruct (l !! c) as [anime|]; [|reflexivity].
    destruct j as [data|]; [|reflexivity].
    destruct choice; apply_writes; symmetry; apply session_effect.
  - cbn [fmap option_fmap option_map]. f_equal. unfold handleFileUpload.
    destruct parsed as [|e parsed]; [reflexivity|]. destruct stored; reflexivity.
  - destruct (ps !! k) as [[]|]; try reflexivity.
    cbn [fmap option_fmap option_map]. f_equal. unfold xml_loaded. apply_writes.
    destruct saved; apply_writes; [symmetry; apply session_effect|reflexivity].
  - destruct (ps !! k) as [[]|]; reflexivity.
  - destruct (ps !! k) as [[| |f d| |d]|]; try reflexivity.
    + destruct (d <=? t); reflexivity.
    + destruct (d <=? t); reflexivity.
  - destruct (ps !! k) as [[|id| |f|]|]; try reflexivity.
    + destruct r; reflexivity.
    + cbn [fmap option_fmap option_map]. f_equal.
      unfold prefetch_resume. rewrite !prefetch_from_eq. by destruct r.
Qed.

Lemma step_same_session e w1 w2 w1' :
  session w1 = session w2 → step e w1 = Some w1' →
  ∃ w2', step e w2 = Some w2' ∧ session w1' = session w2'.
Proof.
  intros Hsame Hstep.
  pose proof (step_session_flag e w1) as H1. pose proof (step_session_flag e w2) as H2.
  rewrite Hsame, H2, Hstep in H1.
  destruct (step e w2) as [w2'|]; [|done]. exists w2'. split; [done|].
  simpl in H1. congruence.
Qed.



(** ** The page and the component *)

Lemma page_step_world parse e p p' :
  page_step parse e p = Some p' →
  match component_part parse e p with
  | Some e' => step e' (world p) = Some (world p')
  | None => session (world p') = session (world p) ∨ world p' = init
  end.
Proof.
  destruct e as [e|k rnd|k str rnd|k| | | | |file|file|k stored rnd| | | |];
    cbn [page_step component_part].
  - destruct (component_event e); [|done]. intros (w & Hw & ->)%in_world_Some. exact Hw.
  - destruct (savedXml p) as [[|c s]|]; try done.
    intros (w & Hw & ->)%in_world_Some. exact Hw.
  - destruct (truthy (savedXml p)); [done|]. intros (w & Hw & ->)%in_world_Some. exact Hw.
  - destruct (truthy (savedXml p)); [done|]. intros (w & Hw & ->)%in_world_Some. exact Hw.
  - intros [= <-]. by left.
  - destruct (showUpload _); [|done]. intros [= <-]. by left.
  - destruct (showUpload _); [|done]. intros [= <-]. by left.
  - destruct (showUpload _); [|done]. intros [= <-]. by left.
  - destruct (showUpload _); [|done]. intros [= <-]. left.
    by destruct file as [f|]; [simpl; destruct (endsWith _ _)|].
  - destruct (showUpload _); [|done]. intros [= <-]. left. by destruct file.
  - destruct (reading p !! k) as [f|]; [|done]. cbn. intros [= <-].
    unfold onload. cbn [File.text world].
    destruct (entries_of (parse (File.text f))) as [|e l]; [done|].
    by destruct stored.
  - destruct (_ && _); [|done]. intros [= <-]. by left.
  - destruct (showClearConfirm p); [|done]. intros [= <-]. by left.
  - destruct (showClearConfirm p); [|done]. intros [= <-]. by right.
  - intros [= <-]. by right.
Qed.

(** X21: the component on the page is the component of the runs above:
    whatever happens on the page, the world of the page is, up to the
    upload prompt, a world that a run of component events reaches from the
    mounting. *)
Theorem page_worlds_are_reachable
    (parseFromString : string → Node) (item : option string)
    (es : list PageEvent) (p : Page) :
  page_run parseFromString es (mount item) = Some p →
  ∃ w, reachable w ∧ session w = session (world p).
Proof.
  assert (∀ es p0 p,
    (∃ w, reachable w ∧ session w = session (world p0)) →
    page_run parseFromString es p0 = Some p →
    ∃ w, reachable w ∧ session w = session (world p)) as Hgen.
  { clear. intros es. induction es as [|e es IH]; intros p0 p Hp0 Hrun.
    - by injection Hrun as <-.
    - rewrite page_run_cons in Hrun.
      destruct (page_step parseFromString e p0) as [p1|] eqn:Hstep; [|done].
      apply (IH p1 p); [|done]. clear IH Hrun.
      destruct Hp0 as (w & [es0 Hw] & Hsame).
      pose proof (page_step_world parseFromString e p0 p1 Hstep) as Hworld.
      destruct (component_part parseFromString e p0) as [e'|].
      + symmetry in Hsame.
        destruct (step_same_session e' (world p0) w (world p1) Hsame Hworld)
          as (w' & Hstep' & Hsame').
        exists w'. split; [|done]. exists (es0 ++ [e']).
        rewrite run_app, Hw. simpl. by rewrite Hstep'.
      + destruct Hworld as [Hkeep| ->].
        * exists w. split; [by exists es0|congruence].
        * exists init. split; [by exists []|done]. }
  apply Hgen. exists init. split; [by exists []|done].
Qed.

Lemma page_worlds_are_reachable_witness :
  page_run sample_parser (first_visit ++ asks_to_clear) (mount None) = Some clearing_page
  ∧ ∃ w, reachable w ∧ session w = session (world clearing_page).
Proof.
  assert (page_run sample_parser (first_visit ++ asks_to_clear) (mount None)
          = Some clearing_page) as Hrun by (vm_compute; reflexivity).
  split; [exact Hrun|].
  exact (page_worlds_are_reachable sample_parser None _ _ Hrun).
Defined.
